(** * owl: the query and traversal layer over a parsed HTML tree

    A shallow embedding of [owl.go] (package [owl]) and of its error
    declarations, followed by the properties of the query engine:
    the matcher, the depth-first searches, the text extraction, the
    sibling navigation and the two result wrappers. *)

From Stdlib Require Import String Ascii List Bool Arith NArith ZArith Lia Sorted.
Import ListNotations.
Local Open Scope string_scope.
Local Open Scope list_scope.

(* ===================================================================== *)
(** * Go runtime: panics and the execution monads                          *)
(* ===================================================================== *)

(** The run-time panics the code can raise.  [DanglingAddress] has no Go
    counterpart: it marks the use of an address that names no node of the
    document, which a Go pointer can never be. *)
Inductive panic : Set :=
| NilDereference
| IndexOutOfRange
| DanglingAddress.

Inductive result (A : Type) : Type :=
| Ok (a : A)
| Panic (e : panic).
Arguments Ok {A} a.
Arguments Panic {A} e.

Definition rbind {A B : Type} (c : result A) (k : A -> result B) : result B :=
  match c with
  | Ok a => k a
  | Panic e => Panic e
  end.

Declare Scope go_scope.
Delimit Scope go_scope with go.
Notation "x <- c ;; k" := (rbind c (fun x => k))
  (at level 61, c at next level, right associativity) : go_scope.
Local Open Scope go_scope.

(** [s[i]] on a slice: a panic outside [0 <= i < len(s)]. *)
Definition index {A : Type} (s : list A) (i : nat) : result A :=
  match nth_error s i with
  | Some a => Ok a
  | None => Panic IndexOutOfRange
  end.

(** Go's [int] on a 64-bit platform: the value of an arithmetic result
    after wrap-around. *)
Definition int (z : Z) : Z := ((z + 2 ^ 63) mod 2 ^ 64 - 2 ^ 63)%Z.

(** The same with a Go [int] index, which may be negative. *)
Definition indexZ {A : Type} (s : list A) (i : Z) : result A :=
  if (i <? 0)%Z then Panic IndexOutOfRange else index s (Z.to_nat i).

(* ===================================================================== *)
(** * Go standard library: strings.Fields and the regexp [^\s+$]          *)
(* ===================================================================== *)

Module strings.

Definition byte (c : ascii) : N := N_of_ascii c.

(** [asciiSpace]: tab, newline, vertical tab, form feed, carriage
    return, space. *)
Definition asciiSpace (b : N) : bool :=
  ((9 <=? b) && (b <=? 13) || (b =? 32))%N.

(** Width in bytes of the white-space rune (in the sense of
    [unicode.IsSpace]) whose UTF-8 encoding starts the string, 0 when
    the string does not start with one: the six ASCII spaces, U+0085,
    U+00A0, U+1680, U+2000..U+200A, U+2028, U+2029, U+202F, U+205F and
    U+3000. *)
Definition space3 (b0 b1 b2 : N) : bool :=
  ((b0 =? 225) && (b1 =? 154) && (b2 =? 128)
   || (b0 =? 226) && (b1 =? 128)
      && ((128 <=? b2) && (b2 <=? 138) || (b2 =? 168) || (b2 =? 169) || (b2 =? 175))
   || (b0 =? 226) && (b1 =? 129) && (b2 =? 159)
   || (b0 =? 227) && (b1 =? 128) && (b2 =? 128))%N.

Definition space2 (b0 b1 : N) : bool :=
  ((b0 =? 194) && ((b1 =? 133) || (b1 =? 160)))%N.

Definition space_width (s : string) : nat :=
  match s with
  | String c0 (String c1 (String c2 _)) =>
      if asciiSpace (byte c0) then 1
      else if space2 (byte c0) (byte c1) then 2
      else if space3 (byte c0) (byte c1) (byte c2) then 3
      else 0
  | String c0 (String c1 EmptyString) =>
      if asciiSpace (byte c0) then 1
      else if space2 (byte c0) (byte c1) then 2
      else 0
  | String c0 EmptyString => if asciiSpace (byte c0) then 1 else 0
  | EmptyString => 0
  end.

Definition flush (cur : string) : list string :=
  match cur with
  | EmptyString => []
  | _ => [cur]
  end.

(** The scan of [Fields]: [skip] counts the remaining bytes of the
    white-space rune being passed over, [cur] is the field read so
    far. *)
Fixpoint fields_scan (s : string) (skip : nat) (cur : string) : list string :=
  match s with
  | EmptyString => flush cur
  | String c s' =>
      match skip with
      | S k => fields_scan s' k cur
      | O =>
          match space_width s with
          | O => fields_scan s' 0 (cur ++ String c EmptyString)
          | S w => flush cur ++ fields_scan s' w EmptyString
          end
      end
  end.

(** [strings.Fields]: the maximal runs of non-space characters. *)
Definition Fields (s : string) : list string := fields_scan s 0 EmptyString.

(** [strings.Join]. *)
Fixpoint Join (elems : list string) (sep : string) : string :=
  match elems with
  | [] => EmptyString
  | [e] => e
  | e :: rest => e ++ sep ++ Join rest sep
  end.

End strings.

Module regexp.

(** The class [\s] of Go's regexp syntax: [\t\n\f\r ] (no vertical
    tab). *)
Definition perl_space (c : ascii) : bool :=
  let b := N_of_ascii c in
  ((b =? 9) || (b =? 10) || (b =? 12) || (b =? 13) || (b =? 32))%N.

Fixpoint all_space (s : string) : bool :=
  match s with
  | EmptyString => true
  | String c s' => perl_space c && all_space s'
  end.

(** [regexp.Compile(`^\s+$`)] followed by [MatchString]: the whole
    text is a non-empty run of [\s]. *)
Definition MatchString_only_space (s : string) : bool :=
  match s with
  | EmptyString => false
  | _ => all_space s
  end.

End regexp.

(* ===================================================================== *)
(** * The node tree of golang.org/x/net/html                              *)
(* ===================================================================== *)

Module html.

Inductive NodeType : Set :=
| ErrorNode
| TextNode
| DocumentNode
| ElementNode
| CommentNode
| DoctypeNode
| RawNode.

Definition NodeType_eqb (a b : NodeType) : bool :=
  match a, b with
  | ErrorNode, ErrorNode | TextNode, TextNode | DocumentNode, DocumentNode
  | ElementNode, ElementNode | CommentNode, CommentNode
  | DoctypeNode, DoctypeNode | RawNode, RawNode => true
  | _, _ => false
  end.

Record Attribute : Set := mkAttribute
  { Namespace : string; Key : string; Val : string }.

(** A node with the chain [FirstChild], [FirstChild.NextSibling], ...
    of its children as a list.  The tree is never mutated by the
    package. *)
#[local] Unset Elimination Schemes.
Inductive Node : Set := mkNode
  { Type' : NodeType;
    Data : string;
    Attr : list Attribute;
    Children : list Node }.
#[local] Set Elimination Schemes.

End html.

(** A [*html.Node]: [None] is [nil], [Some a] is the node found by
    following the child indices [a] from the top of the document. *)
Definition Addr : Set := list nat.
Definition Ptr : Set := option Addr.

Fixpoint deref (doc : html.Node) (a : Addr) : option html.Node :=
  match a with
  | [] => Some doc
  | i :: a' =>
      match nth_error (html.Children doc) i with
      | Some c => deref c a'
      | None => None
      end
  end.

(** The parent's address and the position among the siblings. *)
Fixpoint unsnoc (a : Addr) : option (Addr * nat) :=
  match a with
  | [] => None
  | [i] => Some ([], i)
  | i :: a' =>
      match unsnoc a' with
      | Some (q, j) => Some (i :: q, j)
      | None => None
      end
  end.

Definition live (doc : html.Node) (a : Addr) : Ptr :=
  match deref doc a with
  | Some _ => Some a
  | None => None
  end.

(** The link fields of [html.Node], read through an address. *)
Definition FirstChild (doc : html.Node) (a : Addr) : Ptr := live doc (a ++ [0]).

Definition NextSibling (doc : html.Node) (a : Addr) : Ptr :=
  match unsnoc a with
  | Some (q, i) => live doc (q ++ [S i])
  | None => None
  end.

Definition PrevSibling (doc : html.Node) (a : Addr) : Ptr :=
  match unsnoc a with
  | Some (q, S i) => live doc (q ++ [i])
  | _ => None
  end.

(** A dereference [n.f]: a panic on [nil]. *)
Definition load (doc : html.Node) (p : Ptr) : result (Addr * html.Node) :=
  match p with
  | None => Panic NilDereference
  | Some a =>
      match deref doc a with
      | Some t => Ok (a, t)
      | None => Panic DanglingAddress
      end
  end.

Definition DataAt (doc : html.Node) (a : Addr) : result string :=
  at_a <- load doc (Some a) ;; Ok (html.Data (snd at_a)).

(** Executions that also record, in order, the nodes on which the
    search evaluated its test.  The record survives a panic. *)
Definition Exec (A : Type) : Type := (list Addr * result A)%type.

Definition visited {A : Type} (c : Exec A) : list Addr := fst c.
Definition outcome {A : Type} (c : Exec A) : result A := snd c.

Definition eret {A : Type} (a : A) : Exec A := ([], Ok a).

Definition ebind {A B : Type} (c : Exec A) (k : A -> Exec B) : Exec B :=
  match c with
  | (l, Ok a) => (l ++ visited (k a), outcome (k a))
  | (l, Panic e) => (l, Panic e)
  end.

Definition tested {A : Type} (n : Addr) (r : result A) : Exec A := ([n], r).

Notation "x <~ c ;; k" := (ebind c (fun x => k))
  (at level 61, c at next level, right associativity) : go_scope.

(* ===================================================================== *)
(** * Errors                                                               *)
(* ===================================================================== *)

Inductive ErrorType : Set :=
| ErrUnableToParse
| ErrElementNotFound
| ErrElementsNotFound
| ErrNoNextSibling
| ErrNoPreviousSibling
| ErrNoNextElementSibling
| ErrNoPreviousElementSibling
| ErrCreatingGetRequest
| ErrInGetRequest
| ErrCreatingPostRequest
| ErrMarshallingPostRequest
| ErrReadingResponse.

(** [type Error struct { Type ErrorType; msg error }]; the wrapped
    [error] is its text. *)
Record Error : Set := mkError { Type' : ErrorType; msg : string }.

Definition Err (er : Error) : string := msg er.

Definition newError (t : ErrorType) (m : string) : Error :=
  {| Type' := t; msg := m |}.

(* ===================================================================== *)
(** * The query results                                                    *)
(* ===================================================================== *)

Module Root.
Record t : Set := mk
  { Node : Ptr;
    NodeValue : string;
    Error : option Error }.
End Root.

Module Roots.
Record t : Set := mk
  { Roots : list Root.t;
    Len : Z;
    Error : option Error }.
End Roots.

(* ===================================================================== *)
(** * The matcher                                                          *)
(* ===================================================================== *)

Definition matchElementName (n : html.Node) (name : string) : bool :=
  (name =? "")%string || (name =? html.Data n)%string.

Definition attributeAndValueEquals (attr : html.Attribute) (attribute value : string) : bool :=
  (html.Key attr =? attribute)%string && (html.Val attr =? value)%string.

(** The [for ... range strings.Fields(attr.Val)] loop. *)
Fixpoint containsField (fields : list string) (value : string) : bool :=
  match fields with
  | [] => false
  | attrVal :: rest => if (attrVal =? value)%string then true else containsField rest value
  end.

Definition attributeContainsValue (attr : html.Attribute) (attribute value : string) : bool :=
  if (html.Key attr =? attribute)%string
  then containsField (strings.Fields (html.Val attr)) value
  else false.

(** The condition of the [if] inside both attribute loops. *)
Definition attrTest (strict : bool) (attr : html.Attribute) (name val : string) : bool :=
  (strict && attributeAndValueEquals attr name val)
  || (negb strict && attributeContainsValue attr name val).

(* ===================================================================== *)
(** * The traversal engine                                                 *)
(* ===================================================================== *)

(** [findOnce], lines 343-351: the loop over [n.Attr]; [true] stands
    for [return n, true]. *)
Fixpoint findOnce_attrs (attrs : list html.Attribute) (args : list string) (strict : bool)
  : result bool :=
  match attrs with
  | [] => Ok false
  | attr :: rest =>
      searchAttrName <- index args 1 ;;
      searchAttrVal <- index args 2 ;;
      if attrTest strict attr searchAttrName searchAttrVal
      then Ok true
      else findOnce_attrs rest args strict
  end.

(** [findOnce], lines 341-355: the test of the node itself; [true]
    stands for [return n, true]. *)
Definition findOnce_self (t : html.Node) (args : list string) (strict : bool) : result bool :=
  if html.NodeType_eqb (html.Type' t) html.ElementNode then
    name <- index args 0 ;;
    if matchElementName t name then
      if ((1 <? length args) && (length args <? 4))%nat then
        findOnce_attrs (html.Attr t) args strict
      else if (length args =? 1)%nat then Ok true
      else Ok false
    else Ok false
  else Ok false.

(** [findOnce] on the node [t] that lives at address [n].  The pair
    [(p, q)] of the source, whose flag is set exactly when the pointer
    is not nil, is the option. *)
Fixpoint findOnce_tree (t : html.Node) (n : Addr) (args : list string) (uni strict : bool)
  {struct t} : Exec (option Addr) :=
  hit <~ (if uni then tested n (findOnce_self t args strict) else eret false) ;;
  if hit then eret (Some n)
  else
    (fix children (cs : list html.Node) (i : nat) {struct cs} : Exec (option Addr) :=
       match cs with
       | [] => eret None
       | c :: rest =>
           pq <~ findOnce_tree c (n ++ [i]) args true strict ;;
           match pq with
           | Some p => eret (Some p)
           | None => children rest (S i)
           end
       end) (html.Children t) 0.

Definition lift {A : Type} (r : result A) : Exec A := ([], r).

Definition findOnce (doc : html.Node) (n : Ptr) (args : list string) (uni strict : bool)
  : Exec (option Addr) :=
  at_n <~ lift (load doc n) ;;
  findOnce_tree (snd at_n) (fst at_n) args uni strict.

(** [findAllofem], lines 375-383: the loop over [n.Attr], appending
    to [nodeLinks]. *)
Fixpoint findAllofem_attrs (attrs : list html.Attribute) (n : Addr) (args : list string)
  (strict : bool) (nodeLinks : list Addr) : result (list Addr) :=
  match attrs with
  | [] => Ok nodeLinks
  | attr :: rest =>
      searchAttrName <- index args 1 ;;
      searchAttrVal <- index args 2 ;;
      if attrTest strict attr searchAttrName searchAttrVal
      then findAllofem_attrs rest n args strict (nodeLinks ++ [n])
      else findAllofem_attrs rest n args strict nodeLinks
  end.

Definition findAllofem_self (t : html.Node) (n : Addr) (args : list string) (strict : bool)
  (nodeLinks : list Addr) : result (list Addr) :=
  if html.NodeType_eqb (html.Type' t) html.ElementNode then
    name <- index args 0 ;;
    if matchElementName t name then
      if ((1 <? length args) && (length args <? 4))%nat then
        findAllofem_attrs (html.Attr t) n args strict nodeLinks
      else if (length args =? 1)%nat then Ok (nodeLinks ++ [n])
      else Ok nodeLinks
    else Ok nodeLinks
  else Ok nodeLinks.

(** The closure [f] of [findAllofem]; the captured slice [nodeLinks]
    is passed in and out. *)
Fixpoint findAllofem_f (t : html.Node) (n : Addr) (args : list string) (uni strict : bool)
  (nodeLinks : list Addr) {struct t} : Exec (list Addr) :=
  nodeLinks1 <~ (if uni then tested n (findAllofem_self t n args strict nodeLinks)
                 else eret nodeLinks) ;;
  (fix children (cs : list html.Node) (i : nat) (acc : list Addr) {struct cs}
     : Exec (list Addr) :=
     match cs with
     | [] => eret acc
     | c :: rest =>
         acc1 <~ findAllofem_f c (n ++ [i]) args true strict acc ;;
         children rest (S i) acc1
     end) (html.Children t) 0 nodeLinks1.

Definition findAllofem (doc : html.Node) (n : Ptr) (args : list string) (strict : bool)
  : Exec (list Addr) :=
  at_n <~ lift (load doc n) ;;
  findAllofem_f (snd at_n) (fst at_n) args false strict [].

(* ===================================================================== *)
(** * The methods of Root and Roots                                        *)
(* ===================================================================== *)

Definition notFound : Root.t :=
  Root.mk None ""
    (Some {| Type' := ErrElementNotFound;
             msg := "given element and attriabutes not found" |}).

(** [&Root{Node: temp, NodeValue: temp.Data, Error: nil}]. *)
Definition rootAt (doc : html.Node) (a : Addr) : result Root.t :=
  data <- DataAt doc a ;; Ok (Root.mk (Some a) data None).

Definition Find (doc : html.Node) (r : Root.t) (args : list string) : result Root.t :=
  temp <- outcome (findOnce doc (Root.Node r) args false false) ;;
  match temp with
  | None => Ok notFound
  | Some a => rootAt doc a
  end.

Definition FindStrict (doc : html.Node) (r : Root.t) (args : list string) : result Root.t :=
  temp <- outcome (findOnce doc (Root.Node r) args false true) ;;
  match temp with
  | None => Ok notFound
  | Some a => rootAt doc a
  end.

Definition Title (doc : html.Node) (r : Root.t) : result Root.t :=
  let slic := ["title"] in
  re <- outcome (findOnce doc (Root.Node r) slic false true) ;;
  match re with
  | None => Ok notFound
  | Some a => rootAt doc a
  end.

Definition FindNextSibling (doc : html.Node) (r : Root.t) : result Root.t :=
  at_n <- load doc (Root.Node r) ;;
  match NextSibling doc (fst at_n) with
  | None => Ok (Root.mk None "" (Some (newError ErrNoNextSibling "no next sibling found")))
  | Some nextSibling => rootAt doc nextSibling
  end.

Definition FindPrevSibling (doc : html.Node) (r : Root.t) : result Root.t :=
  at_n <- load doc (Root.Node r) ;;
  match PrevSibling doc (fst at_n) with
  | None => Ok (Root.mk None "" (Some (newError ErrNoNextSibling "no previous sibling found")))
  | Some prevSibling => rootAt doc prevSibling
  end.

(** The recursion of [FindNextElementSibling] along the sibling chain:
    [after] holds the siblings that follow, the first of them at
    position [i] under the parent [q]. *)
Fixpoint nextElementSibling (after : list html.Node) (q : Addr) (i : nat) : Root.t :=
  match after with
  | [] =>
      Root.mk None "" (Some (newError ErrNoNextSibling "no next element sibling found"))
  | nextSibling :: rest =>
      if html.NodeType_eqb (html.Type' nextSibling) html.ElementNode
      then Root.mk (Some (q ++ [i])) (html.Data nextSibling) None
      else nextElementSibling rest q (S i)
  end.

(** The siblings of the node at [a]: those before it, nearest first,
    and those after it. *)
Definition siblings (doc : html.Node) (a : Addr)
  : option (Addr * nat * list html.Node * list html.Node) :=
  match unsnoc a with
  | None => None
  | Some (q, i) =>
      match deref doc q with
      | Some parent =>
          Some (q, i, rev (firstn i (html.Children parent)),
                skipn (S i) (html.Children parent))
      | None => None
      end
  end.

Definition FindNextElementSibling (doc : html.Node) (r : Root.t) : result Root.t :=
  at_n <- load doc (Root.Node r) ;;
  match siblings doc (fst at_n) with
  | Some (q, i, _, after) => Ok (nextElementSibling after q (S i))
  | None => Ok (nextElementSibling [] [] 0)
  end.

(** The recursion of [FindPrevElementSibling]: [before] holds the
    siblings that precede the node at position [i], nearest first. *)
Fixpoint prevElementSibling (before : list html.Node) (q : Addr) (i : nat) : Root.t :=
  match before with
  | [] =>
      Root.mk None "" (Some (newError ErrNoNextSibling "no previous element sibling found"))
  | prevSibling :: rest =>
      if html.NodeType_eqb (html.Type' prevSibling) html.ElementNode
      then Root.mk (Some (q ++ [pred i])) (html.Data prevSibling) None
      else prevElementSibling rest q (pred i)
  end.

Definition FindPrevElementSibling (doc : html.Node) (r : Root.t) : result Root.t :=
  at_n <- load doc (Root.Node r) ;;
  match siblings doc (fst at_n) with
  | Some (q, i, before, _) => Ok (prevElementSibling before q i)
  | None => Ok (prevElementSibling [] [] 0)
  end.

(** The loop that wraps [temp[i]] into [&Root{...}]. *)
Fixpoint wrapAll (doc : html.Node) (temp : list Addr) : result (list Root.t) :=
  match temp with
  | [] => Ok []
  | a :: rest =>
      data <- DataAt doc a ;;
      Nodes <- wrapAll doc rest ;;
      Ok (Root.mk (Some a) data None :: Nodes)
  end.

Definition FindAll (doc : html.Node) (r : Root.t) (args : list string) : result Roots.t :=
  temp <- outcome (findAllofem doc (Root.Node r) args false) ;;
  let length := List.length temp in
  if (length =? 0)%nat then
    Ok (Roots.mk [] 0
          (Some (newError ErrElementsNotFound "no elements or attriabutes found")))
  else
    Nodes <- wrapAll doc temp ;;
    Ok (Roots.mk Nodes (Z.of_nat length) None).

Definition First (rs : Roots.t) : result Root.t := index (Roots.Roots rs) 0.

Definition Last (rs : Roots.t) : result Root.t :=
  indexZ (Roots.Roots rs) (int (Roots.Len rs - 1)).

Definition FindAllStrict (doc : html.Node) (r : Root.t) (args : list string)
  : result Roots.t :=
  temp <- outcome (findAllofem doc (Root.Node r) args true) ;;
  let length := List.length temp in
  if (length =? 0)%nat then
    a0 <- index args 0 ;;
    Ok (Roots.mk [] 0
          (Some (newError ErrElementNotFound
                   ("element `" ++ a0 ++ "` with attributes `"
                    ++ strings.Join (tl args) " " ++ "` not found"))))
  else
    Nodes <- wrapAll doc temp ;;
    Ok (Roots.mk Nodes (Z.of_nat length) None).

(** The closure [f] of [Text]: [sibs] is the chain [n],
    [n.NextSibling], ... (empty for nil) and [k] the captured first
    child, which is never reassigned.  The values of the inner calls
    are dropped, as in the source. *)
Fixpoint Text_f (k : option html.Node) (sibs : list html.Node) : result string :=
  match sibs with
  | [] =>
      match k with
      | Some kn =>
          if regexp.MatchString_only_space (html.Data kn)
          then Panic NilDereference
          else Ok (html.Data kn)
      | None => Ok ""
      end
  | n :: rest =>
      if negb (html.NodeType_eqb (html.Type' n) html.TextNode) then
        match rest with
        | [] => Ok ""
        | _ :: rest1 =>
            _ <- Text_f k rest ;;
            match k with
            | Some kn =>
                if regexp.MatchString_only_space (html.Data kn) then
                  match rest1 with
                  | [] => Ok ""
                  | _ :: _ => _ <- Text_f k rest1 ;; Ok (html.Data kn)
                  end
                else Ok (html.Data kn)
            | None => Ok ""
            end
        end
      else
        match k with
        | Some kn =>
            if regexp.MatchString_only_space (html.Data kn) then
              match rest with
              | [] => Ok ""
              | _ :: _ => _ <- Text_f k rest ;; Ok (html.Data kn)
              end
            else Ok (html.Data kn)
        | None => Ok ""
        end
  end.

Definition Text (doc : html.Node) (r : Root.t) : result string :=
  at_n <- load doc (Root.Node r) ;;
  let cs := html.Children (snd at_n) in
  Text_f (hd_error cs) cs.

(** The loop of [Children]: [childNode] is at position [i] under [a]. *)
Fixpoint Children_loop (cs : list html.Node) (a : Addr) (i : nat)
  (rootNode : list Root.t) (childrenNode : Roots.t) : Roots.t :=
  match cs with
  | [] => childrenNode
  | childNode :: rest =>
      let rootNode := rootNode ++ [Root.mk (Some (a ++ [i])) (html.Data childNode) None] in
      Children_loop rest a (S i) rootNode
        (Roots.mk rootNode (Z.of_nat (length rootNode)) (Roots.Error childrenNode))
  end.

Definition Children (doc : html.Node) (r : Root.t) : result Roots.t :=
  at_n <- load doc (Root.Node r) ;;
  Ok (Children_loop (html.Children (snd at_n)) (fst at_n) 0 [] (Roots.mk [] 0 None)).

(* ===================================================================== *)
(** * The remaining methods of Root and Roots                              *)
(* ===================================================================== *)

(** The closure [f] of [FullText] at one node: the write of a text
    node and the descent into an element; the step to [n.NextSibling]
    is the loop over the chain.  The buffer is passed in and out. *)
Fixpoint FullText_f (n : html.Node) (buf : string) {struct n} : string :=
  let buf :=
    if html.NodeType_eqb (html.Type' n) html.TextNode
    then (buf ++ html.Data n)%string
    else buf in
  if html.NodeType_eqb (html.Type' n) html.ElementNode then
    (fix chain (sibs : list html.Node) (buf : string) {struct sibs} : string :=
       match sibs with
       | [] => buf
       | c :: rest => chain rest (FullText_f c buf)
       end) (html.Children n) buf
  else buf.

Fixpoint FullText_chain (sibs : list html.Node) (buf : string) : string :=
  match sibs with
  | [] => buf
  | c :: rest => FullText_chain rest (FullText_f c buf)
  end.

Definition FullText (doc : html.Node) (r : Root.t) : result string :=
  at_n <- load doc (Root.Node r) ;;
  Ok (FullText_chain (html.Children (snd at_n)) "").

(** [ForEach]: the callback acts on a state of the caller; the result
    is the last [r] of the loop, nil on an empty sequence. *)
Fixpoint ForEach_loop {S : Type} (rs : list Root.t) (i : Z)
  (f : Z -> Root.t -> S -> result S) (r : option Root.t) (s : S)
  : result (S * option Root.t) :=
  match rs with
  | [] => Ok (s, r)
  | r0 :: rest =>
      s1 <- f i r0 s ;;
      ForEach_loop rest (i + 1)%Z f (Some r0) s1
  end.

Definition ForEach {S : Type} (rs : Roots.t) (f : Z -> Root.t -> S -> result S) (s : S)
  : result (S * option Root.t) :=
  ForEach_loop (Roots.Roots rs) 0 f None s.

(** A [map[string]string]: the entries, one for each key.  [None]
    stands for the nil map where a map may be nil. *)
Module gomap.

Definition t : Set := list (string * string).

(** [v, ok := m[k]]. *)
Fixpoint lookup (m : t) (k : string) : option string :=
  match m with
  | [] => None
  | (k', v) :: rest => if (k' =? k)%string then Some v else lookup rest k
  end.

(** [m[k] = v]. *)
Fixpoint store (m : t) (k v : string) : t :=
  match m with
  | [] => [(k, v)]
  | (k', v') :: rest =>
      if (k' =? k)%string then (k, v) :: rest else (k', v') :: store rest k v
  end.

(** [m[k]] on a map that may be nil: the zero value for a missing
    key. *)
Definition at_ (m : option t) (k : string) : string :=
  match m with
  | Some entries =>
      match lookup entries k with
      | Some v => v
      | None => ""
      end
  | None => ""
  end.

End gomap.

Fixpoint getKeyValue_loop (attributes : list html.Attribute) (keyvalues : gomap.t)
  : gomap.t :=
  match attributes with
  | [] => keyvalues
  | attribute :: rest =>
      match gomap.lookup keyvalues (html.Key attribute) with
      | Some _ => getKeyValue_loop rest keyvalues
      | None =>
          getKeyValue_loop rest
            (gomap.store keyvalues (html.Key attribute) (html.Val attribute))
      end
  end.

Definition getKeyValue (attributes : list html.Attribute) : gomap.t :=
  getKeyValue_loop attributes [].

Definition Attrs (doc : html.Node) (r : Root.t) : result (option gomap.t) :=
  at_n <- load doc (Root.Node r) ;;
  let n := snd at_n in
  if negb (html.NodeType_eqb (html.Type' n) html.ElementNode)
     && (length (html.Attr n) =? 0)%nat
  then Ok None
  else Ok (Some (getKeyValue (html.Attr n))).

(* ===================================================================== *)
(** * Parsing                                                              *)
(* ===================================================================== *)

(** The outcome of a loop that need not end: [OutOfFuel] when the
    given number of iterations did not suffice. *)
Inductive run (A : Type) : Type :=
| Done (r : result A)
| OutOfFuel.
Arguments Done {A} r.
Arguments OutOfFuel {A}.

(** The loop of [htmlparsing], lines 38-47, [fuel] iterations at
    most. *)
Fixpoint htmlparsing_loop (fuel : nat) (doc : html.Node) (root : Ptr) : run Addr :=
  match load doc root with
  | Panic e => Done (Panic e)
  | Ok (a, t) =>
      if html.NodeType_eqb (html.Type' t) html.ElementNode then Done (Ok a)
      else
        match fuel with
        | O => OutOfFuel
        | S fuel' =>
            match html.Type' t with
            | html.DocumentNode => htmlparsing_loop fuel' doc (FirstChild doc a)
            | html.DoctypeNode => htmlparsing_loop fuel' doc (NextSibling doc a)
            | html.CommentNode => htmlparsing_loop fuel' doc (NextSibling doc a)
            | _ => htmlparsing_loop fuel' doc root
            end
        end
  end.

Section Parser.

(** The values of [io.Reader] and [html.Parse] of the external
    parser: the top of the tree it built, or the text of its error. *)
Variable Reader : Type.
Variable Parse : Reader -> html.Node + string.
Variable NewReader : string -> Reader.

Definition htmlparsing (fuel : nat) (r : Reader) : run Root.t :=
  match Parse r with
  | inr err => Done (Ok (Root.mk None "" (Some (newError ErrUnableToParse err))))
  | inl doc =>
      match htmlparsing_loop fuel doc (Some []) with
      | Done (Ok root) =>
          Done (data <- DataAt doc root ;; Ok (Root.mk (Some root) data None))
      | Done (Panic e) => Done (Panic e)
      | OutOfFuel => OutOfFuel
      end
  end.

Definition HTMLParse (fuel : nat) (r : Reader) : run Root.t := htmlparsing fuel r.

Definition HTMLParseFromString (fuel : nat) (s : string) : run Root.t :=
  htmlparsing fuel (NewReader s).

End Parser.

(* ===================================================================== *)
(** * The client                                                           *)
(* ===================================================================== *)

Module http.
(** [http.Client]; of its fields the package sets [Timeout] only, a
    [time.Duration] in nanoseconds. *)
Record Client : Set := mkClient { Timeout : Z }.
End http.

Module Client.
(** [type Client struct { *http.Client; Header; Cookies;
    RequestTimeout }]. *)
Record t : Set := mk
  { Client : option http.Client;
    Header : option gomap.t;
    Cookies : option gomap.t;
    RequestTimeout : Z }.
End Client.

Module Parameters.
Record t : Set := mk
  { Header : option gomap.t;
    Cookies : option gomap.t;
    RequestTimeout : Z;
    Timeout : Z;
    HttpClient : option http.Client }.
End Parameters.

Definition Second : Z := 1000000000.

Definition DefaultParameters : Parameters.t :=
  Parameters.mk
    (Some [("User-Agent", "Owl Mozilla/5.0 Firefox/96.0");
           ("Accept",
            "text/html,application/xhtml+xml,application/xml;q=0.9,image/avif,image/webp,*/*;q=0.8");
           ("Cache-Control", "max-age=0")])
    None (10 * Second) (10 * Second) None.

(** The promoted field [client.Timeout] lives in the embedded
    [*http.Client]: reading or writing it dereferences that
    pointer. *)
Definition Client_Timeout (client : Client.t) : result Z :=
  match Client.Client client with
  | Some hc => Ok (http.Timeout hc)
  | None => Panic NilDereference
  end.

Definition Client_setTimeout (client : Client.t) (d : Z) : result Client.t :=
  match Client.Client client with
  | Some hc =>
      Ok (Client.mk (Some (http.mkClient d)) (Client.Header client)
            (Client.Cookies client) (Client.RequestTimeout client))
  | None => Panic NilDereference
  end.

Definition NewClient (para : option Parameters.t) : result Client.t :=
  let client := Client.mk None None None 0 in
  client <-
    (match para with
     | Some _ =>
         let client :=
           Client.mk (Client.Client client) (Parameters.Header DefaultParameters)
             (Parameters.Cookies DefaultParameters)
             (Parameters.RequestTimeout DefaultParameters) in
         Client_setTimeout client (Parameters.Timeout DefaultParameters)
     | None => Panic NilDereference
     end) ;;
  p <- match para with
       | Some p => Ok p
       | None => Panic NilDereference
       end ;;
  match Parameters.HttpClient p with
  | Some _ =>
      d <- Client_Timeout client ;;
      Ok (Client.mk (Some (http.mkClient d)) (Client.Header client)
            (Client.Cookies client) (Client.RequestTimeout client))
  | None => Ok client
  end.

Section Network.

(** The values of [io.Reader], the nil one among them, and the
    external parser. *)
Variable Reader : Type.
Variable nilReader : Reader.
Variable Parse : Reader -> html.Node + string.

(** [g.Match] for the compiled pattern of [Visit]. *)
Variable Match : string -> bool.

(** What [buildRequest] does once it has read [c.RequestTimeout]:
    the request with its headers and cookies, the exchange and the
    decoding of the answer, all of them calls into [net/http] and
    [charset]; the reader and the error it returns. *)
Variable exchange : Client.t -> string -> string -> Reader
                    -> result (Reader * option string).

Definition buildRequest (c : option Client.t) (url method : string) (body : Reader)
  : result (Reader * option string) :=
  match c with
  | None => Panic NilDereference
  | Some client => exchange client url method body
  end.

Definition Get (c : option Client.t) (url : string) : result (Reader * option string) :=
  buildRequest c url "GET" nilReader.

(** [Visit]: the document and the error it returns. *)
Definition Visit (fuel : nat) (r : Root.t) (str : string) (client : option Client.t)
  : run (option Root.t * option string) :=
  let c : option Client.t := None in
  if negb (Match str)
  then Done (Ok (None, Some ("string " ++ str ++ " is not a link")%string))
  else
    match (match client with
           | None => c' <- NewClient None ;; Ok (Some c')
           | Some _ => Ok c
           end) with
    | Panic e => Done (Panic e)
    | Ok c =>
        match Get c str with
        | Panic e => Done (Panic e)
        | Ok (reader, err) =>
            match HTMLParse Reader Parse fuel reader with
            | Done (Ok root) => Done (Ok (Some root, err))
            | Done (Panic e) => Done (Panic e)
            | OutOfFuel => OutOfFuel
            end
        end
    end.

End Network.

(* ===================================================================== *)
(** * Notions used to state the properties                                 *)
(* ===================================================================== *)

(** Induction on a tree, with the property available for all children. *)
Fixpoint Node_ind (P : html.Node -> Prop)
  (step : forall ty d attrs cs, Forall P cs -> P (html.mkNode ty d attrs cs))
  (t : html.Node) {struct t} : P t :=
  match t with
  | html.mkNode ty d attrs cs =>
      step ty d attrs cs
        ((fix all (l : list html.Node) : Forall P l :=
            match l with
            | [] => @Forall_nil _ P
            | c :: rest => @Forall_cons _ P c rest (Node_ind P step c) (all rest)
            end) cs)
  end.

(** The child loops of the two searches, as functions of their own. *)
Fixpoint findOnce_children (cs : list html.Node) (n : Addr) (i : nat)
  (args : list string) (strict : bool) : Exec (option Addr) :=
  match cs with
  | [] => eret None
  | c :: rest =>
      pq <~ findOnce_tree c (n ++ [i]) args true strict ;;
      match pq with
      | Some p => eret (Some p)
      | None => findOnce_children rest n (S i) args strict
      end
  end.

Fixpoint findAllofem_children (cs : list html.Node) (n : Addr) (i : nat)
  (args : list string) (strict : bool) (acc : list Addr) : Exec (list Addr) :=
  match cs with
  | [] => eret acc
  | c :: rest =>
      acc1 <~ findAllofem_f c (n ++ [i]) args true strict acc ;;
      findAllofem_children rest n (S i) args strict acc1
  end.

(** Document order: the descendants of the node [t] at address [n],
    each with its address, a node before its own descendants and a
    whole subtree before the next sibling. *)
Fixpoint descendants (t : html.Node) (n : Addr) {struct t} : list (Addr * html.Node) :=
  (fix children (cs : list html.Node) (i : nat) {struct cs} : list (Addr * html.Node) :=
     match cs with
     | [] => []
     | c :: rest => (n ++ [i], c) :: descendants c (n ++ [i]) ++ children rest (S i)
     end) (html.Children t) 0.

Fixpoint descendants_children (cs : list html.Node) (n : Addr) (i : nat)
  : list (Addr * html.Node) :=
  match cs with
  | [] => []
  | c :: rest => (n ++ [i], c) :: descendants c (n ++ [i]) ++ descendants_children rest n (S i)
  end.

(** Document order on addresses: an address comes before its
    extensions, and before every address that branches off to the
    right of it. *)
Fixpoint doc_lt (a b : Addr) : Prop :=
  match a, b with
  | [], [] => False
  | [], _ :: _ => True
  | _ :: _, [] => False
  | i :: a', j :: b' => i < j \/ (i = j /\ doc_lt a' b')
  end.

Definition before (x y : Addr * html.Node) : Prop := doc_lt (fst x) (fst y).

(** [p] lies strictly below [n]. *)
Definition below (n p : Addr) : Prop := exists q, q <> [] /\ p = n ++ q.

(** With [uni] set the node itself is in reach, without it only what
    lies below. *)
Definition within (uni : bool) (n p : Addr) : Prop :=
  if uni then p = n \/ below n p else below n p.

Definition findOnce_reach (args : list string) (strict : bool) (t : html.Node) : Prop :=
  forall n uni,
    Forall (within uni n) (visited (findOnce_tree t n args uni strict))
    /\ forall p, outcome (findOnce_tree t n args uni strict) = Ok (Some p) ->
                 within uni n p.

Definition findAllofem_reach (args : list string) (strict : bool) (t : html.Node) : Prop :=
  forall n uni acc,
    Forall (within uni n) (visited (findAllofem_f t n args uni strict acc))
    /\ forall l, outcome (findAllofem_f t n args uni strict acc) = Ok l ->
                 exists new, l = acc ++ new /\ Forall (within uni n) new.

(** No white-space rune begins inside [f] when [f] is followed by
    [rest]. *)
Definition spaceless (f rest : string) : Prop :=
  forall f1 f2, f = (f1 ++ f2)%string -> f2 <> "" -> strings.space_width (f2 ++ rest) = 0.

(** The division of a string into white-space runes and maximal runs
    free of white space, with the list of those runs: its white-space
    separated tokens. *)
Inductive Segments : string -> list string -> Prop :=
| Segments_end : Segments "" []
| Segments_space (w s : string) (fs : list string) :
    w <> "" -> strings.space_width (w ++ s) = String.length w ->
    Segments s fs -> Segments (w ++ s) fs
| Segments_field (f s : string) (fs : list string) :
    f <> "" -> spaceless f s -> (s = "" \/ strings.space_width s <> 0) ->
    Segments s fs -> Segments (f ++ s) (f :: fs).

(** A query as the specification has it: a tag-name constraint (the
    empty string is the wildcard) and at most one attribute
    constraint. *)
Record Query : Set := mkQuery
  { tag : string;
    constraint : option (string * string) }.

Definition args_of (q : Query) : list string :=
  match constraint q with
  | None => [tag q]
  | Some (name, value) => [tag q; name; value]
  end.

(** The number of attribute pairs of [t] that satisfy the constraint. *)
Definition qualifying (strict : bool) (name value : string) (t : html.Node) : nat :=
  length (filter (fun attr => attrTest strict attr name value) (html.Attr t)).

Definition candidate (q : Query) (t : html.Node) : bool :=
  html.NodeType_eqb (html.Type' t) html.ElementNode && matchElementName t (tag q).

(** [t] satisfies the query. *)
Definition matches (q : Query) (strict : bool) (t : html.Node) : bool :=
  candidate q t
  && match constraint q with
     | None => true
     | Some (name, value) => existsb (fun attr => attrTest strict attr name value) (html.Attr t)
     end.

(** How many times the multi-result search records [t]. *)
Definition recorded (q : Query) (strict : bool) (t : html.Node) : nat :=
  if candidate q t then
    match constraint q with
    | None => 1
    | Some (name, value) => qualifying strict name value t
    end
  else 0.

(** The nodes tested up to and including the first one that satisfies
    [P], and that node. *)
Fixpoint scan (P : html.Node -> bool) (l : list (Addr * html.Node))
  : list Addr * option Addr :=
  match l with
  | [] => ([], None)
  | (a, t) :: rest =>
      if P t then ([a], Some a)
      else (a :: fst (scan P rest), snd (scan P rest))
  end.

(** The nodes a call looks at, in order. *)
Definition range (uni : bool) (t : html.Node) (n : Addr) : list (Addr * html.Node) :=
  (if uni then [(n, t)] else []) ++ descendants t n.

Definition findOnce_is_scan (q : Query) (strict : bool) (t : html.Node) : Prop :=
  forall n uni,
    findOnce_tree t n (args_of q) uni strict
    = (fst (scan (matches q strict) (range uni t n)),
       Ok (snd (scan (matches q strict) (range uni t n)))).

(** What the multi-result search appends while it walks [l]. *)
Definition record (q : Query) (strict : bool) (l : list (Addr * html.Node)) : list Addr :=
  flat_map (fun x => repeat (fst x) (recorded q strict (snd x))) l.

Definition findAllofem_is_record (q : Query) (strict : bool) (t : html.Node) : Prop :=
  forall n uni acc,
    findAllofem_f t n (args_of q) uni strict acc
    = (map fst (range uni t n), Ok (acc ++ record q strict (range uni t n))).

(** The shapes of a single and of a collection result. *)
Definition holdsNode (doc : html.Node) (r : Root.t) : Prop :=
  exists a t, Root.Node r = Some a /\ deref doc a = Some t
              /\ Root.NodeValue r = html.Data t /\ Root.Error r = None.

Definition holdsError (r : Root.t) : Prop :=
  Root.Node r = None /\ Root.Error r <> None.

Definition wellFormed (doc : html.Node) (r : Root.t) : Prop :=
  holdsNode doc r \/ holdsError r.

(** A rejection of the query as malformed: an error that is not one of
    the two kinds that report the absence of a match. *)
Definition rejectedAsMalformed (e : option Error) : Prop :=
  exists er, e = Some er
             /\ Type' er <> ErrElementNotFound /\ Type' er <> ErrElementsNotFound.

(** ** Notions for the further properties *)

(** The contents of the text nodes of [l], joined in the order of
    [l]. *)
Fixpoint texts (l : list (Addr * html.Node)) : string :=
  match l with
  | [] => ""
  | x :: rest =>
      if html.NodeType_eqb (html.Type' (snd x)) html.TextNode
      then (html.Data (snd x) ++ texts rest)%string
      else texts rest
  end.

(** Only elements have children, as in the trees of the parser. *)
Definition onlyElementsNest (l : list (Addr * html.Node)) : Prop :=
  Forall (fun x => html.Type' (snd x) <> html.ElementNode -> html.Children (snd x) = []) l.

(** The value of the first attribute named [k]. *)
Fixpoint firstValue (attrs : list html.Attribute) (k : string) : option string :=
  match attrs with
  | [] => None
  | attr :: rest => if (html.Key attr =? k)%string then Some (html.Val attr)
                    else firstValue rest k
  end.

(** A node on which a search with the two arguments [tg, name] reads
    [args[2]]: a candidate that carries an attribute. *)
Definition readsThirdArgument (tg : string) (t : html.Node) : bool :=
  html.NodeType_eqb (html.Type' t) html.ElementNode && matchElementName t tg
  && negb (length (html.Attr t) =? 0)%nat.

(** A string free of white space and not empty: a single token. *)
Definition singleToken (value : string) : Prop :=
  value <> "" /\ spaceless value "".

(** Document order, equal addresses allowed. *)
Definition doc_le (a b : Addr) : Prop := a = b \/ doc_lt a b.

Definition isElement (t : html.Node) : bool :=
  html.NodeType_eqb (html.Type' t) html.ElementNode.

(** The kinds of nodes the loop of [htmlparsing] steps over. *)
Definition isPrologue (t : html.Node) : bool :=
  match html.Type' t with
  | html.DoctypeNode | html.CommentNode => true
  | _ => false
  end.

(** The kinds of nodes on which the loop of [htmlparsing] makes no
    step. *)
Definition staysPut (t : html.Node) : bool :=
  match html.Type' t with
  | html.TextNode | html.ErrorNode | html.RawNode => true
  | _ => false
  end.

(** Some node of [l] satisfies [bad]. *)
Definition anyBad (bad : html.Node -> bool) (l : list (Addr * html.Node)) : bool :=
  existsb (fun x => bad (snd x)) l.

(* ===================================================================== *)
(** * Sample documents                                                     *)
(* ===================================================================== *)

Module Sample.

Definition attr (k v : string) : html.Attribute := html.mkAttribute "" k v.

Definition elem (name : string) (attrs : list html.Attribute) (cs : list html.Node)
  : html.Node := html.mkNode html.ElementNode name attrs cs.

Definition text (s : string) : html.Node := html.mkNode html.TextNode s [] [].

(** [<li>To a <a href="hello.jsp">JSP page</a> right?</li>] *)
Definition li_text_first : html.Node :=
  elem "li" [] [text "To a "; elem "a" [attr "href" "hello.jsp"] [text "JSP page"];
                text " right?"].

(** [<li><a href="hello">servlet</a> right?</li>] *)
Definition li_elem_first : html.Node :=
  elem "li" [] [elem "a" [attr "href" "hello"] [text "servlet"]; text " right?"].

(** [<li>  <b>x</b>tail</li>], the first child being blank. *)
Definition li_blank_first : html.Node :=
  elem "li" [] [text "  "; elem "b" [] [text "x"]; text "tail"].

(** A [div] that carries the attribute [class] twice. *)
Definition div_twice : html.Node :=
  elem "div" [attr "class" "a b"; attr "class" "b c"] [].

Definition body : html.Node :=
  elem "body" [] [elem "ul" [] [li_text_first; li_elem_first; li_blank_first]; div_twice].

Definition doc : html.Node :=
  html.mkNode html.DocumentNode "" [] [elem "html" [] [elem "head" [] []; body]].

(** The result of parsing: the [html] element. *)
Definition root : Root.t := Root.mk (Some [0]) "html" None.

Definition at_ (a : Addr) (v : string) : Root.t := Root.mk (Some a) v None.

End Sample.

(* ===================================================================== *)
(** * Basic facts: the monads, addresses, the loops                        *)
(* ===================================================================== *)

Lemma visited_ebind {A B : Type} (c : Exec A) (k : A -> Exec B) :
  visited (ebind c k)
  = match outcome c with
    | Ok a => visited c ++ visited (k a)
    | Panic _ => visited c
    end.
Proof. destruct c as [l [a | e]]; reflexivity. Qed.

Lemma outcome_ebind {A B : Type} (c : Exec A) (k : A -> Exec B) :
  outcome (ebind c k) = rbind (outcome c) (fun a => outcome (k a)).
Proof. destruct c as [l [a | e]]; reflexivity. Qed.

Lemma Exec_eta {A : Type} (c : Exec A) : c = (visited c, outcome c).
Proof. destruct c; reflexivity. Qed.

Lemma findOnce_tree_eq t n args uni strict :
  findOnce_tree t n args uni strict
  = ebind (if uni then tested n (findOnce_self t args strict) else eret false)
      (fun hit => if hit then eret (Some n)
                  else findOnce_children (html.Children t) n 0 args strict).
Proof.
  destruct t as [ty d attrs cs]; cbn [findOnce_tree html.Children].
  unfold ebind.
  destruct (if uni then _ else _) as [l [[|] | e]]; try reflexivity.
  match goal with
  | |- context [visited (?F cs 0)] =>
      assert (E : forall l i, F l i = findOnce_children l n i args strict)
  end.
  { induction l0 as [| c rest IH]; intro i; [reflexivity |].
    cbn [findOnce_children]. unfold ebind.
    destruct (findOnce_tree c (n ++ [i]) args true strict) as [lc [[p |] | e]];
      try reflexivity.
    rewrite IH. reflexivity. }
  rewrite E. reflexivity.
Qed.

Lemma findAllofem_f_eq t n args uni strict acc :
  findAllofem_f t n args uni strict acc
  = ebind (if uni then tested n (findAllofem_self t n args strict acc) else eret acc)
      (fun acc1 => findAllofem_children (html.Children t) n 0 args strict acc1).
Proof.
  destruct t as [ty d attrs cs]; cbn [findAllofem_f html.Children].
  unfold ebind.
  destruct (if uni then _ else _) as [l [acc1 | e]]; try reflexivity.
  match goal with
  | |- context [visited (?F cs 0 acc1)] =>
      assert (E : forall l i a, F l i a = findAllofem_children l n i args strict a)
  end.
  { induction l0 as [| c rest IH]; intros i a; [reflexivity |].
    cbn [findAllofem_children]. unfold ebind.
    destruct (findAllofem_f c (n ++ [i]) args true strict a) as [lc [a1 | e]];
      try reflexivity.
    rewrite IH. reflexivity. }
  rewrite E. reflexivity.
Qed.

Lemma descendants_eq t n :
  descendants t n = descendants_children (html.Children t) n 0.
Proof.
  destruct t as [ty d attrs cs]; cbn [descendants html.Children].
  generalize 0. induction cs as [| c rest IH]; intro i; [reflexivity |].
  cbn [descendants_children]. rewrite IH. reflexivity.
Qed.

Lemma deref_app doc a b :
  deref doc (a ++ b)
  = match deref doc a with
    | Some t => deref t b
    | None => None
    end.
Proof.
  revert doc; induction a as [| i a IH]; intro doc; [reflexivity |].
  cbn [app deref]. destruct (nth_error (html.Children doc) i); auto.
Qed.

Lemma deref_child doc a i :
  deref doc (a ++ [i])
  = match deref doc a with
    | Some t => nth_error (html.Children t) i
    | None => None
    end.
Proof.
  rewrite deref_app. destruct (deref doc a) as [t |]; [| reflexivity].
  cbn [deref]. destruct (nth_error (html.Children t) i); reflexivity.
Qed.

Lemma unsnoc_snoc q i : unsnoc (q ++ [i]) = Some (q, i).
Proof.
  induction q as [| j q IH]; [reflexivity |].
  cbn [app unsnoc]. rewrite IH. destruct (q ++ [i]) eqn:E; [| reflexivity].
  destruct q; discriminate.
Qed.

Lemma unsnoc_Some a q i : unsnoc a = Some (q, i) -> a = q ++ [i].
Proof.
  revert q; induction a as [| j a IH]; intro q; [discriminate |].
  cbn [unsnoc]. destruct a as [| k a'].
  - intros [= <- <-]. reflexivity.
  - destruct (unsnoc (k :: a')) as [[q' j'] |]; [| discriminate].
    intros [= <- <-]. cbn [app]. f_equal. apply IH. reflexivity.
Qed.

Lemma unsnoc_None a : unsnoc a = None -> a = [].
Proof.
  destruct a as [| j a]; [reflexivity |].
  destruct (@exists_last _ (j :: a)) as (q & i & E); [discriminate |].
  rewrite E, unsnoc_snoc. discriminate.
Qed.

(** The chain [FirstChild], [NextSibling], ... of a node runs through
    the positions 0, 1, ... of its list of children. *)
Lemma FirstChild_spec doc a t :
  deref doc a = Some t ->
  FirstChild doc a = match html.Children t with
                     | [] => None
                     | _ :: _ => Some (a ++ [0])
                     end.
Proof.
  intro Ha. unfold FirstChild, live. rewrite deref_child, Ha.
  destruct (html.Children t); reflexivity.
Qed.

Lemma NextSibling_spec doc q parent i :
  deref doc q = Some parent ->
  NextSibling doc (q ++ [i]) = match nth_error (html.Children parent) (S i) with
                               | Some _ => Some (q ++ [S i])
                               | None => None
                               end.
Proof.
  intro Hq. unfold NextSibling, live. rewrite unsnoc_snoc, deref_child, Hq. reflexivity.
Qed.

Lemma PrevSibling_spec doc q parent i :
  deref doc q = Some parent -> i < length (html.Children parent) ->
  PrevSibling doc (q ++ [i]) = match i with
                               | 0 => None
                               | S j => Some (q ++ [j])
                               end.
Proof.
  intros Hq Hi. unfold PrevSibling, live. rewrite unsnoc_snoc.
  destruct i as [| j]; [reflexivity |]. rewrite deref_child, Hq.
  destruct (nth_error (html.Children parent) j) eqn:E; [reflexivity |].
  apply nth_error_None in E. lia.
Qed.

Lemma top_has_no_sibling doc : NextSibling doc [] = None /\ PrevSibling doc [] = None.
Proof. split; reflexivity. Qed.

Lemma below_app n q : q <> [] -> below n (n ++ q).
Proof. intro H; exists q; auto. Qed.

Lemma below_child_trans n i p :
  (p = n ++ [i] \/ below (n ++ [i]) p) -> below n p.
Proof.
  intros [-> | (q & _ & ->)].
  - apply below_app; discriminate.
  - rewrite <- app_assoc. apply below_app. discriminate.
Qed.

Lemma below_neq n p : below n p -> p <> n.
Proof.
  intros (q & Hq & ->) E. apply Hq.
  apply (app_inv_head n). rewrite app_nil_r. exact E.
Qed.

(* ===================================================================== *)
(** * Document order                                                       *)
(* ===================================================================== *)

Section DocumentOrder.

Lemma descendants_children_sound cs : 
  Forall (fun t => forall n p c, In (p, c) (descendants t n) ->
                   exists q, q <> [] /\ p = n ++ q /\ deref t q = Some c) cs ->
  forall n i p c, In (p, c) (descendants_children cs n i) ->
  exists j q t, p = n ++ (i + j) :: q /\ nth_error cs j = Some t /\ deref t q = Some c.
Proof.
  induction 1 as [| t rest Ht _ IH]; intros n i p c Hin; [destruct Hin |].
  cbn [descendants_children] in Hin.
  destruct Hin as [[= <- <-] | Hin]; [| apply in_app_or in Hin; destruct Hin as [Hin | Hin]].
  - exists 0, [], t. rewrite Nat.add_0_r. auto.
  - destruct (Ht _ _ _ Hin) as (q & _ & -> & Hq).
    exists 0, q, t. rewrite Nat.add_0_r, <- app_assoc. auto.
  - destruct (IH _ _ _ _ Hin) as (j & q & t' & -> & Hj & Hq).
    exists (S j), q, t'. rewrite Nat.add_succ_r. auto.
Qed.

Lemma descendants_sound t :
  forall n p c, In (p, c) (descendants t n) ->
  exists q, q <> [] /\ p = n ++ q /\ deref t q = Some c.
Proof.
  induction t as [ty d attrs cs IH] using Node_ind; intros n p c Hin.
  rewrite descendants_eq in Hin. cbn [html.Children] in Hin.
  destruct (descendants_children_sound _ IH _ _ _ _ Hin) as (j & q & t' & -> & Hj & Hq).
  exists (j :: q). split; [discriminate |]. split; [reflexivity |].
  cbn [deref html.Children]. rewrite Hj. exact Hq.
Qed.

Lemma descendants_children_complete cs :
  Forall (fun t => forall n q c, q <> [] -> deref t q = Some c ->
                   In (n ++ q, c) (descendants t n)) cs ->
  forall n i j q t c, nth_error cs j = Some t -> deref t q = Some c ->
  In (n ++ (i + j) :: q, c) (descendants_children cs n i).
Proof.
  induction 1 as [| t0 rest Ht _ IH]; intros n i j q t c Hj Hq.
  - destruct j; discriminate.
  - cbn [descendants_children]. destruct j as [| j].
    + injection Hj as ->. rewrite Nat.add_0_r.
      destruct q as [| k q].
      * injection Hq as ->. left; reflexivity.
      * right. apply in_or_app. left.
        replace (n ++ i :: k :: q) with ((n ++ [i]) ++ k :: q)
          by (rewrite <- app_assoc; reflexivity).
        apply Ht; [discriminate | assumption].
    + right. apply in_or_app. right.
      rewrite Nat.add_succ_r. apply (IH n (S i) j q t c); assumption.
Qed.

Lemma descendants_complete t :
  forall n q c, q <> [] -> deref t q = Some c -> In (n ++ q, c) (descendants t n).
Proof.
  induction t as [ty d attrs cs IH] using Node_ind; intros n q c Hq Hd.
  rewrite descendants_eq. cbn [html.Children].
  destruct q as [| j q]; [contradiction |].
  cbn [deref html.Children] in Hd.
  destruct (nth_error cs j) as [t |] eqn:Hj; [| discriminate].
  apply (descendants_children_complete _ IH n 0 j q _ _ Hj Hd).
Qed.

Lemma descendants_live doc a t p c :
  deref doc a = Some t -> In (p, c) (descendants t a) -> deref doc p = Some c.
Proof.
  intros Ha Hin. destruct (descendants_sound _ _ _ _ Hin) as (q & _ & -> & Hq).
  rewrite deref_app, Ha. exact Hq.
Qed.

Lemma descendants_below t n p c : In (p, c) (descendants t n) -> below n p.
Proof.
  intro Hin. destruct (descendants_sound _ _ _ _ Hin) as (q & Hq & -> & _).
  apply below_app; assumption.
Qed.

Lemma doc_lt_app n a b : doc_lt a b -> doc_lt (n ++ a) (n ++ b).
Proof.
  intro H. induction n as [| k n IH]; [exact H |].
  cbn [app doc_lt]. right; auto.
Qed.

Lemma doc_lt_extend a q : q <> [] -> doc_lt a (a ++ q).
Proof.
  intro Hq. rewrite <- (app_nil_r a) at 1. apply doc_lt_app.
  destruct q; [contradiction | exact I].
Qed.

Lemma doc_lt_branch n i j a b : i < j -> doc_lt (n ++ i :: a) (n ++ j :: b).
Proof. intro H. apply doc_lt_app. cbn [doc_lt]. left; exact H. Qed.

Lemma doc_lt_irrefl a : ~ doc_lt a a.
Proof.
  induction a as [| i a IH]; cbn [doc_lt]; [tauto |].
  intros [H | [_ H]]; [lia | auto].
Qed.

Lemma doc_lt_trans a b c : doc_lt a b -> doc_lt b c -> doc_lt a c.
Proof.
  revert b c; induction a as [| i a IH]; intros [| j b] [| k c]; cbn [doc_lt];
    try tauto.
  intros [H1 | [-> H1]] [H2 | [-> H2]]; try (left; lia).
  right; split; [reflexivity | eauto].
Qed.

Lemma StronglySorted_app {A : Type} (R : A -> A -> Prop) l1 l2 :
  StronglySorted R l1 -> StronglySorted R l2 ->
  (forall x y, In x l1 -> In y l2 -> R x y) ->
  StronglySorted R (l1 ++ l2).
Proof.
  induction 1 as [| x l1 Hs IH Hx]; intros H2 Hc; [exact H2 |].
  cbn [app]. constructor.
  - apply IH; [assumption | intros; apply Hc; [right |]; assumption].
  - apply Forall_app. split; [exact Hx |].
    apply Forall_forall. intros y Hy. apply Hc; [left; reflexivity | exact Hy].
Qed.

Lemma descendants_children_sorted cs :
  Forall (fun t => forall n, StronglySorted before (descendants t n)) cs ->
  forall n i, StronglySorted before (descendants_children cs n i).
Proof.
  intro Hall.
  assert (Hsound : Forall (fun t => forall n p c, In (p, c) (descendants t n) ->
                     exists q, q <> [] /\ p = n ++ q /\ deref t q = Some c) cs).
  { apply Forall_forall. intros t _. apply descendants_sound. }
  induction Hall as [| t rest Ht Hrest IH]; intros n i; [constructor |].
  cbn [descendants_children].
  inversion Hsound as [| ? ? _ Hsound' ]; subst.
  specialize (IH Hsound').
  constructor.
  - apply StronglySorted_app; [apply Ht | apply IH |].
    intros [p c] [p' c'] Hp Hp'. unfold before; cbn [fst].
    destruct (descendants_sound _ _ _ _ Hp) as (q & _ & -> & _).
    destruct (descendants_children_sound _ Hsound' _ _ _ _ Hp')
      as (j & q' & t' & -> & _ & _).
    rewrite <- app_assoc. cbn [app].
    destruct q as [| k q]; [apply doc_lt_branch; lia |].
    apply doc_lt_branch. lia.
  - apply Forall_app. split; apply Forall_forall; intros [p c] Hp;
      unfold before; cbn [fst].
    + destruct (descendants_sound _ _ _ _ Hp) as (q & Hq & -> & _).
      apply doc_lt_extend; assumption.
    + destruct (descendants_children_sound _ Hsound' _ _ _ _ Hp)
        as (j & q' & t' & -> & _ & _).
      apply doc_lt_branch. lia.
Qed.

(** The list [descendants] is in document order. *)
Lemma descendants_sorted t : forall n, StronglySorted before (descendants t n).
Proof.
  induction t as [ty d attrs cs IH] using Node_ind; intro n.
  rewrite descendants_eq. apply descendants_children_sorted. exact IH.
Qed.

End DocumentOrder.

(* ===================================================================== *)
(** * Where the searches look                                              *)
(* ===================================================================== *)

Section Reach.

Variables (args : list string) (strict : bool).

Lemma within_child uni n i p : within true (n ++ [i]) p -> within uni n p.
Proof.
  intro H. assert (B : below n p) by (apply (below_child_trans n i); exact H).
  destruct uni; [right |]; exact B.
Qed.

Lemma Forall_within_child uni n i l :
  Forall (within true (n ++ [i])) l -> Forall (within uni n) l.
Proof. apply Forall_impl. intro p. apply within_child. Qed.

Lemma findOnce_children_reach cs :
  Forall (findOnce_reach args strict) cs ->
  forall n i,
    Forall (below n) (visited (findOnce_children cs n i args strict))
    /\ forall p, outcome (findOnce_children cs n i args strict) = Ok (Some p) ->
                 below n p.
Proof.
  induction 1 as [| c rest Hc _ IH]; intros n i.
  - split; [constructor | discriminate].
  - cbn [findOnce_children]. rewrite visited_ebind, outcome_ebind.
    destruct (Hc (n ++ [i]) true) as [Hv Ho].
    destruct (IH n (S i)) as [Hv' Ho'].
    apply (Forall_within_child false) in Hv.
    destruct (outcome (findOnce_tree c (n ++ [i]) args true strict)) as [[p |] | e].
    + cbn [rbind eret visited outcome fst snd]. rewrite app_nil_r.
      split; [exact Hv |]. intros p' [= <-].
      apply (within_child false n i). apply Ho. reflexivity.
    + cbn [rbind]. split; [apply Forall_app; split; assumption | exact Ho'].
    + cbn [rbind]. split; [exact Hv | discriminate].
Qed.

Lemma findOnce_tree_reach t : findOnce_reach args strict t.
Proof.
  induction t as [ty d attrs cs IH] using Node_ind; intros n uni.
  rewrite findOnce_tree_eq. rewrite visited_ebind, outcome_ebind.
  cbn [html.Children].
  destruct (findOnce_children_reach cs IH n 0) as [Hv Ho].
  assert (Hv' : Forall (within uni n) (visited (findOnce_children cs n 0 args strict))).
  { revert Hv. apply Forall_impl. intros p B. destruct uni; [right |]; exact B. }
  assert (Ho' : forall p, outcome (findOnce_children cs n 0 args strict) = Ok (Some p) ->
                          within uni n p).
  { intros p E. specialize (Ho p E). destruct uni; [right |]; exact Ho. }
  destruct uni; cbn [tested eret visited outcome fst snd].
  - destruct (findOnce_self _ args strict) as [[|] | e]; cbn [rbind eret visited outcome fst snd].
    + split; [repeat constructor; left; reflexivity |].
      intros p [= <-]. left; reflexivity.
    + split; [constructor; [left; reflexivity | exact Hv'] | exact Ho'].
    + split; [repeat constructor; left; reflexivity | discriminate].
  - cbn [rbind app]. split; assumption.
Qed.

Lemma findAllofem_attrs_new attrs n acc l :
  findAllofem_attrs attrs n args strict acc = Ok l ->
  exists k, l = acc ++ repeat n k.
Proof.
  revert acc; induction attrs as [| attr rest IH]; intros acc; cbn [findAllofem_attrs].
  - intros [= <-]. exists 0. cbn [repeat]. rewrite app_nil_r. reflexivity.
  - destruct (index args 1) as [name | e]; [| discriminate].
    destruct (index args 2) as [val | e]; [| discriminate]. cbn [rbind].
    destruct (attrTest strict attr name val); intro E.
    + destruct (IH _ E) as (k & ->). exists (S k).
      rewrite <- app_assoc. reflexivity.
    + exact (IH _ E).
Qed.

Lemma findAllofem_self_new t n acc l :
  findAllofem_self t n args strict acc = Ok l ->
  exists k, l = acc ++ repeat n k.
Proof.
  unfold findAllofem_self.
  assert (Z0 : exists k, acc = acc ++ repeat n k)
    by (exists 0; cbn [repeat]; rewrite app_nil_r; reflexivity).
  destruct (html.NodeType_eqb _ _); [| intros [= <-]; exact Z0].
  destruct (index args 0) as [name | e]; [| discriminate]. cbn [rbind].
  destruct (matchElementName t name); [| intros [= <-]; exact Z0].
  destruct (_ && _)%bool; [apply findAllofem_attrs_new |].
  destruct (_ =? _)%nat; intros [= <-]; [exists 1; reflexivity | exact Z0].
Qed.

Lemma findAllofem_children_reach cs :
  Forall (findAllofem_reach args strict) cs ->
  forall n i acc,
    Forall (below n) (visited (findAllofem_children cs n i args strict acc))
    /\ forall l, outcome (findAllofem_children cs n i args strict acc) = Ok l ->
                 exists new, l = acc ++ new /\ Forall (below n) new.
Proof.
  induction 1 as [| c rest Hc _ IH]; intros n i acc.
  - split; [constructor |]. intros l [= <-]. exists []. rewrite app_nil_r. auto.
  - cbn [findAllofem_children]. rewrite visited_ebind, outcome_ebind.
    destruct (Hc (n ++ [i]) true acc) as [Hv Ho].
    apply (Forall_within_child false) in Hv.
    destruct (outcome (findAllofem_f c (n ++ [i]) args true strict acc)) as [acc1 | e].
    + cbn [rbind]. destruct (Ho acc1 eq_refl) as (new1 & -> & Hn1).
      apply (Forall_within_child false) in Hn1.
      destruct (IH n (S i) (acc ++ new1)) as [Hv' Ho'].
      split; [apply Forall_app; split; assumption |].
      intros l E. destruct (Ho' l E) as (new2 & -> & Hn2).
      exists (new1 ++ new2). rewrite app_assoc. split; [reflexivity |].
      apply Forall_app; split; assumption.
    + cbn [rbind]. split; [exact Hv | discriminate].
Qed.

Lemma findAllofem_f_reach t : findAllofem_reach args strict t.
Proof.
  induction t as [ty d attrs cs IH] using Node_ind; intros n uni acc.
  rewrite findAllofem_f_eq. rewrite visited_ebind, outcome_ebind.
  cbn [html.Children].
  assert (W : forall p, below n p -> within uni n p)
    by (intros p B; destruct uni; [right |]; exact B).
  destruct uni; cbn [tested eret visited outcome fst snd].
  - destruct (findAllofem_self _ n args strict acc) as [acc1 | e] eqn:E; cbn [rbind].
    + destruct (findAllofem_self_new _ _ _ _ E) as (k & ->).
      destruct (findAllofem_children_reach cs IH n 0 (acc ++ repeat n k)) as [Hv Ho].
      split.
      * constructor; [left; reflexivity |]. revert Hv. apply Forall_impl. exact W.
      * intros l El. destruct (Ho l El) as (new & -> & Hn).
        exists (repeat n k ++ new). rewrite app_assoc. split; [reflexivity |].
        apply Forall_app; split.
        -- apply Forall_forall. intros p Hp. apply repeat_spec in Hp. left; exact Hp.
        -- revert Hn. apply Forall_impl. exact W.
    + split; [repeat constructor; left; reflexivity | discriminate].
  - cbn [rbind app].
    destruct (findAllofem_children_reach cs IH n 0 acc) as [Hv Ho].
    split; [exact Hv | exact Ho].
Qed.

(** What the test of the starting node would see plays no part. *)
Lemma findOnce_tree_start t ty d attrs n :
  findOnce_tree (html.mkNode ty d attrs (html.Children t)) n args false strict
  = findOnce_tree t n args false strict.
Proof. rewrite !findOnce_tree_eq. reflexivity. Qed.

Lemma findAllofem_f_start t ty d attrs n acc :
  findAllofem_f (html.mkNode ty d attrs (html.Children t)) n args false strict acc
  = findAllofem_f t n args false strict acc.
Proof. rewrite !findAllofem_f_eq. reflexivity. Qed.

End Reach.

(* ===================================================================== *)
(** * The searches on a well-formed query                                  *)
(* ===================================================================== *)

Section WellFormedQuery.

Variables (q : Query) (strict : bool).

Lemma findOnce_attrs_query attrs tg name value :
  findOnce_attrs attrs [tg; name; value] strict
  = Ok (existsb (fun attr => attrTest strict attr name value) attrs).
Proof.
  induction attrs as [| attr rest IH]; [reflexivity |].
  cbn [findOnce_attrs index nth_error rbind existsb].
  destruct (attrTest strict attr name value); [reflexivity | exact IH].
Qed.

Lemma findOnce_self_query t :
  findOnce_self t (args_of q) strict = Ok (matches q strict t).
Proof.
  unfold findOnce_self, matches, candidate, args_of.
  destruct (html.NodeType_eqb _ _); [| reflexivity].
  destruct (constraint q) as [[name value] |]; cbn [index nth_error rbind andb];
    destruct (matchElementName t (tag q)); try reflexivity.
  cbn [length Nat.ltb Nat.leb andb]. apply findOnce_attrs_query.
Qed.

Lemma findAllofem_attrs_query attrs n tg name value acc :
  findAllofem_attrs attrs n [tg; name; value] strict acc
  = Ok (acc ++ repeat n
          (length (filter (fun attr => attrTest strict attr name value) attrs))).
Proof.
  revert acc; induction attrs as [| attr rest IH]; intro acc.
  - cbn. rewrite app_nil_r. reflexivity.
  - cbn [findAllofem_attrs index nth_error rbind filter].
    destruct (attrTest strict attr name value).
    + rewrite IH. cbn [length repeat]. rewrite <- app_assoc. reflexivity.
    + apply IH.
Qed.

Lemma findAllofem_self_query t n acc :
  findAllofem_self t n (args_of q) strict acc
  = Ok (acc ++ repeat n (recorded q strict t)).
Proof.
  unfold findAllofem_self, recorded, candidate, qualifying, args_of.
  destruct (html.NodeType_eqb _ _);
    [| cbn [andb repeat]; rewrite app_nil_r; reflexivity].
  destruct (constraint q) as [[name value] |]; cbn [index nth_error rbind andb];
    destruct (matchElementName t (tag q));
    try (cbn [repeat]; rewrite ?app_nil_r; reflexivity).
  cbn [length Nat.ltb Nat.leb andb]. apply findAllofem_attrs_query.
Qed.

Lemma recorded_matches t : matches q strict t = negb (recorded q strict t =? 0)%nat.
Proof.
  unfold matches, recorded, qualifying.
  destruct (candidate q t); [| reflexivity].
  destruct (constraint q) as [[name value] |]; [| reflexivity].
  cbn [andb]. induction (html.Attr t) as [| attr rest IH]; [reflexivity |].
  cbn [existsb filter]. destruct (attrTest strict attr name value); [reflexivity | exact IH].
Qed.

Lemma scan_app P l1 l2 :
  scan P (l1 ++ l2)
  = match snd (scan P l1) with
    | Some _ => scan P l1
    | None => (fst (scan P l1) ++ fst (scan P l2), snd (scan P l2))
    end.
Proof.
  induction l1 as [| [a t] l1 IH]; cbn [app scan].
  - destruct (scan P l2); reflexivity.
  - destruct (P t); [reflexivity |]. cbn [fst snd]. rewrite IH.
    destruct (snd (scan P l1)) eqn:E; cbn [fst snd]; rewrite ?E; reflexivity.
Qed.

Lemma scan_first P pre a m post :
  Forall (fun x => P (snd x) = false) pre -> P m = true ->
  scan P (pre ++ (a, m) :: post) = (map fst pre ++ [a], Some a).
Proof.
  intros Hpre Hm. induction Hpre as [| [b t] pre Hb _ IH]; cbn [app scan map].
  - rewrite Hm. reflexivity.
  - cbn [snd] in Hb. rewrite Hb, IH. reflexivity.
Qed.

Lemma scan_none P l :
  Forall (fun x => P (snd x) = false) l -> scan P l = (map fst l, None).
Proof.
  induction 1 as [| [b t] l Hb _ IH]; [reflexivity |].
  cbn [scan map]. cbn [snd] in Hb. rewrite Hb, IH. reflexivity.
Qed.

Lemma findOnce_children_scan cs :
  Forall (findOnce_is_scan q strict) cs ->
  forall n i,
    findOnce_children cs n i (args_of q) strict
    = (fst (scan (matches q strict) (descendants_children cs n i)),
       Ok (snd (scan (matches q strict) (descendants_children cs n i)))).
Proof.
  induction 1 as [| c rest Hc _ IH]; intros n i; [reflexivity |].
  cbn [findOnce_children descendants_children].
  replace ((n ++ [i], c) :: descendants c (n ++ [i]) ++ descendants_children rest n (S i))
    with (range true c (n ++ [i]) ++ descendants_children rest n (S i))
    by reflexivity.
  rewrite scan_app, (Hc (n ++ [i]) true).
  generalize (scan (matches q strict) (range true c (n ++ [i]))).
  intros [v [p |]]; cbn [ebind fst snd].
  - cbn [eret visited outcome fst snd]. rewrite app_nil_r. reflexivity.
  - rewrite IH. reflexivity.
Qed.

Lemma findOnce_tree_scan t : findOnce_is_scan q strict t.
Proof.
  induction t as [ty d attrs cs IH] using Node_ind; intros n uni.
  rewrite findOnce_tree_eq. unfold range. rewrite descendants_eq.
  cbn [html.Children]. rewrite (findOnce_children_scan cs IH).
  set (t := html.mkNode ty d attrs cs).
  destruct uni; cbn [app].
  - rewrite findOnce_self_query. cbn [scan tested ebind].
    destruct (matches q strict t); reflexivity.
  - cbn [eret ebind visited outcome fst snd app]. reflexivity.
Qed.

Lemma findAllofem_children_record cs :
  Forall (findAllofem_is_record q strict) cs ->
  forall n i acc,
    findAllofem_children cs n i (args_of q) strict acc
    = (map fst (descendants_children cs n i),
       Ok (acc ++ record q strict (descendants_children cs n i))).
Proof.
  induction 1 as [| c rest Hc _ IH]; intros n i acc.
  - cbn. rewrite app_nil_r. reflexivity.
  - cbn [findAllofem_children descendants_children].
    replace ((n ++ [i], c) :: descendants c (n ++ [i]) ++ descendants_children rest n (S i))
      with (range true c (n ++ [i]) ++ descendants_children rest n (S i))
      by reflexivity.
    rewrite (Hc (n ++ [i]) true acc). cbn [ebind]. rewrite IH.
    cbn [visited outcome fst snd].
    unfold record. rewrite map_app, flat_map_app, <- app_assoc. reflexivity.
Qed.

Lemma findAllofem_f_record t : findAllofem_is_record q strict t.
Proof.
  induction t as [ty d attrs cs IH] using Node_ind; intros n uni acc.
  rewrite findAllofem_f_eq. unfold range. rewrite descendants_eq.
  cbn [html.Children].
  set (t := html.mkNode ty d attrs cs).
  destruct uni; cbn [app].
  - rewrite findAllofem_self_query. cbn [tested ebind].
    rewrite (findAllofem_children_record cs IH). cbn [visited outcome fst snd].
    unfold record. cbn [map flat_map fst snd app]. rewrite <- app_assoc. reflexivity.
  - cbn [eret ebind]. rewrite (findAllofem_children_record cs IH). reflexivity.
Qed.

End WellFormedQuery.

(* ===================================================================== *)
(** * From the engine to the methods                                       *)
(* ===================================================================== *)

Lemma findOnce_live doc a t args uni strict :
  deref doc a = Some t ->
  findOnce doc (Some a) args uni strict = findOnce_tree t a args uni strict.
Proof.
  intro H. unfold findOnce, load, lift. rewrite H. cbn [ebind fst snd app].
  symmetry. apply Exec_eta.
Qed.

Lemma findAllofem_live doc a t args strict :
  deref doc a = Some t ->
  findAllofem doc (Some a) args strict = findAllofem_f t a args false strict [].
Proof.
  intro H. unfold findAllofem, load, lift. rewrite H. cbn [ebind fst snd app].
  symmetry. apply Exec_eta.
Qed.

Lemma findOnce_nil doc args uni strict :
  findOnce doc None args uni strict = ([], Panic NilDereference).
Proof. reflexivity. Qed.

Lemma findAllofem_nil doc args strict :
  findAllofem doc None args strict = ([], Panic NilDereference).
Proof. reflexivity. Qed.

Lemma findOnce_dangling doc a args uni strict :
  deref doc a = None ->
  findOnce doc (Some a) args uni strict = ([], Panic DanglingAddress).
Proof. intro H. unfold findOnce, load, lift. rewrite H. reflexivity. Qed.

Lemma findAllofem_dangling doc a args strict :
  deref doc a = None ->
  findAllofem doc (Some a) args strict = ([], Panic DanglingAddress).
Proof. intro H. unfold findAllofem, load, lift. rewrite H. reflexivity. Qed.

Lemma rootAt_live doc a t :
  deref doc a = Some t -> rootAt doc a = Ok (Root.mk (Some a) (html.Data t) None).
Proof. intro H. unfold rootAt, DataAt, load. rewrite H. reflexivity. Qed.

Lemma rootAt_inv doc a r :
  rootAt doc a = Ok r ->
  exists t, deref doc a = Some t /\ r = Root.mk (Some a) (html.Data t) None.
Proof.
  unfold rootAt, DataAt, load. destruct (deref doc a) as [t |]; [| discriminate].
  intros [= <-]. exists t. auto.
Qed.

Lemma rootAt_holdsNode doc a r : rootAt doc a = Ok r -> holdsNode doc r.
Proof.
  intro H. destruct (rootAt_inv _ _ _ H) as (t & Ht & ->).
  exists a, t. auto.
Qed.

Lemma notFound_holdsError : holdsError notFound.
Proof. split; [reflexivity | discriminate]. Qed.

(** The single-result methods in terms of the engine. *)
Lemma single_inv doc (c : Exec (option Addr)) r' :
  (temp <- outcome c ;;
   match temp with
   | None => Ok notFound
   | Some a => rootAt doc a
   end) = Ok r' ->
  (outcome c = Ok None /\ r' = notFound)
  \/ exists p, outcome c = Ok (Some p) /\ rootAt doc p = Ok r'.
Proof.
  destruct (outcome c) as [[p |] | e]; cbn [rbind]; [| | discriminate].
  - intro H. right. exists p. auto.
  - intros [= <-]. left. auto.
Qed.

Lemma wrapAll_inv doc temp :
  forall Nodes, wrapAll doc temp = Ok Nodes ->
  Forall2 (fun a r => exists t, deref doc a = Some t
                                /\ r = Root.mk (Some a) (html.Data t) None)
    temp Nodes.
Proof.
  induction temp as [| a rest IH]; intros Nodes; cbn [wrapAll].
  - intros [= <-]. constructor.
  - unfold DataAt, load. destruct (deref doc a) as [t |] eqn:Ha; [| discriminate].
    cbn [rbind snd]. destruct (wrapAll doc rest) as [Nodes' | e]; [| discriminate].
    cbn [rbind]. intros [= <-]. constructor; [exists t; auto | apply IH; reflexivity].
Qed.

Lemma wrapAll_live doc temp :
  Forall (fun a => deref doc a <> None) temp ->
  exists Nodes, wrapAll doc temp = Ok Nodes.
Proof.
  induction 1 as [| a rest Ha _ (Nodes & IH)]; [exists []; reflexivity |].
  cbn [wrapAll]. unfold DataAt, load.
  destruct (deref doc a) as [t |]; [| contradiction].
  cbn [rbind snd]. rewrite IH. cbn [rbind]. eauto.
Qed.

Lemma wrapAll_length doc temp Nodes :
  wrapAll doc temp = Ok Nodes -> length Nodes = length temp.
Proof.
  intro H. apply wrapAll_inv in H. symmetry. exact (Forall2_length H).
Qed.

(** The collection built from the addresses [temp]. *)
Lemma collect_inv doc temp (failure : result Roots.t) rs :
  (if (length temp =? 0)%nat then failure
   else Nodes <- wrapAll doc temp ;; Ok (Roots.mk Nodes (Z.of_nat (length temp)) None))
  = Ok rs ->
  (temp = [] /\ failure = Ok rs)
  \/ (temp <> [] /\ Roots.Error rs = None
      /\ Roots.Len rs = Z.of_nat (length (Roots.Roots rs))
      /\ Forall2 (fun a r => exists t, deref doc a = Some t
                                       /\ r = Root.mk (Some a) (html.Data t) None)
           temp (Roots.Roots rs)).
Proof.
  destruct temp as [| a rest]; cbn [length Nat.eqb]; [left; auto |].
  destruct (wrapAll doc (a :: rest)) as [Nodes | e] eqn:E; [| discriminate].
  cbn [rbind]. intros [= <-]. right. cbn [Roots.Error Roots.Len Roots.Roots].
  split; [discriminate |]. split; [reflexivity |].
  split; [rewrite (wrapAll_length _ _ _ E); reflexivity | apply wrapAll_inv; exact E].
Qed.

(* ===================================================================== *)
(** * Queries on a result that carries an error                            *)
(* ===================================================================== *)

(** C1, as the code has it: no method looks at the error of its
    receiver.  Invoked on a result without a node, every query method,
    every navigation method, [Text] and [Children] dereference the
    absent node, and the call panics instead of returning the original
    error. *)
Theorem C1_query_on_error_result_panics :
  forall (doc : html.Node) (r : Root.t) (args : list string),
    Root.Node r = None ->
    Find doc r args = Panic NilDereference
    /\ FindStrict doc r args = Panic NilDereference
    /\ FindAll doc r args = Panic NilDereference
    /\ FindAllStrict doc r args = Panic NilDereference
    /\ Title doc r = Panic NilDereference
    /\ FindNextSibling doc r = Panic NilDereference
    /\ FindPrevSibling doc r = Panic NilDereference
    /\ FindNextElementSibling doc r = Panic NilDereference
    /\ FindPrevElementSibling doc r = Panic NilDereference
    /\ Text doc r = Panic NilDereference
    /\ Children doc r = Panic NilDereference.
Proof.
  intros doc r args H.
  unfold Find, FindStrict, FindAll, FindAllStrict, Title, FindNextSibling,
    FindPrevSibling, FindNextElementSibling, FindPrevElementSibling, Text, Children.
  rewrite H, !findOnce_nil, !findAllofem_nil.
  repeat split; reflexivity.
Qed.

Lemma C1_query_on_error_result_panics_witness :
  Root.Node notFound = None
  /\ Find Sample.doc notFound ["anything"] = Panic NilDereference.
Proof.
  split; [reflexivity |].
  apply (C1_query_on_error_result_panics Sample.doc notFound ["anything"]).
  reflexivity.
Defined.

(** C1 as stated fails: [Find("missing").Find("anything")] on the
    sample document does not give back the [ElementNotFound] result of
    the first call. *)
Lemma C1_chained_Find_loses_error :
  Find Sample.doc Sample.root ["missing"] = Ok notFound
  /\ Root.Error notFound <> None
  /\ Find Sample.doc notFound ["anything"] <> Ok notFound.
Proof.
  split; [reflexivity |]. split; discriminate.
Qed.

(* ===================================================================== *)
(** * The starting node                                                    *)
(* ===================================================================== *)

Lemma findOnce_start_untested doc a args strict :
  Forall (below a) (visited (findOnce doc (Some a) args false strict))
  /\ forall p, outcome (findOnce doc (Some a) args false strict) = Ok (Some p) ->
               below a p.
Proof.
  destruct (deref doc a) as [t |] eqn:Ha.
  - rewrite (findOnce_live _ _ _ args false strict Ha).
    exact (findOnce_tree_reach args strict t a false).
  - rewrite (findOnce_dangling _ _ args false strict Ha).
    split; [constructor | discriminate].
Qed.

Lemma findAllofem_start_untested doc a args strict :
  Forall (below a) (visited (findAllofem doc (Some a) args strict))
  /\ forall l, outcome (findAllofem doc (Some a) args strict) = Ok l ->
               Forall (below a) l.
Proof.
  destruct (deref doc a) as [t |] eqn:Ha.
  - rewrite (findAllofem_live _ _ _ args strict Ha).
    destruct (findAllofem_f_reach args strict t a false []) as [Hv Ho].
    split; [exact Hv |]. intros l E. destruct (Ho l E) as (new & -> & Hn). exact Hn.
  - rewrite (findAllofem_dangling _ _ args strict Ha).
    split; [constructor | discriminate].
Qed.

Lemma Forall_below_not_In a l : Forall (below a) l -> ~ In a l.
Proof.
  intros H Hin. rewrite Forall_forall in H.
  exact (below_neq _ _ (H a Hin) eq_refl).
Qed.

Lemma single_below doc a (c : Exec (option Addr)) r' :
  (forall p, outcome c = Ok (Some p) -> below a p) ->
  (temp <- outcome c ;;
   match temp with
   | None => Ok notFound
   | Some a => rootAt doc a
   end) = Ok r' ->
  forall p, Root.Node r' = Some p -> below a p.
Proof.
  intros Hc H p Hp. destruct (single_inv doc c r' H) as [[_ ->] | (p' & E & Hr)].
  - discriminate.
  - destruct (rootAt_inv _ _ _ Hr) as (t & _ & ->). injection Hp as <-. auto.
Qed.

Lemma collect_below doc a temp failure rs :
  Forall (below a) temp ->
  (forall rs', failure = Ok rs' -> Roots.Roots rs' = []) ->
  (if (length temp =? 0)%nat then failure
   else Nodes <- wrapAll doc temp ;; Ok (Roots.mk Nodes (Z.of_nat (length temp)) None))
  = Ok rs ->
  Forall (fun r' => exists p, Root.Node r' = Some p /\ below a p) (Roots.Roots rs).
Proof.
  intros Hb Hf H. destruct (collect_inv doc temp failure rs H) as [[_ E] | (_ & _ & _ & F)].
  - rewrite (Hf _ E). constructor.
  - clear H Hf. revert F Hb. generalize (Roots.Roots rs). intros Nodes F.
    induction F as [| x r' l l' (t & _ & ->) _ IH]; intro Hb; constructor.
    + exists x. split; [reflexivity |]. exact (Forall_inv Hb).
    + apply IH. exact (Forall_inv_tail Hb).
Qed.

(** C2: a query looks only below its starting node.  For every
    document, every starting node [a] (the top of the document
    included) and every argument list, neither search evaluates its
    test on [a]; a node returned by [Find] or [FindStrict], and every
    node returned by [FindAll] or [FindAllStrict], lies strictly below
    [a]; and the kind, the data and the attributes of the starting node
    have no influence on the search. *)
Theorem C2_start_node_never_tested_nor_returned :
  forall (doc : html.Node) (r : Root.t) (a : Addr) (args : list string),
    Root.Node r = Some a ->
    (forall strict,
        ~ In a (visited (findOnce doc (Some a) args false strict))
        /\ ~ In a (visited (findAllofem doc (Some a) args strict)))
    /\ (forall r' p,
           Find doc r args = Ok r' \/ FindStrict doc r args = Ok r' ->
           Root.Node r' = Some p -> below a p /\ p <> a)
    /\ (forall rs,
           FindAll doc r args = Ok rs \/ FindAllStrict doc r args = Ok rs ->
           Forall (fun r' => exists p, Root.Node r' = Some p /\ below a p /\ p <> a)
             (Roots.Roots rs))
    /\ (forall t ty d attrs strict,
           findOnce_tree (html.mkNode ty d attrs (html.Children t)) a args false strict
           = findOnce_tree t a args false strict
           /\ findAllofem_f (html.mkNode ty d attrs (html.Children t)) a args false strict []
              = findAllofem_f t a args false strict []).
Proof.
  intros doc r a args Hr. split; [| split; [| split]].
  - intro strict. split; apply Forall_below_not_In.
    + apply findOnce_start_untested.
    + apply findAllofem_start_untested.
  - intros r' p H Hp.
    assert (B : below a p).
    { destruct H as [H | H]; unfold Find, FindStrict in H; rewrite Hr in H;
        refine (single_below doc a _ r' _ H p Hp);
        apply findOnce_start_untested. }
    split; [exact B | apply below_neq; exact B].
  - intros rs H.
    assert (B : Forall (fun r' => exists p, Root.Node r' = Some p /\ below a p)
                  (Roots.Roots rs)).
    { destruct H as [H | H]; unfold FindAll, FindAllStrict in H; rewrite Hr in H.
      - destruct (outcome (findAllofem doc (Some a) args false)) as [temp | e] eqn:E;
          [| discriminate].
        cbn [rbind] in H. refine (collect_below doc a temp _ rs _ _ H).
        + apply (findAllofem_start_untested doc a args false). exact E.
        + intros rs' [= <-]. reflexivity.
      - destruct (outcome (findAllofem doc (Some a) args true)) as [temp | e] eqn:E;
          [| discriminate].
        cbn [rbind] in H. refine (collect_below doc a temp _ rs _ _ H).
        + apply (findAllofem_start_untested doc a args true). exact E.
        + intros rs'. destruct (index args 0); [| discriminate].
          intros [= <-]. reflexivity. }
    revert B. apply Forall_impl. intros r' (p & Hp & B).
    exists p. split; [exact Hp |]. split; [exact B | apply below_neq; exact B].
  - intros t ty d attrs strict. split.
    + apply findOnce_tree_start.
    + apply findAllofem_f_start.
Qed.

Lemma C2_start_node_never_tested_nor_returned_witness :
  Root.Node Sample.root = Some [0]
  /\ ~ In [0] (visited (findOnce Sample.doc (Some [0]) [""] false false)).
Proof.
  split; [reflexivity |].
  apply (C2_start_node_never_tested_nor_returned Sample.doc Sample.root [0] [""]).
  reflexivity.
Defined.

(* ===================================================================== *)
(** * The single-result search                                             *)
(* ===================================================================== *)

Lemma first_match_split (P : html.Node -> bool) (l : list (Addr * html.Node)) :
  forall x, In x l -> P (snd x) = true ->
  exists pre y post,
    l = pre ++ y :: post /\ P (snd y) = true
    /\ Forall (fun z => P (snd z) = false) pre.
Proof.
  induction l as [| z l IH]; intros x Hin Hx; [destruct Hin |].
  destruct (P (snd z)) eqn:Hz.
  - exists [], z, l. auto.
  - destruct Hin as [-> | Hin]; [congruence |].
    destruct (IH x Hin Hx) as (pre & y & post & -> & Hy & Hpre).
    exists (z :: pre), y, post. auto.
Qed.

Lemma StronglySorted_split {A : Type} (R : A -> A -> Prop) pre x post :
  StronglySorted R (pre ++ x :: post) ->
  Forall (fun y => R y x) pre /\ Forall (R x) post
  /\ StronglySorted R (pre ++ [x]).
Proof.
  induction pre as [| z pre IH]; cbn [app]; intro H; inversion H as [| ? ? Hs Hz]; subst.
  - split; [constructor |]. split; [exact Hz |]. repeat constructor.
  - destruct (IH Hs) as (H1 & H2 & H3). apply Forall_app in Hz. destruct Hz as [Hz1 Hz2].
    split; [constructor; [exact (Forall_inv Hz2) | exact H1] |].
    split; [exact H2 |].
    constructor; [exact H3 |]. apply Forall_app. split; [exact Hz1 |].
    constructor; [exact (Forall_inv Hz2) | constructor].
Qed.

Lemma below_live_descendant doc a t p c :
  deref doc a = Some t -> below a p -> deref doc p = Some c ->
  In (p, c) (descendants t a).
Proof.
  intros Ha (qd & Hq & ->) Hp. rewrite deref_app, Ha in Hp.
  apply descendants_complete; assumption.
Qed.

Lemma below_live_start doc a p c :
  below a p -> deref doc p = Some c -> exists t, deref doc a = Some t.
Proof.
  intros (qd & _ & ->). rewrite deref_app.
  destruct (deref doc a) as [t |]; [eauto | discriminate].
Qed.

Lemma StronglySorted_map_fst l :
  StronglySorted before l -> StronglySorted doc_lt (map fst l).
Proof.
  induction 1 as [| x l _ IH Hx]; cbn [map]; constructor; [exact IH |].
  apply Forall_map. exact Hx.
Qed.

(** The engine on a well-formed query whose first match, in document
    order, is [m]. *)
Lemma findOnce_first_match doc a t q strict pre m tm post :
  deref doc a = Some t ->
  descendants t a = pre ++ (m, tm) :: post ->
  matches q strict tm = true ->
  Forall (fun z => matches q strict (snd z) = false) pre ->
  findOnce doc (Some a) (args_of q) false strict = (map fst pre ++ [m], Ok (Some m)).
Proof.
  intros Ha Hd Hm Hpre.
  rewrite (findOnce_live _ _ _ (args_of q) false strict Ha).
  rewrite (findOnce_tree_scan q strict t a false). unfold range. cbn [app].
  rewrite Hd, (scan_first _ _ _ _ _ Hpre Hm). reflexivity.
Qed.

(** C3: for every document, every starting node and every query (a
    tag with at most one attribute constraint) that some descendant
    satisfies, [Find] returns a satisfying descendant [m] that comes
    before every other satisfying descendant in document order, and the
    search tests, in document order, exactly the descendants up to and
    including [m]: nothing after the first match is visited. *)
Theorem C3_Find_returns_first_match_in_document_order :
  forall (doc : html.Node) (r : Root.t) (a : Addr) (q : Query),
    Root.Node r = Some a ->
    (exists p c, below a p /\ deref doc p = Some c /\ matches q false c = true) ->
    exists m tm,
      Find doc r (args_of q) = Ok (Root.mk (Some m) (html.Data tm) None)
      /\ below a m /\ deref doc m = Some tm /\ matches q false tm = true
      /\ (forall p c, below a p -> deref doc p = Some c -> matches q false c = true ->
                      p = m \/ doc_lt m p)
      /\ (forall p, In p (visited (findOnce doc (Some a) (args_of q) false false))
                    <-> below a p /\ deref doc p <> None /\ (p = m \/ doc_lt p m))
      /\ StronglySorted doc_lt (visited (findOnce doc (Some a) (args_of q) false false)).
Proof.
  intros doc r a q Hr (p0 & c0 & Hb0 & Hp0 & Hm0).
  destruct (below_live_start doc a p0 c0 Hb0 Hp0) as (t & Ha).
  pose proof (below_live_descendant doc a t p0 c0 Ha Hb0 Hp0) as Hin0.
  destruct (first_match_split (matches q false) _ (p0, c0) Hin0 Hm0)
    as (pre & [m tm] & post & Hd & Hm & Hpre).
  cbn [snd] in Hm.
  pose proof (descendants_sorted t a) as Hs. rewrite Hd in Hs.
  destruct (StronglySorted_split _ _ _ _ Hs) as (Hbefore & Hafter & Hs').
  assert (Hinm : In (m, tm) (descendants t a))
    by (rewrite Hd; apply in_or_app; right; left; reflexivity).
  pose proof (descendants_live doc a t m tm Ha Hinm) as Hlive.
  pose proof (findOnce_first_match doc a t q false pre m tm post Ha Hd Hm Hpre) as E.
  exists m, tm. split; [| split; [| split; [| split; [| split; [| split]]]]].
  - unfold Find. rewrite Hr, E. cbn [outcome snd rbind].
    apply rootAt_live. exact Hlive.
  - exact (descendants_below t a m tm Hinm).
  - exact Hlive.
  - exact Hm.
  - intros p c Hb Hp Hc.
    pose proof (below_live_descendant doc a t p c Ha Hb Hp) as Hin.
    rewrite Hd in Hin. apply in_app_or in Hin. destruct Hin as [Hin | [[= <- <-] | Hin]].
    + rewrite Forall_forall in Hpre. specialize (Hpre _ Hin). cbn [snd] in Hpre. congruence.
    + left; reflexivity.
    + right. rewrite Forall_forall in Hafter. exact (Hafter _ Hin).
  - intro p. rewrite E. cbn [visited fst]. split.
    + intro Hin. apply in_app_or in Hin. destruct Hin as [Hin | [<- | []]].
      * apply in_map_iff in Hin. destruct Hin as ([p' c] & <- & Hin). cbn [fst].
        assert (Hin' : In (p', c) (descendants t a))
          by (rewrite Hd; apply in_or_app; left; exact Hin).
        split; [exact (descendants_below t a p' c Hin') |].
        split; [rewrite (descendants_live doc a t p' c Ha Hin'); discriminate |].
        right. rewrite Forall_forall in Hbefore. exact (Hbefore _ Hin).
      * split; [exact (descendants_below t a m tm Hinm) |].
        split; [rewrite Hlive; discriminate | left; reflexivity].
    + intros (Hb & Hp & Hor). destruct (deref doc p) as [c |] eqn:Hc; [| contradiction].
      pose proof (below_live_descendant doc a t p c Ha Hb Hc) as Hin.
      rewrite Hd in Hin. apply in_or_app.
      apply in_app_or in Hin. destruct Hin as [Hin | [[= <- <-] | Hin]].
      * left. apply in_map_iff. exists (p, c). auto.
      * right; left; reflexivity.
      * exfalso. rewrite Forall_forall in Hafter. specialize (Hafter _ Hin).
        unfold before in Hafter; cbn [fst] in Hafter.
        destruct Hor as [-> | Hlt]; [exact (doc_lt_irrefl _ Hafter) |].
        exact (doc_lt_irrefl _ (doc_lt_trans _ _ _ Hafter Hlt)).
  - rewrite E. cbn [visited fst].
    change (map fst pre ++ [m]) with (map fst pre ++ map fst [(m, tm)]).
    rewrite <- map_app. apply StronglySorted_map_fst. exact Hs'.
Qed.

Lemma C3_Find_returns_first_match_in_document_order_witness :
  (Root.Node Sample.root = Some [0]
   /\ exists p c, below [0] p /\ deref Sample.doc p = Some c
                  /\ matches (mkQuery "li" None) false c = true)
  /\ exists m tm,
      Find Sample.doc Sample.root ["li"] = Ok (Root.mk (Some m) (html.Data tm) None)
      /\ m = [0; 1; 0; 0].
Proof.
  assert (H : exists p c, below [0] p /\ deref Sample.doc p = Some c
                          /\ matches (mkQuery "li" None) false c = true).
  { exists [0; 1; 0; 1], Sample.li_elem_first.
    split; [exists [1; 0; 1]; split; [discriminate | reflexivity] |].
    split; reflexivity. }
  split; [split; [reflexivity | exact H] |].
  destruct (C3_Find_returns_first_match_in_document_order
              Sample.doc Sample.root [0] (mkQuery "li" None) eq_refl H)
    as (m & tm & E & _).
  exists m, tm. split; [exact E |].
  cbv in E. injection E as E _. symmetry. exact E.
Defined.

(* ===================================================================== *)
(** * The matcher                                                          *)
(* ===================================================================== *)

(** ** strings.Fields gives the white-space separated tokens *)

Lemma string_app_assoc (a b c : string) : ((a ++ b) ++ c = a ++ (b ++ c))%string.
Proof. induction a as [| x a IH]; cbn; [reflexivity | rewrite IH; reflexivity]. Qed.

Lemma string_app_nil_r (a : string) : (a ++ "")%string = a.
Proof. induction a as [| x a IH]; cbn; [reflexivity | rewrite IH; reflexivity]. Qed.

Lemma fields_scan_skip w : forall s cur,
  strings.fields_scan (w ++ s) (String.length w) cur = strings.fields_scan s 0 cur.
Proof.
  induction w as [| c w IH]; intros s cur; [reflexivity |].
  cbn [append String.length strings.fields_scan]. apply IH.
Qed.

Lemma spaceless_tail c f rest : spaceless (String c f) rest -> spaceless f rest.
Proof.
  intros H f1 f2 E Hne. apply (H (String c f1) f2); [cbn; rewrite E; reflexivity | exact Hne].
Qed.

Lemma fields_scan_field f : forall s cur,
  spaceless f s ->
  strings.fields_scan (f ++ s) 0 cur = strings.fields_scan s 0 (cur ++ f).
Proof.
  induction f as [| c f IH]; intros s cur H.
  - cbn [append]. rewrite string_app_nil_r. reflexivity.
  - cbn [append strings.fields_scan].
    pose proof (H "" (String c f) eq_refl ltac:(discriminate)) as H0.
    cbn [append] in H0. rewrite H0.
    rewrite (IH s _ (spaceless_tail _ _ _ H)), string_app_assoc. reflexivity.
Qed.

Lemma Segments_empty fs : Segments "" fs -> fs = [].
Proof.
  intro H. remember "" as s eqn:E. destruct H as [| w s fs Hw _ _ | f s fs Hf _ _ _].
  - reflexivity.
  - destruct w; [contradiction | discriminate].
  - destruct f; [contradiction | discriminate].
Qed.

Lemma fields_scan_start s :
  strings.space_width s <> 0 ->
  exists c s' k, s = String c s' /\ strings.space_width s = S k
    /\ forall cur, strings.fields_scan s 0 cur = strings.flush cur ++ strings.fields_scan s' k "".
Proof.
  intro H. destruct s as [| c s']; [contradiction H; reflexivity |].
  destruct (strings.space_width (String c s')) as [| k] eqn:E; [contradiction |].
  exists c, s', k. split; [reflexivity |]. split; [reflexivity |].
  intro cur. cbn [strings.fields_scan]. rewrite E. reflexivity.
Qed.

Lemma Segments_Fields s fs : Segments s fs -> strings.Fields s = fs.
Proof.
  unfold strings.Fields.
  induction 1 as [| w s fs Hw Hsp _ IH | f s fs Hf Hsl Hend Hseg IH].
  - reflexivity.
  - destruct w as [| c w]; [contradiction |].
    cbn [append strings.fields_scan]. cbn [append] in Hsp. rewrite Hsp.
    cbn [String.length strings.flush app]. rewrite fields_scan_skip. exact IH.
  - rewrite (fields_scan_field f s "" Hsl). cbn [append].
    destruct Hend as [-> | Hend].
    + rewrite (Segments_empty _ Hseg). cbn [strings.fields_scan].
      destruct f; [contradiction | reflexivity].
    + destruct (fields_scan_start s Hend) as (c & s' & k & -> & Hk & Hscan).
      rewrite Hscan in IH |- *. cbn [strings.flush app] in IH.
      rewrite IH. destruct f; [contradiction | reflexivity].
Qed.

Lemma space_width_le s : strings.space_width s <= String.length s.
Proof.
  destruct s as [| c0 [| c1 [| c2 s]]]; cbn [strings.space_width String.length];
    repeat match goal with |- context [if ?b then _ else _] => destruct b end; lia.
Qed.

Lemma string_split n : forall s,
  n <= String.length s ->
  exists w s', s = (w ++ s')%string /\ String.length w = n.
Proof.
  induction n as [| n IH]; intros s Hn.
  - exists "", s. auto.
  - destruct s as [| c s]; [cbn in Hn; lia |]. cbn [String.length] in Hn.
    destruct (IH s) as (w & s' & -> & Hw); [lia |].
    exists (String c w), s'. cbn. auto.
Qed.

Lemma string_length_app (a b : string) :
  String.length (a ++ b) = String.length a + String.length b.
Proof. induction a as [| x a IH]; cbn; [reflexivity | rewrite IH; reflexivity]. Qed.

Lemma maximal_field s :
  s <> "" -> strings.space_width s = 0 ->
  exists f rest,
    s = (f ++ rest)%string /\ f <> "" /\ spaceless f rest
    /\ (rest = "" \/ strings.space_width rest <> 0).
Proof.
  induction s as [| c s IH]; intros Hne H0; [contradiction |].
  destruct s as [| c' s'] eqn:Es.
  - exists (String c ""), "". repeat split; [discriminate | | left; reflexivity].
    intros f1 f2 E Hf2. destruct f1 as [| x f1].
    + cbn in E. subst f2. exact H0.
    + cbn in E. injection E as _ E. destruct f1; [| discriminate].
      cbn in E. subst f2. contradiction.
  - rewrite <- Es in *. destruct (Nat.eq_dec (strings.space_width s) 0) as [Hz | Hnz].
    + destruct IH as (f & rest & E & Hf & Hsl & Hend); [subst s; discriminate | exact Hz |].
      exists (String c f), rest. cbn [append]. rewrite <- E.
      split; [reflexivity |]. split; [discriminate |]. split; [| exact Hend].
      intros f1 f2 E' Hf2. destruct f1 as [| x f1].
      * cbn in E'. subst f2. cbn [append]. rewrite <- E. exact H0.
      * cbn in E'. injection E' as _ E'. exact (Hsl f1 f2 E' Hf2).
    + exists (String c ""), s. cbn [append].
      split; [reflexivity |]. split; [discriminate |]. split; [| right; exact Hnz].
      intros f1 f2 E' Hf2. destruct f1 as [| x f1].
      * cbn in E'. subst f2. exact H0.
      * cbn in E'. injection E' as _ E'. destruct f1; [| discriminate].
        cbn in E'. subst f2. contradiction.
Qed.

Lemma Segments_exists n : forall s, String.length s <= n -> exists fs, Segments s fs.
Proof.
  induction n as [| n IH]; intros s Hlen.
  - destruct s; [exists []; constructor | cbn in Hlen; lia].
  - destruct s as [| c s]; [exists []; constructor |].
    destruct (strings.space_width (String c s)) as [| k] eqn:E.
    + destruct (maximal_field (String c s)) as (f & rest & Es & Hf & Hsl & Hend);
        [discriminate | exact E |].
      destruct (IH rest) as (fs & Hfs).
      { assert (L : String.length (String c s) = String.length f + String.length rest)
          by (rewrite Es; apply string_length_app).
        destruct f; [contradiction |]. cbn [String.length] in *. lia. }
      exists (f :: fs). rewrite Es. constructor; assumption.
    + pose proof (space_width_le (String c s)) as Hle. rewrite E in Hle.
      destruct (string_split (S k) (String c s) Hle) as (w & s' & Es & Hw).
      destruct (IH s') as (fs & Hfs).
      { assert (L : String.length (String c s) = String.length w + String.length s')
          by (rewrite Es; apply string_length_app).
        cbn [String.length] in *. lia. }
      exists fs. rewrite Es. constructor; [destruct w; [discriminate | discriminate] | | exact Hfs].
      rewrite <- Es, E. symmetry. exact Hw.
Qed.

Lemma Fields_Segments s : Segments s (strings.Fields s).
Proof.
  destruct (Segments_exists (String.length s) s (le_n _)) as (fs & H).
  rewrite (Segments_Fields s fs H). exact H.
Qed.

Lemma Segments_unique s fs1 fs2 : Segments s fs1 -> Segments s fs2 -> fs1 = fs2.
Proof.
  intros H1 H2. rewrite <- (Segments_Fields s fs1 H1). exact (Segments_Fields s fs2 H2).
Qed.

Lemma containsField_In fields value :
  containsField fields value = true <-> In value fields.
Proof.
  induction fields as [| attrVal rest IH]; cbn [containsField In].
  - split; [discriminate | tauto].
  - destruct (String.eqb_spec attrVal value) as [-> | Hne].
    + split; auto.
    + rewrite IH. split; [auto | intros [H | H]; [contradiction | exact H]].
Qed.

(** C4: the loose comparison of an attribute with a constraint
    [(attribute, value)] succeeds exactly when the names agree and
    [value] is one of the white-space separated tokens of the
    attribute's value, which are what [strings.Fields] returns; the
    strict comparison succeeds exactly when the names agree and the
    whole value equals [value].  So the value [a b c] loosely matches
    [b] and not [d], and strictly matches [a b c] only, neither
    [c b a] nor [a b]. *)
Theorem C4_loose_and_strict_comparison :
  forall (attr : html.Attribute) (attribute value : string),
    (attributeContainsValue attr attribute value = true
     <-> html.Key attr = attribute
         /\ exists tokens, Segments (html.Val attr) tokens /\ In value tokens)
    /\ (attributeContainsValue attr attribute value = true
        <-> html.Key attr = attribute /\ In value (strings.Fields (html.Val attr)))
    /\ (attributeAndValueEquals attr attribute value = true
        <-> html.Key attr = attribute /\ html.Val attr = value)
    /\ (let abc := html.mkAttribute "" "class" "a b c" in
        strings.Fields (html.Val abc) = ["a"; "b"; "c"]
        /\ attributeContainsValue abc "class" "b" = true
        /\ attributeContainsValue abc "class" "d" = false
        /\ attributeAndValueEquals abc "class" "a b c" = true
        /\ attributeAndValueEquals abc "class" "c b a" = false
        /\ attributeAndValueEquals abc "class" "a b" = false
        /\ attributeAndValueEquals abc "class" "b" = false).
Proof.
  intros attr attribute value.
  assert (L : attributeContainsValue attr attribute value = true
              <-> html.Key attr = attribute /\ In value (strings.Fields (html.Val attr))).
  { unfold attributeContainsValue.
    destruct (String.eqb_spec (html.Key attr) attribute) as [E | Hne].
    - rewrite containsField_In. tauto.
    - split; [discriminate | tauto]. }
  split; [| split; [exact L | split]].
  - rewrite L. split.
    + intros [E Hin]. split; [exact E |].
      exists (strings.Fields (html.Val attr)). split; [apply Fields_Segments | exact Hin].
    + intros [E (tokens & Hseg & Hin)]. split; [exact E |].
      rewrite (Segments_Fields _ _ Hseg). exact Hin.
  - unfold attributeAndValueEquals. rewrite andb_true_iff, !String.eqb_eq. tauto.
  - cbv zeta. repeat split; reflexivity.
Qed.

(* ===================================================================== *)
(** * The multi-result search                                              *)
(* ===================================================================== *)

(** On a well-formed query [FindAll] and [FindAllStrict] walk all the
    descendants in document order and record each candidate once per
    qualifying attribute pair. *)
Lemma findAllofem_query doc a t q strict :
  deref doc a = Some t ->
  findAllofem doc (Some a) (args_of q) strict
  = (map fst (descendants t a), Ok (record q strict (descendants t a))).
Proof.
  intro Ha. rewrite (findAllofem_live _ _ _ (args_of q) strict Ha).
  rewrite (findAllofem_f_record q strict t a false []). reflexivity.
Qed.

(** Where no node carries two qualifying pairs, the record is the
    list of the matching descendants. *)
Lemma record_filter q strict l :
  Forall (fun x => recorded q strict (snd x) <= 1) l ->
  record q strict l = map fst (filter (fun x => matches q strict (snd x)) l).
Proof.
  induction 1 as [| [p c] l Hx _ IH]; [reflexivity |].
  unfold record in *. cbn [flat_map filter fst snd] in *.
  rewrite IH, recorded_matches.
  destruct (recorded q strict c) as [| [| k]]; [reflexivity | reflexivity | lia].
Qed.

Lemma attrTest_key strict attr name value :
  attrTest strict attr name value = true -> html.Key attr = name.
Proof.
  unfold attrTest, attributeAndValueEquals, attributeContainsValue.
  destruct (String.eqb_spec (html.Key attr) name) as [E | Hne]; [auto |].
  destruct strict; discriminate.
Qed.

(** A node that does not repeat an attribute name has at most one
    qualifying pair. *)
Lemma recorded_unique_keys q strict t :
  NoDup (map html.Key (html.Attr t)) -> recorded q strict t <= 1.
Proof.
  unfold recorded, qualifying. intro Hnd.
  destruct (candidate q t); [| lia].
  destruct (constraint q) as [[name value] |]; [| lia].
  induction (html.Attr t) as [| attr rest IH]; [cbn; lia |].
  cbn [map] in Hnd. inversion Hnd as [| ? ? Hnotin Hnd']; subst.
  cbn [filter]. destruct (attrTest strict attr name value) eqn:E; [| auto].
  apply attrTest_key in E.
  assert (Hnone : filter (fun attr0 => attrTest strict attr0 name value) rest = []).
  { clear IH Hnd Hnd'. induction rest as [| attr' rest IH]; [reflexivity |].
    cbn [filter]. destruct (attrTest strict attr' name value) eqn:E'.
    - apply attrTest_key in E'. exfalso. apply Hnotin. cbn [map].
      left. congruence.
    - apply IH. intro Hin. apply Hnotin. right. exact Hin. }
  rewrite Hnone. cbn. lia.
Qed.

Lemma collect_nodes doc temp failure rs :
  (forall rs', failure = Ok rs' -> Roots.Roots rs' = []) ->
  (if (length temp =? 0)%nat then failure
   else Nodes <- wrapAll doc temp ;; Ok (Roots.mk Nodes (Z.of_nat (length temp)) None))
  = Ok rs ->
  map Root.Node (Roots.Roots rs) = map Some temp.
Proof.
  intros Hf H. destruct (collect_inv doc temp failure rs H) as [[E1 E2] | (_ & _ & _ & F)].
  - rewrite E1, (Hf _ E2). reflexivity.
  - clear H Hf. revert F. generalize (Roots.Roots rs). intros Nodes F.
    induction F as [| x r' l l' (c & _ & ->) _ IH]; [reflexivity |].
    cbn [map Root.Node]. rewrite IH. reflexivity.
Qed.

(** [FindAll] and [FindAllStrict] on a well-formed query: the nodes of
    the returned sequence are the record of the walk over all the
    descendants, in document order. *)
Lemma FindAll_record doc r a t q rs :
  Root.Node r = Some a -> deref doc a = Some t ->
  FindAll doc r (args_of q) = Ok rs ->
  map Root.Node (Roots.Roots rs) = map Some (record q false (descendants t a)).
Proof.
  intros Hr Ha H. unfold FindAll in H.
  rewrite Hr, (findAllofem_query doc a t q false Ha) in H. cbn [outcome snd rbind] in H.
  refine (collect_nodes doc _ _ rs _ H). intros rs' [= <-]. reflexivity.
Qed.

Lemma FindAllStrict_record doc r a t q rs :
  Root.Node r = Some a -> deref doc a = Some t ->
  FindAllStrict doc r (args_of q) = Ok rs ->
  map Root.Node (Roots.Roots rs) = map Some (record q true (descendants t a)).
Proof.
  intros Hr Ha H. unfold FindAllStrict in H.
  rewrite Hr, (findAllofem_query doc a t q true Ha) in H. cbn [outcome snd rbind] in H.
  refine (collect_nodes doc _ _ rs _ H).
  intros rs'. destruct (index (args_of q) 0); [| discriminate].
  intros [= <-]. reflexivity.
Qed.

Lemma StronglySorted_NoDup l : StronglySorted doc_lt l -> NoDup l.
Proof.
  induction 1 as [| x l _ IH Hx]; constructor; [| exact IH].
  intro Hin. rewrite Forall_forall in Hx. exact (doc_lt_irrefl x (Hx x Hin)).
Qed.

Lemma NoDup_map_fst_filter (P : Addr * html.Node -> bool) l :
  NoDup (map fst l) -> NoDup (map fst (filter P l)).
Proof.
  induction l as [| x l IH]; cbn [map filter]; intro H; [constructor |].
  inversion H as [| ? ? Hnotin Hnd]; subst.
  destruct (P x); [| auto]. cbn [map]. constructor; [| auto].
  intro Hin. apply Hnotin. apply in_map_iff in Hin. destruct Hin as (y & <- & Hy).
  apply filter_In in Hy. apply in_map. tauto.
Qed.

(** Where no descendant repeats an attribute name, the multi-result
    searches return the matching descendants, each once, in document
    order. *)
Lemma FindAll_unique_keys doc r a t q rs :
  Root.Node r = Some a -> deref doc a = Some t ->
  Forall (fun x => NoDup (map html.Key (html.Attr (snd x)))) (descendants t a) ->
  (FindAll doc r (args_of q) = Ok rs ->
   map Root.Node (Roots.Roots rs)
   = map Some (map fst (filter (fun x => matches q false (snd x)) (descendants t a))))
  /\ (FindAllStrict doc r (args_of q) = Ok rs ->
      map Root.Node (Roots.Roots rs)
      = map Some (map fst (filter (fun x => matches q true (snd x)) (descendants t a))))
  /\ forall strict,
      NoDup (map fst (filter (fun x => matches q strict (snd x)) (descendants t a))).
Proof.
  intros Hr Ha Hkeys.
  assert (Hone : forall strict,
             Forall (fun x => recorded q strict (snd x) <= 1) (descendants t a)).
  { intro strict. revert Hkeys. apply Forall_impl. intros x. apply recorded_unique_keys. }
  split; [| split].
  - intro H. rewrite (FindAll_record doc r a t q rs Hr Ha H), record_filter by apply Hone.
    reflexivity.
  - intro H. rewrite (FindAllStrict_record doc r a t q rs Hr Ha H), record_filter
      by apply Hone.
    reflexivity.
  - intro strict. apply NoDup_map_fst_filter. apply StronglySorted_NoDup.
    apply StronglySorted_map_fst. apply descendants_sorted.
Qed.

(** With two arguments the attribute loop reads [args[2]]: the search
    panics as soon as it meets a candidate that has an attribute; with
    no argument it panics at the first element. *)
Lemma short_queries_panic :
  Find Sample.doc Sample.root ["div"; "class"] = Panic IndexOutOfRange
  /\ FindAll Sample.doc Sample.root ["div"; "class"] = Panic IndexOutOfRange
  /\ Find Sample.doc Sample.root ["ul"; "class"] = Ok notFound
  /\ Find Sample.doc Sample.root [] = Panic IndexOutOfRange.
Proof. repeat split; reflexivity. Qed.

(** C5, on the sample document: the [div] that carries two [class]
    attributes, both with the field [b], is returned twice by
    [FindAll("div", "class", "b")], although it is one matching
    element. *)
Theorem C5_FindAll_repeats_node_with_two_qualifying_pairs :
  matches (mkQuery "div" (Some ("class", "b"))) false Sample.div_twice = true
  /\ filter (fun x => matches (mkQuery "div" (Some ("class", "b"))) false (snd x))
       (descendants Sample.doc []) = [([0; 1; 1], Sample.div_twice)]
  /\ FindAll Sample.doc Sample.root ["div"; "class"; "b"]
     = Ok (Roots.mk [Root.mk (Some [0; 1; 1]) "div" None;
                     Root.mk (Some [0; 1; 1]) "div" None] 2 None).
Proof. repeat split; reflexivity. Qed.

(* ===================================================================== *)
(** * Argument counts                                                      *)
(* ===================================================================== *)

Section LongQuery.

Variables (args : list string) (strict : bool).
Hypothesis Hlong : 4 <= length args.

Lemma long_query_shape :
  exists a0, index args 0 = Ok a0
             /\ ((1 <? length args) && (length args <? 4))%nat = false
             /\ (length args =? 1)%nat = false.
Proof.
  destruct args as [| a0 rest]; [cbn in Hlong; lia |].
  exists a0. split; [reflexivity |].
  split.
  - apply andb_false_iff. right. apply Nat.ltb_ge. exact Hlong.
  - apply Nat.eqb_neq. lia.
Qed.

Lemma findOnce_self_long t : findOnce_self t args strict = Ok false.
Proof.
  destruct long_query_shape as (a0 & E0 & E1 & E2).
  unfold findOnce_self. rewrite E0, E1, E2. cbn [rbind].
  destruct (html.NodeType_eqb _ _); [| reflexivity].
  destruct (matchElementName t a0); reflexivity.
Qed.

Lemma findAllofem_self_long t n acc : findAllofem_self t n args strict acc = Ok acc.
Proof.
  destruct long_query_shape as (a0 & E0 & E1 & E2).
  unfold findAllofem_self. rewrite E0, E1, E2. cbn [rbind].
  destruct (html.NodeType_eqb _ _); [| reflexivity].
  destruct (matchElementName t a0); reflexivity.
Qed.

Lemma findOnce_children_long cs :
  Forall (fun t => forall n uni, outcome (findOnce_tree t n args uni strict) = Ok None) cs ->
  forall n i, outcome (findOnce_children cs n i args strict) = Ok None.
Proof.
  induction 1 as [| c rest Hc _ IH]; intros n i; [reflexivity |].
  cbn [findOnce_children]. rewrite outcome_ebind, Hc. cbn [rbind]. apply IH.
Qed.

Lemma findOnce_tree_long t :
  forall n uni, outcome (findOnce_tree t n args uni strict) = Ok None.
Proof.
  induction t as [ty d attrs cs IH] using Node_ind; intros n uni.
  rewrite findOnce_tree_eq, outcome_ebind. cbn [html.Children].
  destruct uni; cbn [tested eret outcome snd].
  - rewrite findOnce_self_long. cbn [rbind]. apply findOnce_children_long. exact IH.
  - cbn [rbind]. apply findOnce_children_long. exact IH.
Qed.

Lemma findAllofem_children_long cs :
  Forall (fun t => forall n uni acc,
              outcome (findAllofem_f t n args uni strict acc) = Ok acc) cs ->
  forall n i acc, outcome (findAllofem_children cs n i args strict acc) = Ok acc.
Proof.
  induction 1 as [| c rest Hc _ IH]; intros n i acc; [reflexivity |].
  cbn [findAllofem_children]. rewrite outcome_ebind, Hc. cbn [rbind]. apply IH.
Qed.

Lemma findAllofem_f_long t :
  forall n uni acc, outcome (findAllofem_f t n args uni strict acc) = Ok acc.
Proof.
  induction t as [ty d attrs cs IH] using Node_ind; intros n uni acc.
  rewrite findAllofem_f_eq, outcome_ebind. cbn [html.Children].
  destruct uni; cbn [tested eret outcome snd].
  - rewrite findAllofem_self_long. cbn [rbind].
    apply findAllofem_children_long. exact IH.
  - cbn [rbind]. apply findAllofem_children_long. exact IH.
Qed.

End LongQuery.

(** C6, as the code has it: there is no malformed-query error.  A
    query with four or more arguments, on a result that holds a node,
    matches nothing and is answered like a well-formed query without a
    match: [Find] and [FindStrict] return the [ElementNotFound] result,
    [FindAll] the [ElementsNotFound] collection and [FindAllStrict] an
    empty collection with its not-found error. *)
Theorem C6_long_query_reported_as_no_match :
  forall (doc : html.Node) (r : Root.t) (a : Addr) (t : html.Node) (args : list string),
    Root.Node r = Some a -> deref doc a = Some t ->
    4 <= length args ->
    Find doc r args = Ok notFound
    /\ FindStrict doc r args = Ok notFound
    /\ FindAll doc r args
       = Ok (Roots.mk [] 0
               (Some (newError ErrElementsNotFound "no elements or attriabutes found")))
    /\ (exists e, FindAllStrict doc r args = Ok (Roots.mk [] 0 (Some e))
                  /\ ~ rejectedAsMalformed (Some e))
    /\ ~ rejectedAsMalformed (Root.Error notFound).
Proof.
  intros doc r a t args Hr Ha Hlong.
  unfold Find, FindStrict, FindAll, FindAllStrict. rewrite Hr.
  rewrite !(findOnce_live _ _ _ args false _ Ha), !(findAllofem_live _ _ _ args _ Ha).
  rewrite !(findOnce_tree_long args _ Hlong), !(findAllofem_f_long args _ Hlong).
  cbn [rbind length Nat.eqb].
  destruct (long_query_shape args Hlong) as (a0 & E0 & _). rewrite E0. cbn [rbind].
  repeat split; try reflexivity.
  - eexists. split; [reflexivity |].
    intros (er & [= <-] & H & _). apply H. reflexivity.
  - intros (er & [= <-] & H & _). apply H. reflexivity.
Qed.

Lemma C6_long_query_reported_as_no_match_witness :
  (Root.Node Sample.root = Some [0]
   /\ deref Sample.doc [0] = Some (Sample.elem "html" [] [Sample.elem "head" [] []; Sample.body])
   /\ 4 <= length ["div"; "class"; "b"; "id"; "x"])
  /\ Find Sample.doc Sample.root ["div"; "class"; "b"; "id"; "x"] = Ok notFound.
Proof.
  split; [split; [reflexivity | split; [reflexivity | cbn; lia]] |].
  apply (C6_long_query_reported_as_no_match Sample.doc Sample.root [0]
           (Sample.elem "html" [] [Sample.elem "head" [] []; Sample.body])
           ["div"; "class"; "b"; "id"; "x"]);
    [reflexivity | reflexivity | cbn; lia].
Defined.

(** C6 as stated fails: with two attribute pairs, the first of which
    a [div] of the sample document satisfies, [Find] and [FindAll]
    answer with the errors of a search without a match, not with a
    rejection of the query. *)
Lemma C6_extra_arguments_not_rejected :
  exists r rs,
    Find Sample.doc Sample.root ["div"; "class"; "b"; "id"; "x"] = Ok r
    /\ ~ rejectedAsMalformed (Root.Error r)
    /\ Find Sample.doc Sample.root ["nosuchtag"] = Ok r
    /\ FindAll Sample.doc Sample.root ["div"; "class"; "b"; "id"; "x"] = Ok rs
    /\ ~ rejectedAsMalformed (Roots.Error rs).
Proof.
  eexists. eexists. split; [reflexivity |].
  split; [intros (er & [= <-] & H & _); apply H; reflexivity |].
  split; [reflexivity |]. split; [reflexivity |].
  intros (er & [= <-] & _ & H); apply H; reflexivity.
Qed.

(* ===================================================================== *)
(** * Text                                                                 *)
(* ===================================================================== *)

(** Whatever the siblings are, the closure answers with the empty
    string or with the data of the captured first child. *)
Lemma Text_f_value k sibs s :
  Text_f (Some k) sibs = Ok s -> s = "" \/ s = html.Data k.
Proof.
  assert (Hdrop : forall (c : result string) (v : string),
             (_ <- c ;; Ok v) = Ok s -> s = v).
  { intros [x | e] v; cbn [rbind]; [intros [= <-]; reflexivity | discriminate]. }
  destruct sibs as [| n rest]; cbn [Text_f].
  - destruct (regexp.MatchString_only_space _); [discriminate |].
    intros [= <-]; auto.
  - destruct (negb _).
    + destruct rest as [| n1 rest1]; [intros [= <-]; auto |].
      generalize (Text_f (Some k) (n1 :: rest1)). intros [x | e]; [| discriminate].
      cbn [rbind]. destruct (regexp.MatchString_only_space _); [| intros [= <-]; auto].
      destruct rest1 as [| n2 rest2]; [intros [= <-]; auto |].
      intro H. right. exact (Hdrop _ _ H).
    + destruct (regexp.MatchString_only_space _); [| intros [= <-]; auto].
      destruct rest as [| n1 rest1]; [intros [= <-]; auto |].
      intro H. right. exact (Hdrop _ _ H).
Qed.

Lemma Text_f_returns k m :
  forall sibs, length sibs <= m -> sibs <> [] -> exists s, Text_f (Some k) sibs = Ok s.
Proof.
  induction m as [| m IH]; intros sibs Hlen Hne.
  - destruct sibs; [contradiction | cbn in Hlen; lia].
  - destruct sibs as [| n rest]; [contradiction |]. cbn [length] in Hlen.
    cbn [Text_f].
    destruct (negb _).
    + destruct rest as [| n1 rest1]; [eauto |].
      destruct (IH (n1 :: rest1)) as (s1 & ->); [lia | discriminate |].
      cbn [rbind]. destruct (regexp.MatchString_only_space _); [| eauto].
      destruct rest1 as [| n2 rest2]; [eauto |].
      destruct (IH (n2 :: rest2)) as (s2 & ->); [cbn [length] in *; lia | discriminate |].
      cbn [rbind]. eauto.
    + destruct (regexp.MatchString_only_space _); [| eauto].
      destruct rest as [| n1 rest1]; [eauto |].
      destruct (IH (n1 :: rest1)) as (s1 & ->); [lia | discriminate |].
      cbn [rbind]. eauto.
Qed.

(** On a result that holds a node, [Text] returns, and what it returns
    is the empty string or the data of the first child, whatever the
    kind of that child. *)
Lemma Text_first_child_or_empty doc r a t :
  Root.Node r = Some a -> deref doc a = Some t ->
  exists s, Text doc r = Ok s
            /\ match html.Children t with
               | [] => s = ""
               | k :: _ => s = "" \/ s = html.Data k
               end.
Proof.
  intros Hr Ha. unfold Text, load. rewrite Hr, Ha. cbn [rbind snd].
  destruct (html.Children t) as [| k rest] eqn:E; [exists ""; auto |].
  cbn [hd_error].
  destruct (Text_f_returns k (length (k :: rest)) (k :: rest)) as (s & Hs);
    [lia | discriminate |].
  exists s. split; [exact Hs | exact (Text_f_value _ _ _ Hs)].
Qed.

(** Where the first child is a text node that is not blank, [Text]
    returns its content. *)
Lemma Text_first_child_text doc r a t k rest :
  Root.Node r = Some a -> deref doc a = Some t ->
  html.Children t = k :: rest ->
  html.Type' k = html.TextNode ->
  regexp.MatchString_only_space (html.Data k) = false ->
  Text doc r = Ok (html.Data k).
Proof.
  intros Hr Ha Hc Hk Hb. unfold Text, load. rewrite Hr, Ha. cbn [rbind snd].
  rewrite Hc. cbn [hd_error Text_f]. rewrite Hk, Hb. reflexivity.
Qed.

(** C7, on the sample document: where the first child is an element,
    [Text] returns the tag name of that element instead of the text
    that follows it; where the first child is blank text, [Text]
    returns the blank text instead of the next text child.  Only where
    the first child is a text node that is not blank does [Text]
    return what the claim says. *)
Theorem C7_Text_stays_on_first_child :
  deref Sample.doc [0; 1; 0; 1] = Some Sample.li_elem_first
  /\ Text Sample.doc (Sample.at_ [0; 1; 0; 1] "li") = Ok "a"
  /\ deref Sample.doc [0; 1; 0; 2] = Some Sample.li_blank_first
  /\ Text Sample.doc (Sample.at_ [0; 1; 0; 2] "li") = Ok "  "
  /\ deref Sample.doc [0; 1; 0; 0] = Some Sample.li_text_first
  /\ Text Sample.doc (Sample.at_ [0; 1; 0; 0] "li") = Ok "To a ".
Proof. repeat split; reflexivity. Qed.

(* ===================================================================== *)
(** * The error kinds of the failures                                      *)
(* ===================================================================== *)

Lemma nextElementSibling_kind after q i e :
  Root.Error (nextElementSibling after q i) = Some e -> Type' e = ErrNoNextSibling.
Proof.
  revert i; induction after as [| s rest IH]; intro i; cbn [nextElementSibling].
  - intros [= <-]. reflexivity.
  - destruct (html.NodeType_eqb _ _); [discriminate | apply IH].
Qed.

Lemma prevElementSibling_kind before q i e :
  Root.Error (prevElementSibling before q i) = Some e -> Type' e = ErrNoNextSibling.
Proof.
  revert i; induction before as [| s rest IH]; intro i; cbn [prevElementSibling].
  - intros [= <-]. reflexivity.
  - destruct (html.NodeType_eqb _ _); [discriminate | apply IH].
Qed.

(** Every failure of the four sibling methods is of kind
    [ErrNoNextSibling]. *)
Lemma sibling_failure_kind doc r r' e :
  FindNextSibling doc r = Ok r' \/ FindPrevSibling doc r = Ok r'
  \/ FindNextElementSibling doc r = Ok r' \/ FindPrevElementSibling doc r = Ok r' ->
  Root.Error r' = Some e -> Type' e = ErrNoNextSibling.
Proof.
  unfold FindNextSibling, FindPrevSibling, FindNextElementSibling, FindPrevElementSibling.
  destruct (load doc (Root.Node r)) as [[a t] |]; cbn [rbind fst];
    [| intros [H | [H | [H | H]]]; discriminate].
  intros [H | [H | [H | H]]] He.
  - destruct (NextSibling doc a) as [s |].
    + destruct (rootAt_inv _ _ _ H) as (? & _ & ->). discriminate.
    + injection H as <-. injection He as <-. reflexivity.
  - destruct (PrevSibling doc a) as [s |].
    + destruct (rootAt_inv _ _ _ H) as (? & _ & ->). discriminate.
    + injection H as <-. injection He as <-. reflexivity.
  - destruct (siblings doc a) as [[[[q i] before] after] |]; injection H as <-.
    + exact (nextElementSibling_kind _ _ _ _ He).
    + injection He as <-. reflexivity.
  - destruct (siblings doc a) as [[[[q i] before] after] |]; injection H as <-.
    + exact (prevElementSibling_kind _ _ _ _ He).
    + injection He as <-. reflexivity.
Qed.

(** C8, on the sample document: [FindPrevSibling],
    [FindNextElementSibling] and [FindPrevElementSibling] fail with the
    kind [ErrNoNextSibling], and [FindAllStrict] fails with the
    singular [ErrElementNotFound]; only [FindNextSibling] and [FindAll]
    fail with the kinds declared for them. *)
Theorem C8_failures_carry_other_kinds :
  FindPrevSibling Sample.doc (Sample.at_ [0; 0] "head")
  = Ok (Root.mk None "" (Some (newError ErrNoNextSibling "no previous sibling found")))
  /\ FindNextElementSibling Sample.doc (Sample.at_ [0; 1] "body")
     = Ok (Root.mk None ""
             (Some (newError ErrNoNextSibling "no next element sibling found")))
  /\ FindPrevElementSibling Sample.doc (Sample.at_ [0; 0] "head")
     = Ok (Root.mk None ""
             (Some (newError ErrNoNextSibling "no previous element sibling found")))
  /\ FindAllStrict Sample.doc Sample.root ["nosuchtag"]
     = Ok (Roots.mk [] 0
             (Some (newError ErrElementNotFound
                      "element `nosuchtag` with attributes `` not found")))
  /\ FindNextSibling Sample.doc (Sample.at_ [0; 1] "body")
     = Ok (Root.mk None "" (Some (newError ErrNoNextSibling "no next sibling found")))
  /\ FindAll Sample.doc Sample.root ["nosuchtag"]
     = Ok (Roots.mk [] 0
             (Some (newError ErrElementsNotFound "no elements or attriabutes found"))).
Proof. repeat split; reflexivity. Qed.

(* ===================================================================== *)
(** * The shape of the results                                             *)
(* ===================================================================== *)

Lemma live_inv doc a s : live doc a = Some s -> s = a /\ exists c, deref doc a = Some c.
Proof.
  unfold live. destruct (deref doc a) as [c |]; [| discriminate].
  intros [= <-]. eauto.
Qed.

Lemma NextSibling_live doc a s : NextSibling doc a = Some s -> exists c, deref doc s = Some c.
Proof.
  unfold NextSibling. destruct (unsnoc a) as [[q i] |]; [| discriminate].
  intro H. destruct (live_inv _ _ _ H) as (-> & Hc). exact Hc.
Qed.

Lemma PrevSibling_live doc a s : PrevSibling doc a = Some s -> exists c, deref doc s = Some c.
Proof.
  unfold PrevSibling. destruct (unsnoc a) as [[q [| i]] |]; try discriminate.
  intro H. destruct (live_inv _ _ _ H) as (-> & Hc). exact Hc.
Qed.

Lemma skipn_cons_inv {A : Type} (l : list A) :
  forall i s rest, skipn i l = s :: rest -> nth_error l i = Some s /\ skipn (S i) l = rest.
Proof.
  induction l as [| x l IH]; intros [| i] s rest; cbn [skipn nth_error];
    try discriminate.
  - intros [= <- <-]. auto.
  - intro H. destruct (IH i s rest H) as [H1 H2]. split; [exact H1 | exact H2].
Qed.

Lemma firstn_succ_snoc {A : Type} (l : list A) :
  forall j x, nth_error l j = Some x -> firstn (S j) l = firstn j l ++ [x].
Proof.
  induction l as [| y l IH]; intros [| j] x; cbn [nth_error]; try discriminate.
  - intros [= <-]. reflexivity.
  - intro H. specialize (IH j x H). cbn [firstn app] in *. rewrite IH. reflexivity.
Qed.

Lemma rev_firstn_cons_inv {A : Type} (l : list A) i s rest :
  i <= length l -> rev (firstn i l) = s :: rest ->
  exists j, i = S j /\ nth_error l j = Some s /\ rest = rev (firstn j l).
Proof.
  intros Hi H. destruct i as [| j]; [discriminate |].
  destruct (nth_error l j) as [x |] eqn:Hx.
  - rewrite (firstn_succ_snoc l j x Hx), rev_app_distr in H. cbn [rev app] in H.
    injection H as <- <-. exists j. auto.
  - apply nth_error_None in Hx. lia.
Qed.

Lemma nextElementSibling_wellFormed doc q parent :
  deref doc q = Some parent ->
  forall after i, after = skipn i (html.Children parent) ->
  wellFormed doc (nextElementSibling after q i).
Proof.
  intros Hq. induction after as [| s rest IH]; intros i Hafter; cbn [nextElementSibling].
  - right. split; [reflexivity | discriminate].
  - symmetry in Hafter. destruct (skipn_cons_inv _ _ _ _ Hafter) as [Hs Hrest].
    destruct (html.NodeType_eqb _ _).
    + left. exists (q ++ [i]), s. rewrite deref_child, Hq. auto.
    + apply IH. symmetry. exact Hrest.
Qed.

Lemma prevElementSibling_wellFormed doc q parent :
  deref doc q = Some parent ->
  forall before i, i <= length (html.Children parent) ->
  before = rev (firstn i (html.Children parent)) ->
  wellFormed doc (prevElementSibling before q i).
Proof.
  intros Hq earlier. induction earlier as [| s rest IH]; intros i Hi Hbefore;
    cbn [prevElementSibling].
  - right. split; [reflexivity | discriminate].
  - symmetry in Hbefore.
    destruct (rev_firstn_cons_inv _ _ _ _ Hi Hbefore) as (j & -> & Hs & Hrest).
    cbn [pred]. destruct (html.NodeType_eqb _ _).
    + left. exists (q ++ [j]), s. rewrite deref_child, Hq. auto.
    + apply IH; [lia | exact Hrest].
Qed.

Lemma siblings_inv doc a t q i before after :
  deref doc a = Some t -> siblings doc a = Some (q, i, before, after) ->
  exists parent,
    deref doc q = Some parent /\ a = q ++ [i]
    /\ i < length (html.Children parent)
    /\ before = rev (firstn i (html.Children parent))
    /\ after = skipn (S i) (html.Children parent).
Proof.
  unfold siblings. intro Ha.
  destruct (unsnoc a) as [[q' i'] |] eqn:E; [| discriminate].
  apply unsnoc_Some in E. subst a.
  destruct (deref doc q') as [parent |] eqn:Hq; [| discriminate].
  intros [= <- <- <- <-]. exists parent.
  rewrite deref_child, Hq in Ha.
  split; [exact Hq |]. split; [reflexivity |].
  split; [apply nth_error_Some; rewrite Ha; discriminate | auto].
Qed.

Lemma skipn_nth_error {A : Type} (l : list A) :
  forall i, skipn i l = match nth_error l i with
                        | Some x => x :: skipn (S i) l
                        | None => []
                        end.
Proof.
  induction l as [| y l IH]; intros [| i]; try reflexivity.
  cbn [skipn nth_error]. rewrite IH. destruct (nth_error l i); reflexivity.
Qed.

Lemma siblings_child doc q parent i t :
  deref doc q = Some parent -> nth_error (html.Children parent) i = Some t ->
  siblings doc (q ++ [i])
  = Some (q, i, rev (firstn i (html.Children parent)), skipn (S i) (html.Children parent)).
Proof.
  intros Hq Hi. unfold siblings. rewrite unsnoc_snoc, Hq. reflexivity.
Qed.

(** The recursion of the source: the next sibling if it is an
    element, otherwise the same question asked of the next sibling. *)
Lemma FindNextElementSibling_eq doc r a t :
  Root.Node r = Some a -> deref doc a = Some t ->
  FindNextElementSibling doc r
  = match NextSibling doc a with
    | None =>
        Ok (Root.mk None ""
              (Some (newError ErrNoNextSibling "no next element sibling found")))
    | Some nextSibling =>
        at_s <- load doc (Some nextSibling) ;;
        if html.NodeType_eqb (html.Type' (snd at_s)) html.ElementNode
        then Ok (Root.mk (Some nextSibling) (html.Data (snd at_s)) None)
        else FindNextElementSibling doc
               (Root.mk (Some nextSibling) (html.Data (snd at_s)) None)
    end.
Proof.
  intros Hr Ha. unfold FindNextElementSibling at 1. unfold load at 1.
  rewrite Hr, Ha. cbn [rbind fst].
  destruct (siblings doc a) as [[[[q i] earlier] after] |] eqn:E.
  - destruct (siblings_inv _ _ _ _ _ _ _ Ha E) as (parent & Hq & -> & Hi & _ & ->).
    rewrite (NextSibling_spec doc q parent i Hq), skipn_nth_error.
    destruct (nth_error (html.Children parent) (S i)) as [s |] eqn:Hs; [| reflexivity].
    cbn [nextElementSibling]. unfold load. rewrite deref_child, Hq, Hs. cbn [rbind snd].
    destruct (html.NodeType_eqb _ _); [reflexivity |].
    unfold FindNextElementSibling, load. cbn [Root.Node].
    rewrite deref_child, Hq, Hs. cbn [rbind fst].
    rewrite (siblings_child doc q parent (S i) s Hq Hs). reflexivity.
  - unfold siblings in E. destruct (unsnoc a) as [[q i] |] eqn:Eu.
    + apply unsnoc_Some in Eu. subst a. rewrite deref_child in Ha.
      destruct (deref doc q); discriminate.
    + apply unsnoc_None in Eu. subst a. reflexivity.
Qed.

Lemma FindPrevElementSibling_eq doc r a t :
  Root.Node r = Some a -> deref doc a = Some t ->
  FindPrevElementSibling doc r
  = match PrevSibling doc a with
    | None =>
        Ok (Root.mk None ""
              (Some (newError ErrNoNextSibling "no previous element sibling found")))
    | Some prevSibling =>
        at_s <- load doc (Some prevSibling) ;;
        if html.NodeType_eqb (html.Type' (snd at_s)) html.ElementNode
        then Ok (Root.mk (Some prevSibling) (html.Data (snd at_s)) None)
        else FindPrevElementSibling doc
               (Root.mk (Some prevSibling) (html.Data (snd at_s)) None)
    end.
Proof.
  intros Hr Ha. unfold FindPrevElementSibling at 1. unfold load at 1.
  rewrite Hr, Ha. cbn [rbind fst].
  destruct (siblings doc a) as [[[[q i] earlier] after] |] eqn:E.
  - destruct (siblings_inv _ _ _ _ _ _ _ Ha E) as (parent & Hq & -> & Hi & -> & _).
    rewrite (PrevSibling_spec doc q parent i Hq Hi).
    destruct i as [| j]; [reflexivity |].
    destruct (nth_error (html.Children parent) j) as [s |] eqn:Hs;
      [| apply nth_error_None in Hs; lia].
    rewrite (firstn_succ_snoc _ _ _ Hs), rev_app_distr. cbn [rev app prevElementSibling pred].
    unfold load. rewrite deref_child, Hq, Hs. cbn [rbind snd].
    destruct (html.NodeType_eqb _ _); [reflexivity |].
    unfold FindPrevElementSibling, load. cbn [Root.Node].
    rewrite deref_child, Hq, Hs. cbn [rbind fst].
    rewrite (siblings_child doc q parent j s Hq Hs). reflexivity.
  - unfold siblings in E. destruct (unsnoc a) as [[q i] |] eqn:Eu.
    + apply unsnoc_Some in Eu. subst a. rewrite deref_child in Ha.
      destruct (deref doc q); discriminate.
    + apply unsnoc_None in Eu. subst a. reflexivity.
Qed.

Lemma Children_loop_shape doc a cs :
  forall i rootNode childrenNode,
    (forall k c, nth_error cs k = Some c -> deref doc (a ++ [i + k]) = Some c) ->
    Forall (holdsNode doc) rootNode ->
    Roots.Roots childrenNode = rootNode ->
    Roots.Len childrenNode = Z.of_nat (length rootNode) ->
    let rs := Children_loop cs a i rootNode childrenNode in
    Roots.Error rs = Roots.Error childrenNode
    /\ Forall (holdsNode doc) (Roots.Roots rs)
    /\ Roots.Len rs = Z.of_nat (length (Roots.Roots rs))
    /\ length (Roots.Roots rs) = length rootNode + length cs.
Proof.
  induction cs as [| c rest IH]; intros i rootNode childrenNode Hcs Hall HR HL;
    cbn [Children_loop]; cbv zeta.
  - rewrite HR. repeat split; [exact Hall | exact HL | cbn [length]; lia].
  - set (rootNode' := rootNode ++ [Root.mk (Some (a ++ [i])) (html.Data c) None]).
    destruct (IH (S i) rootNode'
                (Roots.mk rootNode' (Z.of_nat (length rootNode')) (Roots.Error childrenNode)))
      as (H1 & H2 & H3 & H4).
    + intros k c' Hk. rewrite Nat.add_succ_l, <- Nat.add_succ_r. apply Hcs. exact Hk.
    + apply Forall_app. split; [exact Hall |]. constructor; [| constructor].
      pose proof (Hcs 0 c eq_refl) as H0. rewrite Nat.add_0_r in H0.
      exists (a ++ [i]), c. auto.
    + reflexivity.
    + reflexivity.
    + cbv zeta in *. split; [exact H1 |]. split; [exact H2 |]. split; [exact H3 |].
      rewrite H4. unfold rootNode'. rewrite length_app. cbn [length]. lia.
Qed.

Lemma scan_In P l p : snd (scan P l) = Some p -> exists c, In (p, c) l.
Proof.
  induction l as [| [a t] l IH]; cbn [scan]; [discriminate |].
  destruct (P t); cbn [snd].
  - intros [= <-]. exists t. left; reflexivity.
  - intro H. destruct (IH H) as (c & Hc). exists c. right; exact Hc.
Qed.

Lemma record_In q strict l p : In p (record q strict l) -> exists c, In (p, c) l.
Proof.
  unfold record. intro H. apply in_flat_map in H. destruct H as ([a c] & Hin & Hp).
  cbn [fst snd] in Hp. apply repeat_spec in Hp. subst p. eauto.
Qed.

(** On a result that holds a node, the four searches answer every
    well-formed query. *)
Lemma queries_return doc r a t q :
  Root.Node r = Some a -> deref doc a = Some t ->
  (exists r1, Find doc r (args_of q) = Ok r1)
  /\ (exists r2, FindStrict doc r (args_of q) = Ok r2)
  /\ (exists rs1, FindAll doc r (args_of q) = Ok rs1)
  /\ (exists rs2, FindAllStrict doc r (args_of q) = Ok rs2).
Proof.
  intros Hr Ha.
  assert (S1 : forall strict,
             exists r1, (temp <- outcome (findOnce doc (Some a) (args_of q) false strict) ;;
                         match temp with
                         | None => Ok notFound
                         | Some a => rootAt doc a
                         end) = Ok r1).
  { intro strict. rewrite (findOnce_live _ _ _ (args_of q) false strict Ha).
    rewrite (findOnce_tree_scan q strict t a false). cbn [outcome snd rbind].
    destruct (snd (scan _ _)) as [p |] eqn:E; [| eauto].
    destruct (scan_In _ _ _ E) as (c & Hin). unfold range in Hin. cbn [app] in Hin.
    rewrite (rootAt_live _ _ _ (descendants_live doc a t p c Ha Hin)). eauto. }
  assert (S2 : forall strict (failure : result Roots.t),
             (exists rs0, failure = Ok rs0) ->
             exists rs, (temp <- outcome (findAllofem doc (Some a) (args_of q) strict) ;;
                         if (length temp =? 0)%nat then failure
                         else Nodes <- wrapAll doc temp ;;
                              Ok (Roots.mk Nodes (Z.of_nat (length temp)) None)) = Ok rs).
  { intros strict failure (rs0 & ->). rewrite (findAllofem_query doc a t q strict Ha).
    cbn [outcome snd rbind]. destruct (_ =? _)%nat; [eauto |].
    destruct (wrapAll_live doc (record q strict (descendants t a))) as (Nodes & ->);
      [| cbn [rbind]; eauto].
    apply Forall_forall. intros p Hp. destruct (record_In _ _ _ _ Hp) as (c & Hin).
    rewrite (descendants_live doc a t p c Ha Hin). discriminate. }
  unfold Find, FindStrict, FindAll, FindAllStrict. rewrite Hr.
  split; [apply S1 |]. split; [apply S1 |].
  split; [apply S2; eauto |].
  apply S2. unfold args_of. destruct (constraint q) as [[name value] |];
    cbn [index nth_error rbind]; eauto.
Qed.

Lemma holds_exclusive doc r : ~ (holdsNode doc r /\ holdsError r).
Proof. intros [(a & t & _ & _ & _ & E) [_ N]]. exact (N E). Qed.

Lemma single_wellFormed doc (c : Exec (option Addr)) r' :
  (temp <- outcome c ;;
   match temp with
   | None => Ok notFound
   | Some a => rootAt doc a
   end) = Ok r' ->
  wellFormed doc r'.
Proof.
  intro H. destruct (single_inv doc c r' H) as [[_ ->] | (p & _ & Hr)].
  - right. exact notFound_holdsError.
  - left. exact (rootAt_holdsNode _ _ _ Hr).
Qed.

Lemma navigation_wellFormed doc r a t r' :
  Root.Node r = Some a -> deref doc a = Some t ->
  FindNextSibling doc r = Ok r' \/ FindPrevSibling doc r = Ok r'
  \/ FindNextElementSibling doc r = Ok r' \/ FindPrevElementSibling doc r = Ok r' ->
  wellFormed doc r'.
Proof.
  intros Hr Ha.
  unfold FindNextSibling, FindPrevSibling, FindNextElementSibling, FindPrevElementSibling,
    load.
  rewrite Hr, Ha. cbn [rbind fst].
  intros [H | [H | [H | H]]].
  - destruct (NextSibling doc a) as [s |].
    + left. exact (rootAt_holdsNode _ _ _ H).
    + injection H as <-. right. split; [reflexivity | discriminate].
  - destruct (PrevSibling doc a) as [s |].
    + left. exact (rootAt_holdsNode _ _ _ H).
    + injection H as <-. right. split; [reflexivity | discriminate].
  - destruct (siblings doc a) as [[[[q i] earlier] after] |] eqn:E; injection H as <-.
    + destruct (siblings_inv _ _ _ _ _ _ _ Ha E) as (parent & Hq & _ & _ & _ & Hafter).
      exact (nextElementSibling_wellFormed doc q parent Hq after (S i) Hafter).
    + right. split; [reflexivity | discriminate].
  - destruct (siblings doc a) as [[[[q i] earlier] after] |] eqn:E; injection H as <-.
    + destruct (siblings_inv _ _ _ _ _ _ _ Ha E) as (parent & Hq & _ & Hi & Hb & _).
      apply (prevElementSibling_wellFormed doc q parent Hq earlier i); [lia | exact Hb].
    + right. split; [reflexivity | discriminate].
Qed.

Lemma navigation_returns doc r a t :
  Root.Node r = Some a -> deref doc a = Some t ->
  (exists r1, FindNextSibling doc r = Ok r1)
  /\ (exists r2, FindPrevSibling doc r = Ok r2)
  /\ (exists r3, FindNextElementSibling doc r = Ok r3)
  /\ (exists r4, FindPrevElementSibling doc r = Ok r4).
Proof.
  intros Hr Ha.
  unfold FindNextSibling, FindPrevSibling, FindNextElementSibling, FindPrevElementSibling,
    load.
  rewrite Hr, Ha. cbn [rbind fst].
  split; [| split; [| split]].
  - destruct (NextSibling doc a) as [s |] eqn:E; [| eauto].
    destruct (NextSibling_live _ _ _ E) as (c & Hc). rewrite (rootAt_live _ _ _ Hc). eauto.
  - destruct (PrevSibling doc a) as [s |] eqn:E; [| eauto].
    destruct (PrevSibling_live _ _ _ E) as (c & Hc). rewrite (rootAt_live _ _ _ Hc). eauto.
  - destruct (siblings doc a) as [[[[q i] earlier] after] |]; eauto.
  - destruct (siblings doc a) as [[[[q i] earlier] after] |]; eauto.
Qed.

Lemma collection_shape doc temp failure rs :
  (forall rs', failure = Ok rs' -> Roots.Roots rs' = [] /\ Roots.Len rs' = 0%Z
                                   /\ Roots.Error rs' <> None) ->
  (if (length temp =? 0)%nat then failure
   else Nodes <- wrapAll doc temp ;; Ok (Roots.mk Nodes (Z.of_nat (length temp)) None))
  = Ok rs ->
  (Roots.Error rs <> None <-> Roots.Roots rs = [])
  /\ Forall (holdsNode doc) (Roots.Roots rs)
  /\ Roots.Len rs = Z.of_nat (length (Roots.Roots rs)).
Proof.
  intros Hf H. destruct (collect_inv doc temp failure rs H)
    as [[_ E] | (Hne & HE & HL & F)].
  - destruct (Hf _ E) as (H1 & H2 & H3). rewrite H1, H2.
    split; [tauto |]. split; [constructor | reflexivity].
  - split; [| split; [| exact HL]].
    + rewrite HE. split; [contradiction |]. intro Hnil. rewrite Hnil in F.
      inversion F. subst. contradiction.
    + clear H HL HE Hne. induction F as [| x r' l l' (t & Ht & ->) _ IH]; constructor.
      * exists x, t. auto.
      * exact IH.
Qed.

(** C9, as the code has it: on a receiver that holds a node, every
    single result returned by [Find], [FindStrict], [Title] and the four
    sibling methods holds either a node of the document with no error,
    or an error with no node, never both and never neither; a
    collection returned by [FindAll] or [FindAllStrict] has an error
    exactly when its sequence is empty, its elements hold nodes and its
    count is the length of the sequence; [Children] returns the
    children in a collection whose error is never set, also when the
    sequence is empty.  All these calls return on well-formed
    queries. *)
Theorem C9_result_shapes :
  forall (doc : html.Node) (r : Root.t) (a : Addr) (t : html.Node),
    Root.Node r = Some a -> deref doc a = Some t ->
    (forall args r',
        Find doc r args = Ok r' \/ FindStrict doc r args = Ok r' \/ Title doc r = Ok r'
        \/ FindNextSibling doc r = Ok r' \/ FindPrevSibling doc r = Ok r'
        \/ FindNextElementSibling doc r = Ok r' \/ FindPrevElementSibling doc r = Ok r' ->
        wellFormed doc r' /\ ~ (holdsNode doc r' /\ holdsError r'))
    /\ (forall args rs,
           FindAll doc r args = Ok rs \/ FindAllStrict doc r args = Ok rs ->
           (Roots.Error rs <> None <-> Roots.Roots rs = [])
           /\ Forall (holdsNode doc) (Roots.Roots rs)
           /\ Roots.Len rs = Z.of_nat (length (Roots.Roots rs)))
    /\ (exists rs,
           Children doc r = Ok rs
           /\ Roots.Error rs = None
           /\ Forall (holdsNode doc) (Roots.Roots rs)
           /\ Roots.Len rs = Z.of_nat (length (Roots.Roots rs))
           /\ length (Roots.Roots rs) = length (html.Children t))
    /\ (forall q,
           (exists r1, Find doc r (args_of q) = Ok r1)
           /\ (exists r2, FindStrict doc r (args_of q) = Ok r2)
           /\ (exists rs1, FindAll doc r (args_of q) = Ok rs1)
           /\ (exists rs2, FindAllStrict doc r (args_of q) = Ok rs2))
    /\ (exists r0, Title doc r = Ok r0)
    /\ (exists r1, FindNextSibling doc r = Ok r1)
    /\ (exists r2, FindPrevSibling doc r = Ok r2)
    /\ (exists r3, FindNextElementSibling doc r = Ok r3)
    /\ (exists r4, FindPrevElementSibling doc r = Ok r4).
Proof.
  intros doc r a t Hr Ha.
  split; [| split; [| split; [| split; [| split]]]].
  - intros args r' H. split; [| apply holds_exclusive].
    destruct H as [H | [H | [H | H]]];
      [apply (single_wellFormed doc _ r' H) ..
      | exact (navigation_wellFormed doc r a t r' Hr Ha H)].
  - intros args rs [H | H]; unfold FindAll, FindAllStrict in H;
      destruct (outcome (findAllofem doc (Root.Node r) args _)) as [temp | e];
      try discriminate; cbn [rbind] in H;
      refine (collection_shape doc temp _ rs _ H).
    + intros rs' [= <-]. repeat split. discriminate.
    + intros rs'. destruct (index args 0); [| discriminate].
      intros [= <-]. repeat split. discriminate.
  - unfold Children, load. rewrite Hr, Ha. cbn [rbind fst snd].
    eexists. split; [reflexivity |].
    destruct (Children_loop_shape doc a (html.Children t) 0 [] (Roots.mk [] 0 None))
      as (H1 & H2 & H3 & H4); try reflexivity.
    + intros k c Hk. cbn [Nat.add]. rewrite deref_child, Ha. exact Hk.
    + constructor.
    + cbv zeta in *. auto.
  - intro q. exact (queries_return doc r a t q Hr Ha).
  - exact (proj1 (proj2 (queries_return doc r a t (mkQuery "title" None) Hr Ha))).
  - exact (navigation_returns doc r a t Hr Ha).
Qed.

Lemma C9_result_shapes_witness :
  (Root.Node Sample.root = Some [0]
   /\ deref Sample.doc [0]
      = Some (Sample.elem "html" [] [Sample.elem "head" [] []; Sample.body]))
  /\ exists rs, Children Sample.doc Sample.root = Ok rs /\ Roots.Error rs = None.
Proof.
  split; [split; reflexivity |].
  destruct (C9_result_shapes Sample.doc Sample.root [0]
              (Sample.elem "html" [] [Sample.elem "head" [] []; Sample.body])
              eq_refl eq_refl)
    as (_ & _ & (rs & H1 & H2 & _) & _).
  exists rs. split; assumption.
Defined.

(** C9 as stated fails for [Children]: on the [head] element of the
    sample document, which has no child, the sequence is empty and the
    error is null. *)
Lemma C9_Children_of_leaf_has_no_error :
  exists rs,
    Children Sample.doc (Sample.at_ [0; 0] "head") = Ok rs
    /\ Roots.Roots rs = []
    /\ ~ (Roots.Error rs <> None <-> Roots.Roots rs = []).
Proof.
  eexists. split; [reflexivity |]. split; [reflexivity |].
  cbn. intros [_ H]. apply H; reflexivity.
Qed.

(* ===================================================================== *)
(** * First and Last                                                       *)
(* ===================================================================== *)

Lemma nth_error_last {A : Type} (l : list A) (d : A) :
  l <> [] -> nth_error l (length l - 1) = Some (last l d).
Proof.
  induction l as [| x l IH]; [contradiction |]. intros _.
  destruct l as [| y l]; [reflexivity |].
  cbn [length last] in *. rewrite <- IH by discriminate.
  replace (S (S (length l)) - 1) with (S (S (length l) - 1)) by lia. reflexivity.
Qed.

(** C10: [First] and [Last] index the sequence at 0 and at [Len - 1]
    without a guard.  On a collection whose sequence is empty, whatever
    its count, both index out of range; one that returns has a
    non-empty sequence; on a non-empty sequence whose count is its
    length (an [int]) they return its first and its last element.  In
    particular both panic on the result of a [FindAll] or
    [FindAllStrict] that found nothing. *)
Theorem C10_First_Last_unguarded :
  forall (rs : Roots.t),
    (Roots.Roots rs = [] ->
     First rs = Panic IndexOutOfRange /\ Last rs = Panic IndexOutOfRange)
    /\ (forall r, First rs = Ok r \/ Last rs = Ok r -> Roots.Roots rs <> [])
    /\ (forall r0 rest,
           Roots.Roots rs = r0 :: rest ->
           Roots.Len rs = Z.of_nat (length (Roots.Roots rs)) ->
           (Roots.Len rs < 2 ^ 63)%Z ->
           First rs = Ok r0 /\ Last rs = Ok (last (Roots.Roots rs) r0))
    /\ (forall doc r args,
           (FindAll doc r args = Ok rs \/ FindAllStrict doc r args = Ok rs) ->
           Roots.Error rs <> None ->
           First rs = Panic IndexOutOfRange /\ Last rs = Panic IndexOutOfRange).
Proof.
  intro rs.
  assert (Hempty : Roots.Roots rs = [] ->
                   First rs = Panic IndexOutOfRange /\ Last rs = Panic IndexOutOfRange).
  { intro H. unfold First, Last, indexZ, index. rewrite H. split; [reflexivity |].
    destruct (_ <? 0)%Z; [reflexivity |].
    destruct (Z.to_nat _); reflexivity. }
  split; [exact Hempty |]. split; [| split].
  - intros r H Hnil. destruct (Hempty Hnil) as [H1 H2].
    destruct H as [H | H]; congruence.
  - intros r0 rest HR HL Hint. unfold First, Last, indexZ, index.
    rewrite HL in Hint |- *. rewrite HR in Hint |- *.
    split; [reflexivity |].
    cbn [length] in Hint |- *.
    assert (Hw : int (Z.of_nat (S (length rest)) - 1) = Z.of_nat (length rest)).
    { unfold int. rewrite Z.mod_small; lia. }
    rewrite Hw.
    destruct (_ <? 0)%Z eqn:E; [apply Z.ltb_lt in E; lia |].
    replace (Z.to_nat (Z.of_nat (length rest))) with (length (r0 :: rest) - 1)
      by (cbn [length]; lia).
    rewrite (nth_error_last (r0 :: rest) r0) by discriminate. reflexivity.
  - intros doc r args H HE. apply Hempty.
    assert (S : forall temp failure,
               (forall rs', failure = Ok rs' -> Roots.Roots rs' = []) ->
               (if (length temp =? 0)%nat then failure
                else Nodes <- wrapAll doc temp ;;
                     Ok (Roots.mk Nodes (Z.of_nat (length temp)) None)) = Ok rs ->
               Roots.Roots rs = []).
    { intros temp failure Hf H0.
      destruct (collect_inv doc temp failure rs H0) as [[_ E] | (_ & E & _)];
        [exact (Hf _ E) | contradiction]. }
    destruct H as [H | H]; unfold FindAll, FindAllStrict in H;
      destruct (outcome (findAllofem doc (Root.Node r) args _)) as [temp | e];
      try discriminate; cbn [rbind] in H; refine (S temp _ _ H).
    + intros rs' [= <-]. reflexivity.
    + intros rs'. destruct (index args 0); [| discriminate].
      intros [= <-]. reflexivity.
Qed.

Lemma C10_First_Last_unguarded_witness :
  Roots.Roots (Roots.mk [] 0 None) = []
  /\ First (Roots.mk [] 0 None) = Panic IndexOutOfRange
  /\ Last (Roots.mk [] 0 None) = Panic IndexOutOfRange.
Proof.
  split; [reflexivity |].
  apply (C10_First_Last_unguarded (Roots.mk [] 0 None)). reflexivity.
Defined.

(* ===================================================================== *)
(** * FullText and Text                                                    *)
(* ===================================================================== *)

Lemma FullText_f_eq n buf :
  FullText_f n buf
  = let buf1 := if html.NodeType_eqb (html.Type' n) html.TextNode
                then (buf ++ html.Data n)%string else buf in
    if html.NodeType_eqb (html.Type' n) html.ElementNode
    then FullText_chain (html.Children n) buf1
    else buf1.
Proof.
  destruct n as [ty d attrs cs]; cbn [FullText_f html.Type' html.Data html.Children].
  cbv zeta. destruct (html.NodeType_eqb ty html.ElementNode); [| reflexivity].
  generalize (if html.NodeType_eqb ty html.TextNode then (buf ++ d)%string else buf).
  induction cs as [| c rest IH]; intro b; [reflexivity |].
  cbn [FullText_chain]. apply IH.
Qed.

Lemma texts_app l1 l2 : texts (l1 ++ l2) = (texts l1 ++ texts l2)%string.
Proof.
  induction l1 as [| x l1 IH]; [reflexivity |].
  cbn [app texts]. rewrite IH.
  destruct (html.NodeType_eqb _ _); [rewrite string_app_assoc |]; reflexivity.
Qed.

Lemma NodeType_eqb_eq a b : html.NodeType_eqb a b = true <-> a = b.
Proof. destruct a, b; cbn; split; intro H; try reflexivity; discriminate. Qed.

Lemma FullText_chain_texts cs :
  Forall (fun c => forall p buf,
              onlyElementsNest ((p, c) :: descendants c p) ->
              FullText_f c buf = (buf ++ texts ((p, c) :: descendants c p))%string) cs ->
  forall n i buf,
    onlyElementsNest (descendants_children cs n i) ->
    FullText_chain cs buf = (buf ++ texts (descendants_children cs n i))%string.
Proof.
  induction 1 as [| c rest Hc _ IH]; intros n i buf Hshape.
  - cbn. rewrite string_app_nil_r. reflexivity.
  - cbn [FullText_chain descendants_children] in *.
    unfold onlyElementsNest in Hshape.
    change ((n ++ [i], c) :: descendants c (n ++ [i]) ++ descendants_children rest n (S i))
      with (((n ++ [i], c) :: descendants c (n ++ [i])) ++ descendants_children rest n (S i))
      in Hshape |- *.
    apply Forall_app in Hshape. destruct Hshape as [H1 H2].
    rewrite (Hc (n ++ [i]) buf H1), (IH n (S i) _ H2), texts_app, string_app_assoc.
    reflexivity.
Qed.

Lemma FullText_f_texts c :
  forall p buf,
    onlyElementsNest ((p, c) :: descendants c p) ->
    FullText_f c buf = (buf ++ texts ((p, c) :: descendants c p))%string.
Proof.
  induction c as [ty d attrs cs IH] using Node_ind; intros p buf Hshape.
  rewrite FullText_f_eq. cbv zeta. rewrite descendants_eq in Hshape |- *.
  cbn [texts snd html.Type' html.Data html.Children] in Hshape |- *.
  apply Forall_cons_iff in Hshape. destruct Hshape as [Hroot Hrest].
  cbn [snd html.Type' html.Children] in Hroot.
  destruct (html.NodeType_eqb ty html.ElementNode) eqn:Ee.
  - apply NodeType_eqb_eq in Ee. subst ty. cbn [html.NodeType_eqb].
    apply (FullText_chain_texts cs IH p 0 buf Hrest).
  - assert (Hcs : cs = []).
    { apply Hroot. intro E. subst ty. discriminate. }
    subst cs. cbn [descendants_children texts].
    destruct (html.NodeType_eqb ty html.TextNode); rewrite string_app_nil_r; reflexivity.
Qed.

(** X1. FullText: where only elements have children below the node, as in
    every tree of the parser, [FullText] is the contents of all the
    text nodes below the node, joined in document order. *)
Theorem X1_FullText_joins_text_descendants :
  forall (doc : html.Node) (r : Root.t) (a : Addr) (t : html.Node),
    Root.Node r = Some a -> deref doc a = Some t ->
    onlyElementsNest (descendants t a) ->
    FullText doc r = Ok (texts (descendants t a)).
Proof.
  intros doc r a t Hr Ha Hshape. unfold FullText, load. rewrite Hr, Ha. cbn [rbind snd].
  rewrite descendants_eq in Hshape |- *.
  rewrite (FullText_chain_texts (html.Children t)) with (n := a) (i := 0);
    [reflexivity | | exact Hshape].
  apply Forall_forall. intros c _. apply FullText_f_texts.
Qed.

Lemma X1_FullText_joins_text_descendants_witness :
  (Root.Node (Sample.at_ [0; 1; 0; 0] "li") = Some [0; 1; 0; 0]
   /\ deref Sample.doc [0; 1; 0; 0] = Some Sample.li_text_first
   /\ onlyElementsNest (descendants Sample.li_text_first [0; 1; 0; 0]))
  /\ FullText Sample.doc (Sample.at_ [0; 1; 0; 0] "li") = Ok "To a JSP page right?".
Proof.
  assert (H : onlyElementsNest (descendants Sample.li_text_first [0; 1; 0; 0])).
  { unfold onlyElementsNest. cbn.
    repeat (constructor; [cbn; intro E; first [reflexivity | contradiction E; reflexivity] |]).
    constructor. }
  split; [split; [reflexivity | split; [reflexivity | exact H]] |].
  exact (X1_FullText_joins_text_descendants Sample.doc (Sample.at_ [0; 1; 0; 0] "li")
           [0; 1; 0; 0] Sample.li_text_first eq_refl eq_refl H).
Defined.

Lemma FullText_f_extends n :
  forall buf, FullText_f n buf = (buf ++ FullText_f n "")%string.
Proof.
  induction n as [ty d attrs cs IH] using Node_ind; intro buf.
  rewrite !FullText_f_eq. cbv zeta. cbn [html.Type' html.Data html.Children].
  assert (Hchain : forall b, FullText_chain cs b = (b ++ FullText_chain cs "")%string).
  { induction IH as [| c rest Hc _ IHrest]; intro b.
    - cbn. rewrite string_app_nil_r. reflexivity.
    - cbn [FullText_chain]. rewrite IHrest, (IHrest (FullText_f c "")), (Hc b).
      rewrite string_app_assoc. reflexivity. }
  destruct (html.NodeType_eqb ty html.ElementNode);
    destruct (html.NodeType_eqb ty html.TextNode); cbn [append].
  - rewrite (Hchain (buf ++ d)%string), (Hchain d), string_app_assoc. reflexivity.
  - exact (Hchain buf).
  - reflexivity.
  - rewrite string_app_nil_r. reflexivity.
Qed.

Lemma FullText_chain_extends cs :
  forall buf, FullText_chain cs buf = (buf ++ FullText_chain cs "")%string.
Proof.
  induction cs as [| c rest IH]; intro buf.
  - cbn. rewrite string_app_nil_r. reflexivity.
  - cbn [FullText_chain]. rewrite IH, (IH (FullText_f c "")), (FullText_f_extends c buf).
    rewrite string_app_assoc. reflexivity.
Qed.

(** X2. Text and FullText: where the first child is a text node that is
    not blank, [Text] returns its content and [FullText] begins with
    it. *)
Theorem X2_Text_is_prefix_of_FullText :
  forall (doc : html.Node) (r : Root.t) (a : Addr) (t k : html.Node) (rest : list html.Node),
    Root.Node r = Some a -> deref doc a = Some t ->
    html.Children t = k :: rest ->
    html.Type' k = html.TextNode ->
    regexp.MatchString_only_space (html.Data k) = false ->
    Text doc r = Ok (html.Data k)
    /\ FullText doc r = Ok (html.Data k ++ FullText_chain rest "")%string.
Proof.
  intros doc r a t k rest Hr Ha Hc Hk Hb.
  split; [exact (Text_first_child_text doc r a t k rest Hr Ha Hc Hk Hb) |].
  unfold FullText, load. rewrite Hr, Ha. cbn [rbind snd]. rewrite Hc.
  cbn [FullText_chain]. rewrite FullText_chain_extends, FullText_f_eq. cbv zeta.
  rewrite Hk. reflexivity.
Qed.

Lemma X2_Text_is_prefix_of_FullText_witness :
  (Root.Node (Sample.at_ [0; 1; 0; 0] "li") = Some [0; 1; 0; 0]
   /\ deref Sample.doc [0; 1; 0; 0] = Some Sample.li_text_first)
  /\ Text Sample.doc (Sample.at_ [0; 1; 0; 0] "li") = Ok "To a ".
Proof.
  split; [split; reflexivity |].
  apply (X2_Text_is_prefix_of_FullText Sample.doc (Sample.at_ [0; 1; 0; 0] "li")
           [0; 1; 0; 0] Sample.li_text_first (Sample.text "To a ")
           [Sample.elem "a" [Sample.attr "href" "hello.jsp"] [Sample.text "JSP page"];
            Sample.text " right?"]); reflexivity.
Defined.

Lemma Text_f_ok k sibs : sibs <> [] -> exists s, Text_f (Some k) sibs = Ok s.
Proof. intro H. exact (Text_f_returns k (length sibs) sibs (le_n _) H). Qed.

(** X3. Text: on a result that holds a node, [Text] always returns, and
    its value is fixed by the first child alone and by whether one or
    two siblings follow it: it is the data of the first child or the
    empty string, never the content of a later child. *)
Theorem X3_Text_depends_on_first_child_only :
  forall (doc : html.Node) (r : Root.t) (a : Addr) (t : html.Node),
    Root.Node r = Some a -> deref doc a = Some t ->
    Text doc r
    = Ok match html.Children t with
         | [] => ""
         | k :: rest =>
             let blank := regexp.MatchString_only_space (html.Data k) in
             if html.NodeType_eqb (html.Type' k) html.TextNode then
               match rest with
               | [] => if blank then "" else html.Data k
               | _ :: _ => html.Data k
               end
             else
               match rest with
               | [] => ""
               | [_] => if blank then "" else html.Data k
               | _ :: _ :: _ => html.Data k
               end
         end.
Proof.
  intros doc r a t Hr Ha. unfold Text, load. rewrite Hr, Ha. cbn [rbind snd].
  destruct (html.Children t) as [| k rest]; [reflexivity |].
  cbn [hd_error Text_f]. cbv zeta.
  destruct (html.NodeType_eqb (html.Type' k) html.TextNode); cbn [negb].
  - destruct (regexp.MatchString_only_space (html.Data k)).
    + destruct rest as [| n1 rest1]; [reflexivity |].
      destruct (Text_f_ok k (n1 :: rest1)) as (s & ->); [discriminate |]. reflexivity.
    + destruct rest; reflexivity.
  - destruct rest as [| n1 rest1]; [reflexivity |].
    destruct (Text_f_ok k (n1 :: rest1)) as (s & ->); [discriminate |]. cbn [rbind].
    destruct (regexp.MatchString_only_space (html.Data k)).
    + destruct rest1 as [| n2 rest2]; [reflexivity |].
      destruct (Text_f_ok k (n2 :: rest2)) as (s2 & ->); [discriminate |]. reflexivity.
    + destruct rest1; reflexivity.
Qed.

Lemma X3_Text_depends_on_first_child_only_witness :
  (Root.Node (Sample.at_ [0; 1; 0; 1] "li") = Some [0; 1; 0; 1]
   /\ deref Sample.doc [0; 1; 0; 1] = Some Sample.li_elem_first)
  /\ Text Sample.doc (Sample.at_ [0; 1; 0; 1] "li") = Ok "a".
Proof.
  split; [split; reflexivity |].
  exact (X3_Text_depends_on_first_child_only Sample.doc (Sample.at_ [0; 1; 0; 1] "li")
           [0; 1; 0; 1] Sample.li_elem_first eq_refl eq_refl).
Defined.

(* ===================================================================== *)
(** * Attrs                                                                *)
(* ===================================================================== *)

Lemma gomap_lookup_store m k v k' :
  gomap.lookup (gomap.store m k v) k'
  = if (k =? k')%string then Some v else gomap.lookup m k'.
Proof.
  induction m as [| [k0 v0] m IH]; cbn [gomap.store gomap.lookup].
  - reflexivity.
  - destruct (String.eqb_spec k0 k) as [-> | Hne]; cbn [gomap.lookup].
    + destruct (k =? k')%string; reflexivity.
    + rewrite IH. destruct (String.eqb_spec k0 k') as [-> | Hne'];
        [| reflexivity].
      destruct (String.eqb_spec k k') as [-> | _]; [contradiction | reflexivity].
Qed.

Lemma gomap_store_keys m k v :
  gomap.lookup m k = None -> NoDup (map fst m) -> NoDup (map fst (gomap.store m k v))
  /\ map fst (gomap.store m k v) = map fst m ++ [k].
Proof.
  induction m as [| [k0 v0] m IH]; cbn [gomap.store gomap.lookup map fst app].
  - intros _ _. split; [repeat constructor; intros [] | reflexivity].
  - destruct (String.eqb_spec k0 k) as [-> | Hne]; [discriminate |].
    intros Hk Hnd. inversion Hnd as [| ? ? Hnotin Hnd']; subst.
    destruct (IH Hk Hnd') as [H1 H2]. cbn [map fst]. rewrite H2. split; [| reflexivity].
    rewrite <- H2. constructor; [| exact H1]. rewrite H2. intro Hin.
    apply in_app_or in Hin. destruct Hin as [Hin | [E | []]]; [contradiction | congruence].
Qed.

Lemma getKeyValue_loop_lookup attrs :
  forall m k,
    gomap.lookup (getKeyValue_loop attrs m) k
    = match gomap.lookup m k with
      | Some v => Some v
      | None => firstValue attrs k
      end.
Proof.
  induction attrs as [| attr rest IH]; intros m k; cbn [getKeyValue_loop firstValue].
  - destruct (gomap.lookup m k); reflexivity.
  - destruct (gomap.lookup m (html.Key attr)) as [v0 |] eqn:E.
    + rewrite IH. destruct (gomap.lookup m k) eqn:Ek; [reflexivity |].
      destruct (String.eqb_spec (html.Key attr) k) as [E' | _]; [congruence | reflexivity].
    + rewrite IH, gomap_lookup_store.
      destruct (String.eqb_spec (html.Key attr) k) as [E' | _]; [| reflexivity].
      rewrite <- E', E. reflexivity.
Qed.

Lemma getKeyValue_loop_keys attrs :
  forall m, NoDup (map fst m) -> NoDup (map fst (getKeyValue_loop attrs m)).
Proof.
  induction attrs as [| attr rest IH]; intros m Hnd; cbn [getKeyValue_loop]; [exact Hnd |].
  destruct (gomap.lookup m (html.Key attr)) eqn:E; [apply IH; exact Hnd |].
  apply IH. apply gomap_store_keys; assumption.
Qed.

Lemma firstValue_None attrs k :
  firstValue attrs k = None <-> ~ In k (map html.Key attrs).
Proof.
  induction attrs as [| attr rest IH]; cbn [firstValue map In]; [tauto |].
  destruct (String.eqb_spec (html.Key attr) k) as [-> | Hne].
  - split; [discriminate | tauto].
  - rewrite IH. tauto.
Qed.

(** X4. Attrs: on a result that holds a node, [Attrs] returns a map
    with one entry for each attribute name of the node; the value
    under a name is the value of the first attribute of that name, and
    a name the node does not carry is read as the empty string.  The
    map is nil exactly for a node that is not an element and has no
    attribute. *)
Theorem X4_Attrs_first_attribute_wins :
  forall (doc : html.Node) (r : Root.t) (a : Addr) (t : html.Node),
    Root.Node r = Some a -> deref doc a = Some t ->
    exists m,
      Attrs doc r = Ok m
      /\ (forall k, gomap.at_ m k = match firstValue (html.Attr t) k with
                                    | Some v => v
                                    | None => ""
                                    end)
      /\ (forall entries, m = Some entries ->
            NoDup (map fst entries)
            /\ (forall k, gomap.lookup entries k = firstValue (html.Attr t) k)
            /\ (forall k, gomap.lookup entries k = None
                          <-> ~ In k (map html.Key (html.Attr t))))
      /\ (m = None <-> isElement t = false /\ html.Attr t = []).
Proof.
  intros doc r a t Hr Ha. unfold Attrs, load. rewrite Hr, Ha. cbn [rbind snd]. cbv zeta.
  unfold isElement.
  assert (L : forall k, gomap.lookup (getKeyValue (html.Attr t)) k
                        = firstValue (html.Attr t) k)
    by (intro k; unfold getKeyValue; rewrite getKeyValue_loop_lookup; reflexivity).
  destruct (html.NodeType_eqb (html.Type' t) html.ElementNode) eqn:Ee; cbn [negb andb].
  - eexists. split; [reflexivity |]. split; [| split].
    + intro k. cbn [gomap.at_]. rewrite L. reflexivity.
    + intros entries [= <-]. split; [apply getKeyValue_loop_keys; constructor |].
      split; [exact L |]. intro k. rewrite L. apply firstValue_None.
    + split; [discriminate | intros [H _]; discriminate].
  - destruct (html.Attr t) as [| attr rest] eqn:Eattr; cbn [length Nat.eqb].
    + eexists. split; [reflexivity |]. split; [reflexivity |].
      split; [discriminate | tauto].
    + eexists. split; [reflexivity |]. split; [| split].
      * intro k. cbn [gomap.at_]. rewrite L. reflexivity.
      * intros entries [= <-]. split; [apply getKeyValue_loop_keys; constructor |].
        split; [exact L |]. intro k. rewrite L. apply firstValue_None.
      * split; [discriminate | intros [_ H]; discriminate].
Qed.

Lemma X4_Attrs_first_attribute_wins_witness :
  (Root.Node (Sample.at_ [0; 1; 1] "div") = Some [0; 1; 1]
   /\ deref Sample.doc [0; 1; 1] = Some Sample.div_twice)
  /\ exists m, Attrs Sample.doc (Sample.at_ [0; 1; 1] "div") = Ok m
               /\ gomap.at_ m "class" = "a b".
Proof.
  split; [split; reflexivity |].
  destruct (X4_Attrs_first_attribute_wins Sample.doc (Sample.at_ [0; 1; 1] "div")
              [0; 1; 1] Sample.div_twice eq_refl eq_refl) as (m & E & H & _).
  exists m. split; [exact E |]. rewrite H. reflexivity.
Defined.

Lemma scan_found P l p :
  snd (scan P l) = Some p -> exists c, In (p, c) l /\ P c = true.
Proof.
  induction l as [| [a t] l IH]; cbn [scan]; [discriminate |].
  destruct (P t) eqn:E; cbn [snd].
  - intros [= <-]. exists t. split; [left; reflexivity | exact E].
  - intro H. destruct (IH H) as (c & Hc & Hp). exists c. split; [right; exact Hc | exact Hp].
Qed.

(** A node returned by a single-result search on a well-formed query
    satisfies the query. *)
Lemma found_node_matches doc r a t q (strict : bool) r' p :
  Root.Node r = Some a -> deref doc a = Some t ->
  (if strict then FindStrict doc r (args_of q) else Find doc r (args_of q)) = Ok r' ->
  Root.Node r' = Some p ->
  exists c, In (p, c) (descendants t a) /\ deref doc p = Some c
            /\ matches q strict c = true
            /\ r' = Root.mk (Some p) (html.Data c) None.
Proof.
  intros Hr Ha H Hp.
  assert (H' : (temp <- outcome (findOnce doc (Some a) (args_of q) false strict) ;;
                match temp with
                | None => Ok notFound
                | Some a => rootAt doc a
                end) = Ok r').
  { destruct strict; unfold Find, FindStrict in H; rewrite Hr in H; exact H. }
  rewrite (findOnce_live _ _ _ (args_of q) false strict Ha) in H'.
  rewrite (findOnce_tree_scan q strict t a false) in H'. cbn [outcome snd rbind] in H'.
  unfold range in H'. cbn [app] in H'.
  destruct (snd (scan (matches q strict) (descendants t a))) as [p' |] eqn:E.
  - destruct (scan_found _ _ _ E) as (c & Hin & Hm).
    pose proof (descendants_live doc a t p' c Ha Hin) as Hlive.
    rewrite (rootAt_live _ _ _ Hlive) in H'. injection H' as <-.
    cbn [Root.Node] in Hp. injection Hp as <-. exists c. auto.
  - injection H' as <-. discriminate.
Qed.

Lemma firstValue_unique attrs attr :
  NoDup (map html.Key attrs) -> In attr attrs ->
  firstValue attrs (html.Key attr) = Some (html.Val attr).
Proof.
  induction attrs as [| attr0 rest IH]; cbn [map firstValue In]; [tauto |].
  intros Hnd Hin. inversion Hnd as [| ? ? Hnotin Hnd']; subst.
  destruct Hin as [-> | Hin]; [rewrite String.eqb_refl; reflexivity |].
  destruct (String.eqb_spec (html.Key attr0) (html.Key attr)) as [E | _]; [| auto].
  exfalso. apply Hnotin. rewrite E. apply in_map. exact Hin.
Qed.

Lemma attributeContainsValue_token attr name value :
  attributeContainsValue attr name value = true ->
  In value (strings.Fields (html.Val attr)).
Proof.
  unfold attributeContainsValue. destruct (_ =? _)%string; [| discriminate].
  apply containsField_In.
Qed.

Lemma attributeAndValueEquals_value attr name value :
  attributeAndValueEquals attr name value = true -> html.Val attr = value.
Proof.
  unfold attributeAndValueEquals. intro H. apply andb_true_iff in H.
  apply String.eqb_eq. tauto.
Qed.

(** X5. Attrs of a found node: the node returned by [Find] or
    [FindStrict] for a query with the constraint [(name, value)]
    carries [name] in its attribute map.  Where the node does not
    repeat an attribute name, the value under [name] is [value] for
    [FindStrict] and has [value] among its tokens for [Find]. *)
Theorem X5_found_node_carries_constraint :
  forall (doc : html.Node) (r : Root.t) (a : Addr) (t : html.Node)
         (tg name value : string) (strict : bool) (r' : Root.t) (p : Addr),
    Root.Node r = Some a -> deref doc a = Some t ->
    (if strict then FindStrict doc r [tg; name; value]
     else Find doc r [tg; name; value]) = Ok r' ->
    Root.Node r' = Some p ->
    exists c entries,
      deref doc p = Some c
      /\ Attrs doc r' = Ok (Some entries)
      /\ gomap.lookup entries name <> None
      /\ (NoDup (map html.Key (html.Attr c)) ->
          exists v, gomap.lookup entries name = Some v
                    /\ if strict then v = value else In value (strings.Fields v)).
Proof.
  intros doc r a t tg name value strict r' p Hr Ha H Hp.
  destruct (found_node_matches doc r a t (mkQuery tg (Some (name, value))) strict r' p
              Hr Ha H Hp) as (c & _ & Hlive & Hm & ->).
  unfold matches, candidate in Hm. cbn [constraint tag] in Hm.
  apply andb_true_iff in Hm. destruct Hm as [Hcand Hex].
  apply andb_true_iff in Hcand. destruct Hcand as [Helem _].
  apply existsb_exists in Hex. destruct Hex as (attr & Hin & Htest).
  pose proof (attrTest_key _ _ _ _ Htest) as Hkey.
  assert (L : forall k, gomap.lookup (getKeyValue (html.Attr c)) k
                        = firstValue (html.Attr c) k)
    by (intro k; unfold getKeyValue; rewrite getKeyValue_loop_lookup; reflexivity).
  exists c, (getKeyValue (html.Attr c)).
  split; [exact Hlive |]. split; [| split].
  - unfold Attrs, load. cbn [Root.Node]. rewrite Hlive. cbn [rbind snd]. cbv zeta.
    rewrite Helem. reflexivity.
  - rewrite L. intro Hnone. apply firstValue_None in Hnone. apply Hnone.
    rewrite <- Hkey. apply in_map. exact Hin.
  - intro Hnd. exists (html.Val attr). rewrite L, <- Hkey.
    split; [apply firstValue_unique; assumption |].
    unfold attrTest in Htest. destruct strict; cbn [negb andb orb] in Htest.
    + rewrite orb_false_r in Htest.
      apply (attributeAndValueEquals_value attr name value Htest).
    + apply (attributeContainsValue_token attr name value Htest).
Qed.

Lemma X5_found_node_carries_constraint_witness :
  (Root.Node Sample.root = Some [0]
   /\ deref Sample.doc [0]
      = Some (Sample.elem "html" [] [Sample.elem "head" [] []; Sample.body])
   /\ Find Sample.doc Sample.root ["a"; "href"; "hello"]
      = Ok (Sample.at_ [0; 1; 0; 1; 0] "a")
   /\ Root.Node (Sample.at_ [0; 1; 0; 1; 0] "a") = Some [0; 1; 0; 1; 0])
  /\ exists entries,
      Attrs Sample.doc (Sample.at_ [0; 1; 0; 1; 0] "a") = Ok (Some entries)
      /\ gomap.lookup entries "href" <> None.
Proof.
  split; [repeat split; reflexivity |].
  destruct (X5_found_node_carries_constraint Sample.doc Sample.root [0]
              (Sample.elem "html" [] [Sample.elem "head" [] []; Sample.body])
              "a" "href" "hello" false (Sample.at_ [0; 1; 0; 1; 0] "a") [0; 1; 0; 1; 0]
              eq_refl eq_refl eq_refl eq_refl)
    as (c & entries & _ & E & H & _).
  exists entries. split; assumption.
Defined.

(* ===================================================================== *)
(** * How the searches relate                                              *)
(* ===================================================================== *)

Lemma record_scan q strict l :
  match snd (scan (matches q strict) l) with
  | Some p => exists rest, record q strict l = p :: rest
  | None => record q strict l = []
  end.
Proof.
  induction l as [| [a t] l IH]; cbn [scan]; [reflexivity |].
  unfold record in *. cbn [flat_map fst snd]. rewrite recorded_matches.
  destruct (recorded q strict t) as [| k]; cbn [Nat.eqb negb snd repeat app].
  - exact IH.
  - eexists. reflexivity.
Qed.

Lemma wrapAll_cons doc p c rest :
  deref doc p = Some c ->
  wrapAll doc (p :: rest)
  = (Nodes <- wrapAll doc rest ;; Ok (Root.mk (Some p) (html.Data c) None :: Nodes)).
Proof.
  intro H. cbn [wrapAll]. unfold DataAt, load. rewrite H. reflexivity.
Qed.

Lemma Find_First_FindAll_generic doc a t q strict (failure : result Roots.t) :
  deref doc a = Some t ->
  (exists rs0, failure = Ok rs0 /\ Roots.Roots rs0 = [] /\ Roots.Error rs0 <> None) ->
  exists r1 rs,
    (temp <- outcome (findOnce doc (Some a) (args_of q) false strict) ;;
     match temp with
     | None => Ok notFound
     | Some a => rootAt doc a
     end) = Ok r1
    /\ (temp <- outcome (findAllofem doc (Some a) (args_of q) strict) ;;
        if (length temp =? 0)%nat then failure
        else Nodes <- wrapAll doc temp ;;
             Ok (Roots.mk Nodes (Z.of_nat (length temp)) None)) = Ok rs
    /\ ((Root.Error r1 = None /\ First rs = Ok r1)
        \/ (r1 = notFound /\ Roots.Roots rs = [] /\ Roots.Error rs <> None)).
Proof.
  intros Ha (rs0 & -> & Hnil & Herr).
  rewrite (findOnce_live _ _ _ (args_of q) false strict Ha).
  rewrite (findOnce_tree_scan q strict t a false).
  rewrite (findAllofem_query doc a t q strict Ha).
  cbn [outcome snd rbind]. unfold range. cbn [app].
  pose proof (record_scan q strict (descendants t a)) as Hrs.
  destruct (snd (scan (matches q strict) (descendants t a))) as [p |] eqn:E.
  - destruct Hrs as (rest & Hrec).
    destruct (scan_found _ _ _ E) as (c & Hin & _).
    pose proof (descendants_live doc a t p c Ha Hin) as Hlive.
    destruct (wrapAll_live doc (record q strict (descendants t a))) as (Nodes & HN).
    { apply Forall_forall. intros p' Hp'. destruct (record_In _ _ _ _ Hp') as (c' & Hin').
      rewrite (descendants_live doc a t p' c' Ha Hin'). discriminate. }
    rewrite (rootAt_live _ _ _ Hlive), HN. rewrite Hrec in HN |- *.
    cbn [length Nat.eqb rbind].
    rewrite (wrapAll_cons doc p c rest Hlive) in HN.
    destruct (wrapAll doc rest) as [Nodes' |]; [| discriminate].
    cbn [rbind] in HN. injection HN as <-.
    eexists. eexists. split; [reflexivity |]. split; [reflexivity |].
    left. split; reflexivity.
  - rewrite Hrs. cbn [length Nat.eqb].
    exists notFound, rs0. split; [reflexivity |]. split; [reflexivity |].
    right. auto.
Qed.

(** X6. Find and FindAll: on a result that holds a node and for every
    well-formed query, both calls return, and [Find] returns the result
    that [First] returns on the collection of [FindAll]; [Find] reports
    [ElementNotFound] exactly where the collection of [FindAll] is
    empty and carries its error.  The same holds of [FindStrict] and
    [FindAllStrict]. *)
Theorem X6_Find_is_First_of_FindAll :
  forall (doc : html.Node) (r : Root.t) (a : Addr) (t : html.Node) (q : Query),
    Root.Node r = Some a -> deref doc a = Some t ->
    (exists r1 rs,
        Find doc r (args_of q) = Ok r1 /\ FindAll doc r (args_of q) = Ok rs
        /\ ((Root.Error r1 = None /\ First rs = Ok r1)
            \/ (r1 = notFound /\ Roots.Roots rs = [] /\ Roots.Error rs <> None)))
    /\ (exists r1 rs,
           FindStrict doc r (args_of q) = Ok r1 /\ FindAllStrict doc r (args_of q) = Ok rs
           /\ ((Root.Error r1 = None /\ First rs = Ok r1)
               \/ (r1 = notFound /\ Roots.Roots rs = [] /\ Roots.Error rs <> None))).
Proof.
  intros doc r a t q Hr Ha. unfold Find, FindStrict, FindAll, FindAllStrict. rewrite Hr.
  split.
  - apply (Find_First_FindAll_generic doc a t q false _ Ha).
    eexists. split; [reflexivity |]. split; [reflexivity | discriminate].
  - apply (Find_First_FindAll_generic doc a t q true _ Ha).
    unfold args_of. destruct (constraint q) as [[name value] |];
      cbn [index nth_error rbind];
      (eexists; split; [reflexivity |]; split; [reflexivity | discriminate]).
Qed.

Lemma X6_Find_is_First_of_FindAll_witness :
  (Root.Node Sample.root = Some [0]
   /\ deref Sample.doc [0]
      = Some (Sample.elem "html" [] [Sample.elem "head" [] []; Sample.body]))
  /\ exists r1 rs,
      Find Sample.doc Sample.root ["li"] = Ok r1
      /\ FindAll Sample.doc Sample.root ["li"] = Ok rs
      /\ First rs = Ok r1.
Proof.
  split; [split; reflexivity |].
  destruct (X6_Find_is_First_of_FindAll Sample.doc Sample.root [0]
              (Sample.elem "html" [] [Sample.elem "head" [] []; Sample.body])
              (mkQuery "li" None) eq_refl eq_refl)
    as [(r1 & rs & E1 & E2 & H) _].
  exists r1, rs. split; [exact E1 |]. split; [exact E2 |].
  destruct H as [[_ H] | [H _]]; [exact H |].
  cbv in E1. rewrite H in E1. discriminate E1.
Defined.

Lemma scan_ext P Q l : (forall t, P t = Q t) -> scan P l = scan Q l.
Proof.
  intro H. induction l as [| [a t] l IH]; [reflexivity |].
  cbn [scan]. rewrite H, IH. reflexivity.
Qed.

Lemma matches_tag_only tg strict t :
  matches (mkQuery tg None) strict t = matches (mkQuery tg None) false t.
Proof. reflexivity. Qed.

Lemma findOnce_tag_only doc n tg strict :
  findOnce doc n [tg] false strict = findOnce doc n [tg] false false.
Proof.
  destruct n as [a |]; [| reflexivity].
  destruct (deref doc a) as [t |] eqn:Ha.
  - rewrite !(findOnce_live _ _ _ [tg] false _ Ha).
    change [tg] with (args_of (mkQuery tg None)).
    rewrite !findOnce_tree_scan.
    rewrite (scan_ext (matches (mkQuery tg None) strict) (matches (mkQuery tg None) false));
      [reflexivity | intro; reflexivity].
  - rewrite !(findOnce_dangling _ _ [tg] false _ Ha). reflexivity.
Qed.

Lemma findAllofem_tag_only doc n tg strict :
  findAllofem doc n [tg] strict = findAllofem doc n [tg] false.
Proof.
  destruct n as [a |]; [| reflexivity].
  destruct (deref doc a) as [t |] eqn:Ha.
  - change [tg] with (args_of (mkQuery tg None)).
    rewrite !(findAllofem_query doc a t _ _ Ha). reflexivity.
  - rewrite !(findAllofem_dangling _ _ [tg] _ Ha). reflexivity.
Qed.

(** X7. Strictness without an attribute constraint: for a query that
    gives the tag only, on any receiver, [FindStrict] returns what
    [Find] returns, [Title] is [Find] for the tag [title], and
    [FindAllStrict] and [FindAll] return the same collection whenever
    one of them returns a sequence that is not empty. *)
Theorem X7_strictness_needs_attribute_constraint :
  forall (doc : html.Node) (r : Root.t) (tg : string),
    FindStrict doc r [tg] = Find doc r [tg]
    /\ Title doc r = Find doc r ["title"]
    /\ (forall rs, Roots.Roots rs <> [] ->
                   (FindAllStrict doc r [tg] = Ok rs <-> FindAll doc r [tg] = Ok rs)).
Proof.
  intros doc r tg. split; [| split].
  - unfold FindStrict, Find. rewrite (findOnce_tag_only doc _ tg true). reflexivity.
  - unfold Title, Find. cbv zeta. rewrite (findOnce_tag_only doc _ "title" true).
    reflexivity.
  - intros rs Hne. unfold FindAllStrict, FindAll.
    rewrite (findAllofem_tag_only doc _ tg true).
    destruct (outcome (findAllofem doc (Root.Node r) [tg] false)) as [temp | e];
      cbn [rbind]; [| tauto].
    destruct temp as [| p rest]; cbn [length Nat.eqb index nth_error rbind]; [| tauto].
    split; intros [= <-]; contradiction Hne; reflexivity.
Qed.

(* ===================================================================== *)
(** * Loose values that are not a single token                             *)
(* ===================================================================== *)

Lemma space_width_app f rest :
  strings.space_width f <> 0 -> strings.space_width (f ++ rest) = strings.space_width f.
Proof.
  destruct f as [| c0 [| c1 [| c2 f]]]; cbn [strings.space_width append].
  - intro H. contradiction H. reflexivity.
  - destruct (strings.asciiSpace (strings.byte c0)) eqn:E0;
      [| intro H; contradiction H; reflexivity].
    intros _. destruct rest as [| r0 [| r1 rest]];
      cbn [append strings.space_width]; rewrite ?E0; reflexivity.
  - destruct (strings.asciiSpace (strings.byte c0)) eqn:E0.
    + intros _. destruct rest; cbn [append strings.space_width]; rewrite ?E0; reflexivity.
    + destruct (strings.space2 (strings.byte c0) (strings.byte c1)) eqn:E1;
        [| intro H; contradiction H; reflexivity].
      intros _. destruct rest; cbn [append strings.space_width]; rewrite ?E0, ?E1;
        reflexivity.
  - intros _. reflexivity.
Qed.

Lemma Segments_token s fs :
  Segments s fs -> forall f, In f fs -> f <> "" /\ exists rest, spaceless f rest.
Proof.
  induction 1 as [| w s fs _ _ _ IH | f0 s fs Hf Hsl _ _ IH]; intros f Hin.
  - destruct Hin.
  - exact (IH f Hin).
  - destruct Hin as [<- | Hin]; [split; [exact Hf | exists s; exact Hsl] | exact (IH f Hin)].
Qed.

Lemma spaceless_weaken f rest : spaceless f rest -> spaceless f "".
Proof.
  intros H f1 f2 E Hne. rewrite string_app_nil_r.
  destruct (Nat.eq_dec (strings.space_width f2) 0) as [Hz | Hnz]; [exact Hz |].
  rewrite <- (space_width_app f2 rest Hnz). exact (H f1 f2 E Hne).
Qed.

Lemma Fields_singleToken s value : In value (strings.Fields s) -> singleToken value.
Proof.
  intro Hin. destruct (Segments_token s _ (Fields_Segments s) value Hin) as (Hne & rest & Hsl).
  split; [exact Hne | exact (spaceless_weaken _ _ Hsl)].
Qed.

Lemma singleToken_Fields value : singleToken value -> strings.Fields value = [value].
Proof.
  intros [Hne Hsl]. apply Segments_Fields.
  rewrite <- (string_app_nil_r value) at 1.
  apply Segments_field; [exact Hne | exact Hsl | left; reflexivity | constructor].
Qed.

Lemma loose_needs_singleToken attr name value :
  attributeContainsValue attr name value = true -> singleToken value.
Proof.
  intro H. exact (Fields_singleToken _ _ (attributeContainsValue_token _ _ _ H)).
Qed.

(** X8. A strict match and the loose comparison: an attribute that
    the strict comparison accepts for [(name, value)] is accepted by
    the loose comparison exactly when [value] is a single token, that
    is not empty and free of white space. *)
Theorem X8_strict_match_is_loose_iff_single_token :
  forall (attr : html.Attribute) (name value : string),
    attributeAndValueEquals attr name value = true ->
    (attributeContainsValue attr name value = true <-> singleToken value).
Proof.
  intros attr name value H. split; [apply loose_needs_singleToken |].
  intro Htok. unfold attributeAndValueEquals in H. apply andb_true_iff in H.
  destruct H as [Hk Hv]. apply String.eqb_eq in Hv.
  unfold attributeContainsValue. rewrite Hk, Hv, (singleToken_Fields value Htok).
  cbn [containsField]. rewrite String.eqb_refl. reflexivity.
Qed.

Lemma X8_strict_match_is_loose_iff_single_token_witness :
  attributeAndValueEquals (Sample.attr "class" "a b") "class" "a b" = true
  /\ (attributeContainsValue (Sample.attr "class" "a b") "class" "a b" = true
      <-> singleToken "a b").
Proof.
  split; [reflexivity |].
  apply (X8_strict_match_is_loose_iff_single_token (Sample.attr "class" "a b") "class" "a b").
  reflexivity.
Defined.

Lemma not_singleToken_no_match tg name value t :
  ~ singleToken value -> matches (mkQuery tg (Some (name, value))) false t = false.
Proof.
  intro Hn. unfold matches. cbn [constraint].
  destruct (existsb _ (html.Attr t)) eqn:E; [| apply andb_false_r].
  exfalso. apply existsb_exists in E. destruct E as (attr & _ & Htest).
  unfold attrTest in Htest. cbn [negb andb orb] in Htest.
  exact (Hn (loose_needs_singleToken attr name value Htest)).
Qed.

(** X9. A loose query whose value is not a single token: where the
    value is empty or contains white space, [Find] reports
    [ElementNotFound] and [FindAll] reports [ElementsNotFound] on every
    document, whatever the attributes of its nodes. *)
Theorem X9_loose_value_must_be_single_token :
  forall (doc : html.Node) (r : Root.t) (a : Addr) (t : html.Node) (tg name value : string),
    Root.Node r = Some a -> deref doc a = Some t ->
    ~ singleToken value ->
    Find doc r [tg; name; value] = Ok notFound
    /\ FindAll doc r [tg; name; value]
       = Ok (Roots.mk [] 0
               (Some (newError ErrElementsNotFound "no elements or attriabutes found"))).
Proof.
  intros doc r a t tg name value Hr Ha Hn.
  set (q := mkQuery tg (Some (name, value))).
  assert (Hnone : Forall (fun z => matches q false (snd z) = false) (descendants t a)).
  { apply Forall_forall. intros z _. apply not_singleToken_no_match. exact Hn. }
  unfold Find, FindAll. rewrite Hr.
  change [tg; name; value] with (args_of q).
  rewrite (findOnce_live _ _ _ (args_of q) false false Ha).
  rewrite (findOnce_tree_scan q false t a false).
  rewrite (findAllofem_query doc a t q false Ha).
  unfold range. cbn [app outcome snd rbind].
  pose proof (record_scan q false (descendants t a)) as Hrs.
  rewrite (scan_none _ _ Hnone) in Hrs |- *. cbn [snd] in Hrs |- *.
  rewrite Hrs. split; reflexivity.
Qed.

Lemma X9_loose_value_must_be_single_token_witness :
  (Root.Node Sample.root = Some [0]
   /\ deref Sample.doc [0]
      = Some (Sample.elem "html" [] [Sample.elem "head" [] []; Sample.body])
   /\ ~ singleToken "a b")
  /\ Find Sample.doc Sample.root ["div"; "class"; "a b"] = Ok notFound.
Proof.
  assert (H : ~ singleToken "a b").
  { intros [_ H]. specialize (H "a" " b" eq_refl). cbn in H.
    assert (E : 1 = 0) by (apply H; discriminate). discriminate E. }
  split; [split; [reflexivity | split; [reflexivity | exact H]] |].
  apply (X9_loose_value_must_be_single_token Sample.doc Sample.root [0]
           (Sample.elem "html" [] [Sample.elem "head" [] []; Sample.body])
           "div" "class" "a b" eq_refl eq_refl H).
Defined.

(* ===================================================================== *)
(** * Navigation                                                           *)
(* ===================================================================== *)

(** X10. Sibling round trip: from a result that holds a node,
    [FindNextSibling] followed by [FindPrevSibling] comes back to that
    node, and so does [FindPrevSibling] followed by [FindNextSibling],
    whenever the first step finds a sibling. *)
Theorem X10_sibling_round_trip :
  forall (doc : html.Node) (r : Root.t) (a : Addr) (t : html.Node),
    Root.Node r = Some a -> deref doc a = Some t ->
    (forall r', FindNextSibling doc r = Ok r' -> Root.Error r' = None ->
                FindPrevSibling doc r' = Ok (Root.mk (Some a) (html.Data t) None))
    /\ (forall r', FindPrevSibling doc r = Ok r' -> Root.Error r' = None ->
                   FindNextSibling doc r' = Ok (Root.mk (Some a) (html.Data t) None)).
Proof.
  intros doc r a t Hr Ha.
  unfold FindNextSibling, FindPrevSibling, load. rewrite Hr, Ha. cbn [rbind fst].
  split; intros r' H He.
  - destruct (NextSibling doc a) as [s |] eqn:E; [| injection H as <-; discriminate].
    destruct (rootAt_inv _ _ _ H) as (c & Hc & ->). cbn [Root.Node]. rewrite Hc.
    cbn [rbind fst].
    unfold NextSibling in E. destruct (unsnoc a) as [[q i] |] eqn:Eu; [| discriminate].
    apply unsnoc_Some in Eu. subst a. destruct (live_inv _ _ _ E) as (-> & _).
    unfold PrevSibling, live. rewrite unsnoc_snoc, Ha.
    apply rootAt_live. exact Ha.
  - destruct (PrevSibling doc a) as [s |] eqn:E; [| injection H as <-; discriminate].
    destruct (rootAt_inv _ _ _ H) as (c & Hc & ->). cbn [Root.Node]. rewrite Hc.
    cbn [rbind fst].
    unfold PrevSibling in E. destruct (unsnoc a) as [[q [| i]] |] eqn:Eu; try discriminate.
    apply unsnoc_Some in Eu. subst a. destruct (live_inv _ _ _ E) as (-> & _).
    unfold NextSibling, live. rewrite unsnoc_snoc, Ha.
    apply rootAt_live. exact Ha.
Qed.

Lemma X10_sibling_round_trip_witness :
  (Root.Node (Sample.at_ [0; 0] "head") = Some [0; 0]
   /\ deref Sample.doc [0; 0] = Some (Sample.elem "head" [] []))
  /\ FindPrevSibling Sample.doc (Sample.at_ [0; 1] "body")
     = Ok (Root.mk (Some [0; 0]) "head" None).
Proof.
  split; [split; reflexivity |].
  apply (X10_sibling_round_trip Sample.doc (Sample.at_ [0; 0] "head") [0; 0]
           (Sample.elem "head" [] []) eq_refl eq_refl); reflexivity.
Defined.

Lemma nextElementSibling_nearest cs q :
  forall after i0,
    after = skipn i0 cs ->
    let r' := nextElementSibling after q i0 in
    (exists j e, Root.Node r' = Some (q ++ [j]) /\ i0 <= j /\ nth_error cs j = Some e
                 /\ isElement e = true /\ Root.NodeValue r' = html.Data e
                 /\ Root.Error r' = None
                 /\ forall k c, i0 <= k < j -> nth_error cs k = Some c -> isElement c = false)
    \/ (Root.Node r' = None /\ Root.Error r' <> None
        /\ forall k c, i0 <= k -> nth_error cs k = Some c -> isElement c = false).
Proof.
  induction after as [| s rest IH]; intros i0 Hafter; cbv zeta; cbn [nextElementSibling].
  - right. split; [reflexivity |]. split; [discriminate |].
    intros k c Hk Hc. exfalso.
    assert (Hlen : length cs <= i0).
    { destruct (Nat.le_gt_cases (length cs) i0) as [H | H]; [exact H |].
      assert (L : length (skipn i0 cs) = length cs - i0) by apply length_skipn.
      rewrite <- Hafter in L. cbn in L. lia. }
    assert (Hk' : k < length cs) by (apply nth_error_Some; rewrite Hc; discriminate).
    lia.
  - symmetry in Hafter. destruct (skipn_cons_inv _ _ _ _ Hafter) as [Hs Hrest].
    fold (isElement s). destruct (isElement s) eqn:Es.
    + left. exists i0, s. repeat split; try assumption; try reflexivity; try lia.
      all: intros k c Hk; lia.
    + destruct (IH (S i0) (eq_sym Hrest)) as [(j & e & H1 & H2 & H3 & H4 & H5 & H6 & H7) | (H1 & H2 & H3)].
      * left. exists j, e. repeat split; try assumption; try lia.
        intros k c Hk Hc. destruct (Nat.eq_dec k i0) as [-> | Hne].
        -- rewrite Hs in Hc. injection Hc as <-. exact Es.
        -- apply (H7 k c); [lia | exact Hc].
      * right. repeat split; try assumption.
        intros k c Hk Hc. destruct (Nat.eq_dec k i0) as [-> | Hne].
        -- rewrite Hs in Hc. injection Hc as <-. exact Es.
        -- apply (H3 k c); [lia | exact Hc].
Qed.

(** X11. FindNextElementSibling: for a node at position [i] under its
    parent the call returns, and it returns the nearest following
    sibling that is an element, every sibling in between being of
    another kind; it fails, with no node, exactly when no following
    sibling is an element. *)
Theorem X11_FindNextElementSibling_nearest :
  forall (doc : html.Node) (r : Root.t) (q : Addr) (i : nat) (parent t : html.Node),
    Root.Node r = Some (q ++ [i]) -> deref doc q = Some parent ->
    nth_error (html.Children parent) i = Some t ->
    exists r',
      FindNextElementSibling doc r = Ok r'
      /\ ((exists j e,
              Root.Node r' = Some (q ++ [j]) /\ i < j
              /\ nth_error (html.Children parent) j = Some e
              /\ isElement e = true /\ Root.NodeValue r' = html.Data e
              /\ Root.Error r' = None
              /\ forall k c, i < k < j -> nth_error (html.Children parent) k = Some c ->
                             isElement c = false)
          \/ (Root.Node r' = None /\ Root.Error r' <> None
              /\ forall k c, i < k -> nth_error (html.Children parent) k = Some c ->
                             isElement c = false)).
Proof.
  intros doc r q i parent t Hr Hq Hi.
  unfold FindNextElementSibling, load. rewrite Hr, deref_child, Hq, Hi. cbn [rbind fst].
  rewrite (siblings_child doc q parent i t Hq Hi).
  eexists. split; [reflexivity |].
  destruct (nextElementSibling_nearest (html.Children parent) q
              (skipn (S i) (html.Children parent)) (S i) eq_refl)
    as [(j & e & H1 & H2 & H3 & H4 & H5 & H6 & H7) | (H1 & H2 & H3)].
  - left. exists j, e. repeat split; try assumption; try lia;
      try (intros k c Hk; apply H7; lia).
  - right. repeat split; try assumption; try (intros k c Hk; apply H3; lia).
Qed.

Lemma X11_FindNextElementSibling_nearest_witness :
  (Root.Node (Sample.at_ [0; 1; 0; 0; 0] "To a ") = Some ([0; 1; 0; 0] ++ [0])
   /\ deref Sample.doc [0; 1; 0; 0] = Some Sample.li_text_first
   /\ nth_error (html.Children Sample.li_text_first) 0 = Some (Sample.text "To a "))
  /\ exists r', FindNextElementSibling Sample.doc (Sample.at_ [0; 1; 0; 0; 0] "To a ") = Ok r'.
Proof.
  split; [repeat split; reflexivity |].
  destruct (X11_FindNextElementSibling_nearest Sample.doc
              (Sample.at_ [0; 1; 0; 0; 0] "To a ") [0; 1; 0; 0] 0
              Sample.li_text_first (Sample.text "To a ") eq_refl eq_refl eq_refl)
    as (r' & E & _).
  exists r'. exact E.
Defined.

Lemma prevElementSibling_nearest cs q :
  forall earlier i0,
    i0 <= length cs -> earlier = rev (firstn i0 cs) ->
    let r' := prevElementSibling earlier q i0 in
    (exists j e, Root.Node r' = Some (q ++ [j]) /\ j < i0 /\ nth_error cs j = Some e
                 /\ isElement e = true /\ Root.NodeValue r' = html.Data e
                 /\ Root.Error r' = None
                 /\ forall k c, j < k < i0 -> nth_error cs k = Some c -> isElement c = false)
    \/ (Root.Node r' = None /\ Root.Error r' <> None
        /\ forall k c, k < i0 -> nth_error cs k = Some c -> isElement c = false).
Proof.
  induction earlier as [| s rest IH]; intros i0 Hi Hearlier; cbv zeta;
    cbn [prevElementSibling].
  - right. split; [reflexivity |]. split; [discriminate |].
    intros k c Hk Hc. exfalso.
    assert (L : length (rev (firstn i0 cs)) = i0)
      by (rewrite length_rev, length_firstn; lia).
    rewrite <- Hearlier in L. cbn in L. lia.
  - symmetry in Hearlier.
    destruct (rev_firstn_cons_inv _ _ _ _ Hi Hearlier) as (j0 & -> & Hs & Hrest).
    cbn [pred]. fold (isElement s). destruct (isElement s) eqn:Es.
    + left. exists j0, s. repeat split; try assumption; try reflexivity; try lia.
      all: intros k c Hk; lia.
    + destruct (IH j0 ltac:(lia) Hrest)
        as [(j & e & H1 & H2 & H3 & H4 & H5 & H6 & H7) | (H1 & H2 & H3)].
      * left. exists j, e. repeat split; try assumption; try lia.
        intros k c Hk Hc. destruct (Nat.eq_dec k j0) as [-> | Hne].
        -- rewrite Hs in Hc. injection Hc as <-. exact Es.
        -- apply (H7 k c); [lia | exact Hc].
      * right. repeat split; try assumption.
        intros k c Hk Hc. destruct (Nat.eq_dec k j0) as [-> | Hne].
        -- rewrite Hs in Hc. injection Hc as <-. exact Es.
        -- apply (H3 k c); [lia | exact Hc].
Qed.

(** X12. FindPrevElementSibling: for a node at position [i] under its
    parent the call returns, and it returns the nearest preceding
    sibling that is an element, every sibling in between being of
    another kind; it fails, with no node, exactly when no preceding
    sibling is an element. *)
Theorem X12_FindPrevElementSibling_nearest :
  forall (doc : html.Node) (r : Root.t) (q : Addr) (i : nat) (parent t : html.Node),
    Root.Node r = Some (q ++ [i]) -> deref doc q = Some parent ->
    nth_error (html.Children parent) i = Some t ->
    exists r',
      FindPrevElementSibling doc r = Ok r'
      /\ ((exists j e,
              Root.Node r' = Some (q ++ [j]) /\ j < i
              /\ nth_error (html.Children parent) j = Some e
              /\ isElement e = true /\ Root.NodeValue r' = html.Data e
              /\ Root.Error r' = None
              /\ forall k c, j < k < i -> nth_error (html.Children parent) k = Some c ->
                             isElement c = false)
          \/ (Root.Node r' = None /\ Root.Error r' <> None
              /\ forall k c, k < i -> nth_error (html.Children parent) k = Some c ->
                             isElement c = false)).
Proof.
  intros doc r q i parent t Hr Hq Hi.
  unfold FindPrevElementSibling, load. rewrite Hr, deref_child, Hq, Hi. cbn [rbind fst].
  rewrite (siblings_child doc q parent i t Hq Hi).
  eexists. split; [reflexivity |].
  assert (Hlen : i <= length (html.Children parent)).
  { apply Nat.lt_le_incl. apply nth_error_Some. rewrite Hi. discriminate. }
  exact (prevElementSibling_nearest (html.Children parent) q
           (rev (firstn i (html.Children parent))) i Hlen eq_refl).
Qed.

Lemma X12_FindPrevElementSibling_nearest_witness :
  (Root.Node (Sample.at_ [0; 1; 0; 0; 2] " right?") = Some ([0; 1; 0; 0] ++ [2])
   /\ deref Sample.doc [0; 1; 0; 0] = Some Sample.li_text_first
   /\ nth_error (html.Children Sample.li_text_first) 2 = Some (Sample.text " right?"))
  /\ exists r', FindPrevElementSibling Sample.doc (Sample.at_ [0; 1; 0; 0; 2] " right?") = Ok r'.
Proof.
  split; [repeat split; reflexivity |].
  destruct (X12_FindPrevElementSibling_nearest Sample.doc
              (Sample.at_ [0; 1; 0; 0; 2] " right?") [0; 1; 0; 0] 2
              Sample.li_text_first (Sample.text " right?") eq_refl eq_refl eq_refl)
    as (r' & E & _).
  exists r'. exact E.
Defined.

Lemma Children_loop_entries a cs :
  forall i rootNode childrenNode,
    Roots.Roots childrenNode = rootNode ->
    exists tail,
      Roots.Roots (Children_loop cs a i rootNode childrenNode) = rootNode ++ tail
      /\ forall k, nth_error tail k
                   = option_map (fun c => Root.mk (Some (a ++ [i + k])) (html.Data c) None)
                       (nth_error cs k).
Proof.
  induction cs as [| c rest IH]; intros i rootNode childrenNode HR; cbn [Children_loop].
  - exists []. rewrite app_nil_r. split; [exact HR |]. intros [| k]; reflexivity.
  - cbv zeta.
    destruct (IH (S i) (rootNode ++ [Root.mk (Some (a ++ [i])) (html.Data c) None])
                (Roots.mk (rootNode ++ [Root.mk (Some (a ++ [i])) (html.Data c) None])
                   (Z.of_nat (length (rootNode
                                      ++ [Root.mk (Some (a ++ [i])) (html.Data c) None])))
                   (Roots.Error childrenNode)) eq_refl) as (tail & E & Hk).
    exists (Root.mk (Some (a ++ [i])) (html.Data c) None :: tail).
    split; [rewrite E, <- app_assoc; reflexivity |].
    intros [| k]; cbn [nth_error option_map].
    + rewrite Nat.add_0_r. reflexivity.
    + rewrite Hk, Nat.add_succ_r. reflexivity.
Qed.

(** X13. Children and FindNextSibling: on a result that holds a
    node, [Children] returns one result for each child, in order,
    holding the child and its data; [FindNextSibling] on the result
    at position [i] returns the result at position [i + 1], and on the
    last one it fails with no node. *)
Theorem X13_Children_are_linked_by_FindNextSibling :
  forall (doc : html.Node) (r : Root.t) (a : Addr) (t : html.Node),
    Root.Node r = Some a -> deref doc a = Some t ->
    exists rs,
      Children doc r = Ok rs
      /\ (forall i, nth_error (Roots.Roots rs) i
                    = option_map (fun c => Root.mk (Some (a ++ [i])) (html.Data c) None)
                        (nth_error (html.Children t) i))
      /\ (forall i ri,
             nth_error (Roots.Roots rs) i = Some ri ->
             FindNextSibling doc ri
             = Ok match nth_error (Roots.Roots rs) (S i) with
                  | Some rj => rj
                  | None => Root.mk None ""
                              (Some (newError ErrNoNextSibling "no next sibling found"))
                  end).
Proof.
  intros doc r a t Hr Ha. unfold Children, load. rewrite Hr, Ha. cbn [rbind fst snd].
  eexists. split; [reflexivity |].
  destruct (Children_loop_entries a (html.Children t) 0 [] (Roots.mk [] 0 None) eq_refl)
    as (tail & E & Hk).
  cbn [app] in E. rewrite E.
  assert (Hnth : forall i, nth_error tail i
                           = option_map (fun c => Root.mk (Some (a ++ [i])) (html.Data c) None)
                               (nth_error (html.Children t) i))
    by (intro i; rewrite Hk; reflexivity).
  split; [exact Hnth |].
  intros i ri Hi. rewrite Hnth in Hi |- *.
  destruct (nth_error (html.Children t) i) as [c |] eqn:Ec; [| discriminate].
  injection Hi as <-. unfold FindNextSibling, load. cbn [Root.Node].
  rewrite deref_child, Ha, Ec. cbn [rbind fst].
  rewrite (NextSibling_spec doc a t i Ha).
  destruct (nth_error (html.Children t) (S i)) as [c' |] eqn:Ec'; cbn [option_map];
    [| reflexivity].
  apply rootAt_live. rewrite deref_child, Ha. exact Ec'.
Qed.

Lemma X13_Children_are_linked_by_FindNextSibling_witness :
  (Root.Node Sample.root = Some [0]
   /\ deref Sample.doc [0]
      = Some (Sample.elem "html" [] [Sample.elem "head" [] []; Sample.body]))
  /\ exists rs, Children Sample.doc Sample.root = Ok rs
                /\ nth_error (Roots.Roots rs) 1 = Some (Sample.at_ [0; 1] "body").
Proof.
  split; [split; reflexivity |].
  destruct (X13_Children_are_linked_by_FindNextSibling Sample.doc Sample.root [0]
              (Sample.elem "html" [] [Sample.elem "head" [] []; Sample.body])
              eq_refl eq_refl) as (rs & E & H & _).
  exists rs. split; [exact E |]. rewrite H. reflexivity.
Defined.

(* ===================================================================== *)
(** * Parsing: the search for the first element                            *)
(* ===================================================================== *)

Section ParsedDocument.

Variable doc : html.Node.

Lemma deref_top_child j : deref doc [j] = nth_error (html.Children doc) j.
Proof. cbn [deref]. destruct (nth_error (html.Children doc) j); reflexivity. Qed.

Lemma NextSibling_top j :
  NextSibling doc [j] = match nth_error (html.Children doc) (S j) with
                        | Some _ => Some [S j]
                        | None => None
                        end.
Proof. unfold NextSibling, live. cbn [unsnoc app]. rewrite deref_top_child. reflexivity. Qed.

Lemma isPrologue_step fuel j x :
  nth_error (html.Children doc) j = Some x -> isPrologue x = true ->
  htmlparsing_loop (S fuel) doc (Some [j]) = htmlparsing_loop fuel doc (NextSibling doc [j])
  /\ htmlparsing_loop 0 doc (Some [j]) = OutOfFuel.
Proof.
  intros Hj Hx. cbn [htmlparsing_loop]. unfold load. rewrite deref_top_child, Hj.
  unfold isPrologue in Hx. destruct (html.Type' x); try discriminate; split; reflexivity.
Qed.

(** The walk along the children of the document: [n] nodes to step
    over from position [j]. *)
Lemma prologue_then_element n :
  forall j fuel e,
    (forall k, k < n -> exists x, nth_error (html.Children doc) (j + k) = Some x
                                  /\ isPrologue x = true) ->
    nth_error (html.Children doc) (j + n) = Some e -> isElement e = true ->
    n <= fuel ->
    htmlparsing_loop fuel doc (Some [j]) = Done (Ok [j + n]).
Proof.
  induction n as [| n IH]; intros j fuel e Hpre He Hel Hfuel.
  - rewrite Nat.add_0_r in He |- *. unfold isElement in Hel.
    destruct fuel; cbn [htmlparsing_loop]; unfold load; rewrite deref_top_child, He, Hel;
      reflexivity.
  - destruct fuel as [| fuel]; [lia |].
    destruct (Hpre 0 ltac:(lia)) as (x & Hx & Hp). rewrite Nat.add_0_r in Hx.
    rewrite (proj1 (isPrologue_step fuel j x Hx Hp)), NextSibling_top.
    assert (Hnext : exists y, nth_error (html.Children doc) (S j) = Some y).
    { destruct n as [| n'].
      - exists e. rewrite <- He. f_equal. lia.
      - destruct (Hpre 1 ltac:(lia)) as (y & Hy & _). exists y. rewrite <- Hy. f_equal. lia. }
    destruct Hnext as (y & ->).
    replace (j + S n) with (S j + n) in He |- * by lia.
    apply (IH (S j) fuel e); [| exact He | exact Hel | lia].
    intros k Hk. destruct (Hpre (S k) ltac:(lia)) as (z & Hz & Hpz).
    exists z. split; [rewrite <- Hz; f_equal; lia | exact Hpz].
Qed.

Lemma prologue_then_end n :
  forall j fuel,
    (forall k, k < n -> exists x, nth_error (html.Children doc) (j + k) = Some x
                                  /\ isPrologue x = true) ->
    0 < n -> nth_error (html.Children doc) (j + n) = None ->
    n <= fuel ->
    htmlparsing_loop fuel doc (Some [j]) = Done (Panic NilDereference).
Proof.
  induction n as [| n IH]; intros j fuel Hpre Hn Hend Hfuel; [lia |].
  destruct fuel as [| fuel]; [lia |].
  destruct (Hpre 0 ltac:(lia)) as (x & Hx & Hp). rewrite Nat.add_0_r in Hx.
  rewrite (proj1 (isPrologue_step fuel j x Hx Hp)), NextSibling_top.
  destruct n as [| n'].
  - replace (j + 1) with (S j) in Hend by lia. rewrite Hend.
    destruct fuel; reflexivity.
  - destruct (Hpre 1 ltac:(lia)) as (y & Hy & _).
    replace (j + 1) with (S j) in Hy by lia. rewrite Hy.
    apply (IH (S j) fuel); [| lia | rewrite <- Hend; f_equal; lia | lia].
    intros k Hk. destruct (Hpre (S k) ltac:(lia)) as (z & Hz & Hpz).
    exists z. split; [rewrite <- Hz; f_equal; lia | exact Hpz].
Qed.

Lemma staysPut_forever x j :
  nth_error (html.Children doc) j = Some x -> staysPut x = true ->
  forall fuel, htmlparsing_loop fuel doc (Some [j]) = OutOfFuel.
Proof.
  intros Hj Hx fuel. induction fuel as [| fuel IH];
    cbn [htmlparsing_loop]; unfold load; rewrite deref_top_child, Hj;
    unfold staysPut in Hx; destruct (html.Type' x); try discriminate;
    cbn [html.NodeType_eqb]; try reflexivity; exact IH.
Qed.

Lemma prologue_then_stuck n :
  forall j fuel x,
    (forall k, k < n -> exists y, nth_error (html.Children doc) (j + k) = Some y
                                  /\ isPrologue y = true) ->
    nth_error (html.Children doc) (j + n) = Some x -> staysPut x = true ->
    htmlparsing_loop fuel doc (Some [j]) = OutOfFuel.
Proof.
  induction n as [| n IH]; intros j fuel x Hpre Hx Hs.
  - rewrite Nat.add_0_r in Hx. exact (staysPut_forever x j Hx Hs fuel).
  - destruct (Hpre 0 ltac:(lia)) as (y & Hy & Hp). rewrite Nat.add_0_r in Hy.
    destruct fuel as [| fuel]; [exact (proj2 (isPrologue_step 0 j y Hy Hp)) |].
    rewrite (proj1 (isPrologue_step fuel j y Hy Hp)), NextSibling_top.
    assert (Hnext : exists z, nth_error (html.Children doc) (S j) = Some z).
    { destruct n as [| n'].
      - exists x. rewrite <- Hx. f_equal. lia.
      - destruct (Hpre 1 ltac:(lia)) as (z & Hz & _). exists z. rewrite <- Hz. f_equal. lia. }
    destruct Hnext as (z & ->).
    apply (IH (S j) fuel x); [| rewrite <- Hx; f_equal; lia | exact Hs].
    intros k Hk. destruct (Hpre (S k) ltac:(lia)) as (w & Hw & Hpw).
    exists w. split; [rewrite <- Hw; f_equal; lia | exact Hpw].
Qed.

Lemma document_step fuel :
  html.Type' doc = html.DocumentNode ->
  htmlparsing_loop (S fuel) doc (Some [])
  = htmlparsing_loop fuel doc (match html.Children doc with
                               | [] => None
                               | _ :: _ => Some [0]
                               end)
  /\ htmlparsing_loop 0 doc (Some []) = OutOfFuel.
Proof.
  intro Hd. cbn [htmlparsing_loop load deref]. rewrite Hd. cbn [html.NodeType_eqb].
  rewrite (FirstChild_spec doc [] doc eq_refl). split; reflexivity.
Qed.

Lemma prefix_positions (pre : list html.Node) x post (P : html.Node -> bool) :
  html.Children doc = pre ++ x :: post -> Forall (fun y => P y = true) pre ->
  (forall k, k < length pre -> exists y, nth_error (html.Children doc) (0 + k) = Some y
                                         /\ P y = true)
  /\ nth_error (html.Children doc) (0 + length pre) = Some x.
Proof.
  intros Hc Hpre. rewrite Hc. split.
  - intros k Hk. cbn [Nat.add]. rewrite nth_error_app1 by exact Hk.
    destruct (nth_error pre k) as [y |] eqn:E; [| apply nth_error_None in E; lia].
    exists y. split; [reflexivity |]. rewrite Forall_forall in Hpre.
    apply Hpre. exact (nth_error_In _ _ E).
  - cbn [Nat.add]. rewrite nth_error_app2, Nat.sub_diag by lia. reflexivity.
Qed.

End ParsedDocument.

(** X14. Parsing: where the parser returns a document node whose
    children are doctype and comment nodes followed by an element,
    [HTMLParse] and [HTMLParseFromString] return, after one step of
    their loop for the document and one for each node stepped over, a
    result that holds that first element, with its tag as value and no
    error. *)
Theorem X14_HTMLParse_returns_first_element :
  forall (Reader : Type) (Parse : Reader -> html.Node + string)
         (NewReader : string -> Reader) (rd : Reader) (s : string)
         (doc e : html.Node) (pre post : list html.Node) (fuel : nat),
    html.Type' doc = html.DocumentNode ->
    html.Children doc = pre ++ e :: post ->
    Forall (fun x => isPrologue x = true) pre -> isElement e = true ->
    length pre + 1 <= fuel ->
    (Parse rd = inl doc ->
     HTMLParse Reader Parse fuel rd
     = Done (Ok (Root.mk (Some [length pre]) (html.Data e) None)))
    /\ (Parse (NewReader s) = inl doc ->
        HTMLParseFromString Reader Parse NewReader fuel s
        = Done (Ok (Root.mk (Some [length pre]) (html.Data e) None))).
Proof.
  intros Reader Parse NewReader rd s doc e pre post fuel Hd Hc Hpre He Hfuel.
  assert (L : htmlparsing_loop fuel doc (Some []) = Done (Ok [length pre])).
  { destruct fuel as [| fuel]; [lia |].
    rewrite (proj1 (document_step doc fuel Hd)), Hc.
    destruct (prefix_positions doc pre e post isPrologue Hc Hpre) as [H1 H2].
    destruct (pre ++ e :: post) eqn:E; [destruct pre; discriminate |].
    apply (prologue_then_element doc (length pre) 0 fuel e H1 H2 He). lia. }
  assert (Hlive : deref doc [length pre] = Some e).
  { rewrite deref_top_child, Hc, nth_error_app2, Nat.sub_diag by lia. reflexivity. }
  split; intro HP; unfold HTMLParseFromString, HTMLParse, htmlparsing;
    rewrite HP, L; unfold DataAt, load; rewrite Hlive; reflexivity.
Qed.

Lemma X14_HTMLParse_returns_first_element_witness :
  (html.Type' Sample.doc = html.DocumentNode
   /\ html.Children Sample.doc
      = [] ++ Sample.elem "html" [] [Sample.elem "head" [] []; Sample.body] :: []
   /\ Forall (fun x => isPrologue x = true) []
   /\ isElement (Sample.elem "html" [] [Sample.elem "head" [] []; Sample.body]) = true
   /\ length (@nil html.Node) + 1 <= 1)
  /\ HTMLParse unit (fun _ => inl Sample.doc) 1 tt = Done (Ok Sample.root).
Proof.
  split; [repeat split; try reflexivity; constructor |].
  apply (X14_HTMLParse_returns_first_element unit (fun _ => inl Sample.doc)
           (fun _ => tt) tt "" Sample.doc
           (Sample.elem "html" [] [Sample.elem "head" [] []; Sample.body]) [] [] 1);
    try reflexivity; constructor.
Defined.

(** X15. Parsing, the other outcomes: on a parse error [HTMLParse]
    returns a result with no node and the error [ErrUnableToParse];
    on a document whose children are all doctype and comment nodes it
    panics on the nil node that follows the last of them; on a
    document where a text, error or raw node comes before any element
    its loop never ends. *)
Theorem X15_HTMLParse_without_first_element :
  forall (Reader : Type) (Parse : Reader -> html.Node + string) (rd : Reader),
    (forall err fuel,
        Parse rd = inr err ->
        HTMLParse Reader Parse fuel rd
        = Done (Ok (Root.mk None "" (Some (newError ErrUnableToParse err)))))
    /\ (forall doc fuel,
           Parse rd = inl doc -> html.Type' doc = html.DocumentNode ->
           Forall (fun x => isPrologue x = true) (html.Children doc) ->
           length (html.Children doc) + 1 <= fuel ->
           HTMLParse Reader Parse fuel rd = Done (Panic NilDereference))
    /\ (forall doc pre x post,
           Parse rd = inl doc -> html.Type' doc = html.DocumentNode ->
           html.Children doc = pre ++ x :: post ->
           Forall (fun y => isPrologue y = true) pre -> staysPut x = true ->
           forall fuel, HTMLParse Reader Parse fuel rd = OutOfFuel).
Proof.
  intros Reader Parse rd. split; [| split].
  - intros err fuel HP. unfold HTMLParse, htmlparsing. rewrite HP. reflexivity.
  - intros doc fuel HP Hd Hall Hfuel. unfold HTMLParse, htmlparsing. rewrite HP.
    destruct fuel as [| fuel]; [lia |].
    rewrite (proj1 (document_step doc fuel Hd)).
    destruct (html.Children doc) as [| c cs] eqn:Hc.
    + destruct fuel; reflexivity.
    + rewrite (prologue_then_end doc (length (c :: cs)) 0 fuel); [reflexivity | | | |].
      * intros k Hk. rewrite Hc. cbn [Nat.add].
        destruct (nth_error (c :: cs) k) as [y |] eqn:E; [| apply nth_error_None in E; lia].
        exists y. split; [reflexivity |]. rewrite Forall_forall in Hall.
        apply Hall. exact (nth_error_In _ _ E).
      * cbn [length]. lia.
      * rewrite Hc. cbn [Nat.add]. apply nth_error_None. lia.
      * cbn [length] in *. lia.
  - intros doc pre x post HP Hd Hc Hpre Hx fuel. unfold HTMLParse, htmlparsing. rewrite HP.
    destruct fuel as [| fuel]; [rewrite (proj2 (document_step doc 0 Hd)); reflexivity |].
    rewrite (proj1 (document_step doc fuel Hd)).
    destruct (prefix_positions doc pre x post isPrologue Hc Hpre) as [H1 H2].
    rewrite Hc. destruct (pre ++ x :: post) eqn:E; [destruct pre; discriminate |].
    rewrite (prologue_then_stuck doc (length pre) 0 fuel x H1 H2 Hx). reflexivity.
Qed.

Lemma X15_HTMLParse_without_first_element_witness :
  (fun _ : unit => @inr html.Node string "bad input") tt = inr "bad input"
  /\ HTMLParse unit (fun _ => inr "bad input") 0 tt
     = Done (Ok (Root.mk None "" (Some (newError ErrUnableToParse "bad input")))).
Proof.
  split; [reflexivity |].
  apply (X15_HTMLParse_without_first_element unit (fun _ => inr "bad input") tt).
  reflexivity.
Defined.

(* ===================================================================== *)
(** * The client and Visit                                                 *)
(* ===================================================================== *)

(** X16. NewClient and Visit: [NewClient] panics on every argument,
    on nil when it reads [para.Header] and otherwise when it sets the
    timeout of the embedded client, which is still nil.  So [Visit]
    never returns a document: for a string its pattern rejects it
    returns the error [string ... is not a link] with no document, and
    for every other string it panics, with or without a client, before
    any request is made. *)
Theorem X16_Visit_never_returns_a_document :
  (forall para, NewClient para = Panic NilDereference)
  /\ (forall (Reader : Type) (nilReader : Reader) (Parse : Reader -> html.Node + string)
             (Match : string -> bool)
             (exchange : Client.t -> string -> string -> Reader
                         -> result (Reader * option string))
             (fuel : nat) (r : Root.t) (str : string) (client : option Client.t),
         Visit Reader nilReader Parse Match exchange fuel r str client
         = if Match str then Done (Panic NilDereference)
           else Done (Ok (None, Some ("string " ++ str ++ " is not a link")%string))).
Proof.
  split.
  - intros [p |]; reflexivity.
  - intros Reader nilReader Parse Match exchange fuel r str client. unfold Visit.
    destruct (Match str); cbn [negb]; [| reflexivity].
    destruct client as [c |]; reflexivity.
Qed.

(* ===================================================================== *)
(** * Queries with two arguments or none                                   *)
(* ===================================================================== *)

Section PanickingTest.

Variables (args : list string) (strict : bool) (bad : html.Node -> bool) (e : panic).

Hypothesis self_once :
  forall t, findOnce_self t args strict = if bad t then Panic e else Ok false.
Hypothesis self_all :
  forall t n acc, findAllofem_self t n args strict acc = if bad t then Panic e else Ok acc.

Lemma findOnce_children_bad cs :
  Forall (fun t => forall n uni,
              outcome (findOnce_tree t n args uni strict)
              = if anyBad bad (range uni t n) then Panic e else Ok None) cs ->
  forall n i,
    outcome (findOnce_children cs n i args strict)
    = if anyBad bad (descendants_children cs n i) then Panic e else Ok None.
Proof.
  induction 1 as [| c rest Hc _ IH]; intros n i; [reflexivity |].
  cbn [findOnce_children descendants_children]. rewrite outcome_ebind, (Hc (n ++ [i]) true).
  unfold range, anyBad in *. cbn [app existsb snd]. rewrite existsb_app.
  destruct (bad c); [reflexivity |]. cbn [orb].
  destruct (existsb _ (descendants c (n ++ [i]))); [reflexivity |].
  cbn [rbind orb]. apply IH.
Qed.

Lemma findOnce_tree_bad t :
  forall n uni,
    outcome (findOnce_tree t n args uni strict)
    = if anyBad bad (range uni t n) then Panic e else Ok None.
Proof.
  induction t as [ty d attrs cs IH] using Node_ind; intros n uni.
  rewrite findOnce_tree_eq, outcome_ebind. unfold range. rewrite descendants_eq.
  cbn [html.Children]. pose proof (findOnce_children_bad cs IH n 0) as Hcs.
  destruct uni; cbn [tested eret outcome snd app].
  - rewrite self_once. unfold anyBad in *. cbn [existsb snd].
    destruct (bad _); [reflexivity |]. cbn [rbind orb]. exact Hcs.
  - cbn [rbind]. exact Hcs.
Qed.

Lemma findAllofem_children_bad cs :
  Forall (fun t => forall n uni acc,
              outcome (findAllofem_f t n args uni strict acc)
              = if anyBad bad (range uni t n) then Panic e else Ok acc) cs ->
  forall n i acc,
    outcome (findAllofem_children cs n i args strict acc)
    = if anyBad bad (descendants_children cs n i) then Panic e else Ok acc.
Proof.
  induction 1 as [| c rest Hc _ IH]; intros n i acc; [reflexivity |].
  cbn [findAllofem_children descendants_children].
  rewrite outcome_ebind, (Hc (n ++ [i]) true).
  unfold range, anyBad in *. cbn [app existsb snd]. rewrite existsb_app.
  destruct (bad c); [reflexivity |]. cbn [orb].
  destruct (existsb _ (descendants c (n ++ [i]))); [reflexivity |].
  cbn [rbind orb]. apply IH.
Qed.

Lemma findAllofem_f_bad t :
  forall n uni acc,
    outcome (findAllofem_f t n args uni strict acc)
    = if anyBad bad (range uni t n) then Panic e else Ok acc.
Proof.
  induction t as [ty d attrs cs IH] using Node_ind; intros n uni acc.
  rewrite findAllofem_f_eq, outcome_ebind. unfold range. rewrite descendants_eq.
  cbn [html.Children].
  destruct uni; cbn [tested eret outcome snd app].
  - rewrite self_all. unfold anyBad in *. cbn [existsb snd].
    destruct (bad _); [reflexivity |]. cbn [rbind orb].
    exact (findAllofem_children_bad cs IH n 0 acc).
  - cbn [rbind]. exact (findAllofem_children_bad cs IH n 0 acc).
Qed.

End PanickingTest.

Lemma findOnce_self_two t tg name strict :
  findOnce_self t [tg; name] strict
  = if readsThirdArgument tg t then Panic IndexOutOfRange else Ok false.
Proof.
  unfold findOnce_self, readsThirdArgument.
  destruct (html.NodeType_eqb _ _); [| reflexivity].
  cbn [index nth_error rbind andb]. destruct (matchElementName t tg); [| reflexivity].
  cbn [length Nat.ltb Nat.leb andb]. destruct (html.Attr t); reflexivity.
Qed.

Lemma findAllofem_self_two t n tg name strict acc :
  findAllofem_self t n [tg; name] strict acc
  = if readsThirdArgument tg t then Panic IndexOutOfRange else Ok acc.
Proof.
  unfold findAllofem_self, readsThirdArgument.
  destruct (html.NodeType_eqb _ _); [| reflexivity].
  cbn [index nth_error rbind andb]. destruct (matchElementName t tg); [| reflexivity].
  cbn [length Nat.ltb Nat.leb andb]. destruct (html.Attr t); reflexivity.
Qed.

(** X17. Queries with two arguments: on a result that holds a node,
    a search given a tag and an attribute name but no value panics
    with an index out of range exactly when some descendant is an
    element that the tag admits and that carries an attribute;
    otherwise it finds nothing and reports its not-found error. *)
Theorem X17_two_argument_query :
  forall (doc : html.Node) (r : Root.t) (a : Addr) (t : html.Node) (tg name : string),
    Root.Node r = Some a -> deref doc a = Some t ->
    (anyBad (readsThirdArgument tg) (descendants t a) = true ->
     Find doc r [tg; name] = Panic IndexOutOfRange
     /\ FindStrict doc r [tg; name] = Panic IndexOutOfRange
     /\ FindAll doc r [tg; name] = Panic IndexOutOfRange
     /\ FindAllStrict doc r [tg; name] = Panic IndexOutOfRange)
    /\ (anyBad (readsThirdArgument tg) (descendants t a) = false ->
        Find doc r [tg; name] = Ok notFound
        /\ FindStrict doc r [tg; name] = Ok notFound
        /\ FindAll doc r [tg; name]
           = Ok (Roots.mk [] 0
                   (Some (newError ErrElementsNotFound "no elements or attriabutes found")))
        /\ exists e, FindAllStrict doc r [tg; name] = Ok (Roots.mk [] 0 (Some e))).
Proof.
  intros doc r a t tg name Hr Ha.
  unfold Find, FindStrict, FindAll, FindAllStrict. rewrite Hr.
  rewrite !(findOnce_live _ _ _ [tg; name] false _ Ha).
  rewrite !(findAllofem_live _ _ _ [tg; name] _ Ha).
  rewrite !(findOnce_tree_bad [tg; name] _ (readsThirdArgument tg) IndexOutOfRange
              (fun t0 => findOnce_self_two t0 tg name _)).
  rewrite !(findAllofem_f_bad [tg; name] _ (readsThirdArgument tg) IndexOutOfRange
              (fun t0 n acc => findAllofem_self_two t0 n tg name _ acc)).
  unfold range. cbn [app].
  split; intros ->; cbn [rbind length Nat.eqb index nth_error].
  - repeat split; reflexivity.
  - repeat split; try reflexivity. eexists. reflexivity.
Qed.

Lemma X17_two_argument_query_witness :
  (Root.Node Sample.root = Some [0]
   /\ deref Sample.doc [0]
      = Some (Sample.elem "html" [] [Sample.elem "head" [] []; Sample.body])
   /\ anyBad (readsThirdArgument "div")
        (descendants (Sample.elem "html" [] [Sample.elem "head" [] []; Sample.body]) [0])
      = true)
  /\ Find Sample.doc Sample.root ["div"; "class"] = Panic IndexOutOfRange.
Proof.
  split; [repeat split; reflexivity |].
  apply (X17_two_argument_query Sample.doc Sample.root [0]
           (Sample.elem "html" [] [Sample.elem "head" [] []; Sample.body])
           "div" "class" eq_refl eq_refl).
  reflexivity.
Defined.





(* ===================================================================== *)
(** * What the multi-result searches return                                *)
(* ===================================================================== *)

Lemma StronglySorted_filter {A : Type} (R : A -> A -> Prop) (P : A -> bool) l :
  StronglySorted R l -> StronglySorted R (filter P l).
Proof.
  induction 1 as [| x l _ IH Hx]; cbn [filter]; [constructor |].
  destruct (P x); [| exact IH]. constructor; [exact IH |].
  apply Forall_forall. intros y Hy. apply filter_In in Hy.
  rewrite Forall_forall in Hx. apply Hx. tauto.
Qed.

Lemma matching_descendant doc a t (P : html.Node -> bool) p :
  deref doc a = Some t ->
  (In p (map fst (filter (fun x => P (snd x)) (descendants t a)))
   <-> below a p /\ exists c, deref doc p = Some c /\ P c = true).
Proof.
  intro Ha. rewrite in_map_iff. split.
  - intros ([p' c] & <- & Hin). apply filter_In in Hin. destruct Hin as [Hin HP].
    cbn [fst snd] in *. split; [exact (descendants_below t a p' c Hin) |].
    exists c. split; [exact (descendants_live doc a t p' c Ha Hin) | exact HP].
  - intros (Hb & c & Hc & HP). exists (p, c). split; [reflexivity |].
    apply filter_In. split; [exact (below_live_descendant doc a t p c Ha Hb Hc) | exact HP].
Qed.

Lemma multi_result_nodes doc r a t q (strict : bool) rs :
  Root.Node r = Some a -> deref doc a = Some t ->
  (if strict then FindAllStrict doc r (args_of q) else FindAll doc r (args_of q)) = Ok rs ->
  map Root.Node (Roots.Roots rs) = map Some (record q strict (descendants t a)).
Proof.
  intros Hr Ha H. destruct strict.
  - exact (FindAllStrict_record doc r a t q rs Hr Ha H).
  - exact (FindAll_record doc r a t q rs Hr Ha H).
Qed.

(** X19. The multi-result searches where attribute names are not
    repeated: on a document none of whose nodes below the receiver
    repeats an attribute name, [FindAll] and [FindAllStrict] return,
    for a well-formed query, exactly the descendants that satisfy the
    query, each once, in document order. *)
Theorem X19_FindAll_exact_without_repeated_names :
  forall (doc : html.Node) (r : Root.t) (a : Addr) (t : html.Node) (q : Query)
         (strict : bool) (rs : Roots.t),
    Root.Node r = Some a -> deref doc a = Some t ->
    Forall (fun x => NoDup (map html.Key (html.Attr (snd x)))) (descendants t a) ->
    (if strict then FindAllStrict doc r (args_of q) else FindAll doc r (args_of q)) = Ok rs ->
    exists nodes,
      map Root.Node (Roots.Roots rs) = map Some nodes
      /\ NoDup nodes
      /\ StronglySorted doc_lt nodes
      /\ (forall p, In p nodes
                    <-> below a p /\ exists c, deref doc p = Some c
                                               /\ matches q strict c = true).
Proof.
  intros doc r a t q strict rs Hr Ha Hkeys H.
  exists (map fst (filter (fun x => matches q strict (snd x)) (descendants t a))).
  assert (Hs : StronglySorted doc_lt
                 (map fst (filter (fun x => matches q strict (snd x)) (descendants t a)))).
  { apply StronglySorted_map_fst, StronglySorted_filter, descendants_sorted. }
  split; [| split; [apply StronglySorted_NoDup; exact Hs | split; [exact Hs |]]].
  - rewrite (multi_result_nodes doc r a t q strict rs Hr Ha H).
    rewrite record_filter; [reflexivity |].
    revert Hkeys. apply Forall_impl. intro x. apply recorded_unique_keys.
  - intro p. apply (matching_descendant doc a t (matches q strict) p Ha).
Qed.

Lemma X19_FindAll_exact_without_repeated_names_witness :
  (Root.Node (Sample.at_ [0; 1; 0] "ul") = Some [0; 1; 0]
   /\ deref Sample.doc [0; 1; 0]
      = Some (Sample.elem "ul" []
                [Sample.li_text_first; Sample.li_elem_first; Sample.li_blank_first])
   /\ Forall (fun x => NoDup (map html.Key (html.Attr (snd x))))
        (descendants (Sample.elem "ul" []
                        [Sample.li_text_first; Sample.li_elem_first; Sample.li_blank_first])
           [0; 1; 0])
   /\ FindAll Sample.doc (Sample.at_ [0; 1; 0] "ul") ["a"]
      = Ok (Roots.mk [Sample.at_ [0; 1; 0; 0; 1] "a"; Sample.at_ [0; 1; 0; 1; 0] "a"] 2 None))
  /\ exists nodes, map Some [[0; 1; 0; 0; 1]; [0; 1; 0; 1; 0]] = map Some nodes
                   /\ NoDup nodes.
Proof.
  assert (K : Forall (fun x => NoDup (map html.Key (html.Attr (snd x))))
                (descendants (Sample.elem "ul" []
                                [Sample.li_text_first; Sample.li_elem_first;
                                 Sample.li_blank_first]) [0; 1; 0])).
  { cbn. repeat (constructor; [cbn; repeat constructor; intros [] |]). constructor. }
  split; [split; [reflexivity | split; [reflexivity | split; [exact K | reflexivity]]] |].
  destruct (X19_FindAll_exact_without_repeated_names Sample.doc (Sample.at_ [0; 1; 0] "ul")
              [0; 1; 0]
              (Sample.elem "ul" []
                 [Sample.li_text_first; Sample.li_elem_first; Sample.li_blank_first])
              (mkQuery "a" None) false
              (Roots.mk [Sample.at_ [0; 1; 0; 0; 1] "a"; Sample.at_ [0; 1; 0; 1; 0] "a"] 2 None)
              eq_refl eq_refl K eq_refl) as (nodes & E & Hnd & _).
  exists nodes. split; [exact E | exact Hnd].
Defined.

Lemma record_In_iff q strict l p :
  In p (record q strict l) <-> exists c, In (p, c) l /\ matches q strict c = true.
Proof.
  unfold record. rewrite in_flat_map. split.
  - intros ([p' c] & Hin & Hp). cbn [fst snd] in Hp. apply repeat_spec in Hp as E. subst p'.
    exists c. split; [exact Hin |]. rewrite recorded_matches.
    destruct (recorded q strict c); [destruct Hp | reflexivity].
  - intros (c & Hin & Hm). exists (p, c). split; [exact Hin |]. cbn [fst snd].
    rewrite recorded_matches in Hm. destruct (recorded q strict c); [discriminate |].
    left; reflexivity.
Qed.

Lemma record_sorted q strict l :
  StronglySorted before l -> StronglySorted doc_le (record q strict l).
Proof.
  induction 1 as [| x l _ IH Hx]; [constructor |].
  unfold record in *. cbn [flat_map]. apply StronglySorted_app; [| exact IH |].
  - induction (recorded q strict (snd x)) as [| k IHk]; cbn [repeat]; constructor;
      [exact IHk |].
    apply Forall_forall. intros y Hy. apply repeat_spec in Hy. left. symmetry. exact Hy.
  - intros y z Hy Hz. apply repeat_spec in Hy. subst y.
    apply in_flat_map in Hz. destruct Hz as (w & Hw & Hz). apply repeat_spec in Hz. subst z.
    right. rewrite Forall_forall in Hx. exact (Hx w Hw).
Qed.

(** X20. The multi-result searches in general: on a result that holds
    a node and for a well-formed query, the nodes [FindAll] and
    [FindAllStrict] return are in document order, a repeated node
    next to itself, and a node is returned if and only if it is a
    descendant that satisfies the query. *)
Theorem X20_FindAll_in_document_order :
  forall (doc : html.Node) (r : Root.t) (a : Addr) (t : html.Node) (q : Query)
         (strict : bool) (rs : Roots.t),
    Root.Node r = Some a -> deref doc a = Some t ->
    (if strict then FindAllStrict doc r (args_of q) else FindAll doc r (args_of q)) = Ok rs ->
    exists nodes,
      map Root.Node (Roots.Roots rs) = map Some nodes
      /\ StronglySorted doc_le nodes
      /\ (forall p, In p nodes
                    <-> below a p /\ exists c, deref doc p = Some c
                                               /\ matches q strict c = true).
Proof.
  intros doc r a t q strict rs Hr Ha H.
  exists (record q strict (descendants t a)).
  split; [exact (multi_result_nodes doc r a t q strict rs Hr Ha H) |].
  split; [apply record_sorted, descendants_sorted |].
  intro p. rewrite record_In_iff. split.
  - intros (c & Hin & Hm). split; [exact (descendants_below t a p c Hin) |].
    exists c. split; [exact (descendants_live doc a t p c Ha Hin) | exact Hm].
  - intros (Hb & c & Hc & Hm). exists c.
    split; [exact (below_live_descendant doc a t p c Ha Hb Hc) | exact Hm].
Qed.

Lemma X20_FindAll_in_document_order_witness :
  (Root.Node Sample.root = Some [0]
   /\ deref Sample.doc [0]
      = Some (Sample.elem "html" [] [Sample.elem "head" [] []; Sample.body])
   /\ FindAll Sample.doc Sample.root ["div"; "class"; "b"]
      = Ok (Roots.mk [Sample.at_ [0; 1; 1] "div"; Sample.at_ [0; 1; 1] "div"] 2 None))
  /\ exists nodes, map Some [[0; 1; 1]; [0; 1; 1]] = map Some nodes
                   /\ StronglySorted doc_le nodes.
Proof.
  split; [repeat split; reflexivity |].
  destruct (X20_FindAll_in_document_order Sample.doc Sample.root [0]
              (Sample.elem "html" [] [Sample.elem "head" [] []; Sample.body])
              (mkQuery "div" (Some ("class", "b"))) false
              (Roots.mk [Sample.at_ [0; 1; 1] "div"; Sample.at_ [0; 1; 1] "div"] 2 None)
              eq_refl eq_refl eq_refl) as (nodes & E & Hs & _).
  exists nodes. split; [exact E | exact Hs].
Defined.

(* ===================================================================== *)
(** * ForEach                                                              *)
(* ===================================================================== *)

Lemma last_any_default {A : Type} (l : list A) (d d' : A) :
  l <> [] -> last l d = last l d'.
Proof.
  induction l as [| x l IH]; [contradiction |]. intros _.
  destruct l as [| y l]; [reflexivity |]. cbn [last] in *. apply IH. discriminate.
Qed.

Lemma ForEach_loop_fold {S : Type} (g : Z -> Root.t -> S -> S) rs :
  forall i r s,
    ForEach_loop rs i (fun j r0 s0 => Ok (g j r0 s0)) r s
    = Ok (snd (fold_left (fun js r0 => ((fst js + 1)%Z, g (fst js) r0 (snd js))) rs (i, s)),
          match rs with
          | [] => r
          | r0 :: _ => Some (last rs r0)
          end).
Proof.
  induction rs as [| r0 rest IH]; intros i r s; [reflexivity |].
  cbn [ForEach_loop rbind fold_left fst snd]. rewrite IH.
  destruct rest as [| r1 rest]; [reflexivity |].
  rewrite (last_any_default (r1 :: rest) r1 r0) by discriminate. reflexivity.
Qed.

(** X21. ForEach: with a callback that does not panic, [ForEach]
    calls it once for each result of the sequence, in order, with the
    positions 0, 1, ..., and returns the last result of the sequence,
    or nil for an empty sequence, where [Last] panics; where the count
    is the length of the sequence, what [ForEach] returns on a
    sequence that is not empty is what [Last] returns. *)
Theorem X21_ForEach_visits_in_order_and_returns_last :
  forall (S : Type) (g : Z -> Root.t -> S -> S) (rs : Roots.t) (s : S),
    ForEach rs (fun j r0 s0 => Ok (g j r0 s0)) s
    = Ok (snd (fold_left (fun js r0 => ((fst js + 1)%Z, g (fst js) r0 (snd js)))
                 (Roots.Roots rs) (0%Z, s)),
          match Roots.Roots rs with
          | [] => None
          | r0 :: _ => Some (last (Roots.Roots rs) r0)
          end)
    /\ (Roots.Roots rs = [] ->
        ForEach rs (fun j r0 s0 => Ok (g j r0 s0)) s = Ok (s, None)
        /\ Last rs = Panic IndexOutOfRange)
    /\ (forall r0 rest,
           Roots.Roots rs = r0 :: rest ->
           Roots.Len rs = Z.of_nat (length (Roots.Roots rs)) -> (Roots.Len rs < 2 ^ 63)%Z ->
           exists s' r', ForEach rs (fun j r0 s0 => Ok (g j r0 s0)) s = Ok (s', Some r')
                         /\ Last rs = Ok r').
Proof.
  intros S g rs s. unfold ForEach. rewrite ForEach_loop_fold.
  split; [reflexivity |]. split.
  - intro H. rewrite H. split; [reflexivity |].
    unfold Last, indexZ, index. rewrite H.
    destruct (_ <? 0)%Z; [reflexivity |]. destruct (Z.to_nat _); reflexivity.
  - intros r0 rest HR HL Hint. rewrite HR. eexists. eexists. split; [reflexivity |].
    unfold Last, indexZ, index. rewrite HL in Hint |- *. rewrite HR in Hint |- *.
    cbn [length] in Hint |- *.
    assert (Hw : int (Z.of_nat (Datatypes.S (length rest)) - 1) = Z.of_nat (length rest)).
    { unfold int. rewrite Z.mod_small; lia. }
    rewrite Hw. destruct (_ <? 0)%Z eqn:E; [apply Z.ltb_lt in E; lia |].
    replace (Z.to_nat (Z.of_nat (length rest))) with (length (r0 :: rest) - 1)
      by (cbn [length]; lia).
    rewrite (nth_error_last (r0 :: rest) r0) by discriminate. reflexivity.
Qed.
